(** * CS50.ai: Tic-Tac-Toe minimax and the Minesweeper knowledge base

    A shallow embedding of
    - [Lecture 0: Search/project0/tictactoe/tictactoe.py] and
    - [Lecture 1: Knowledge/minesweeper/minesweeper.py],
    followed by the properties of the two engines.

    Python values are modelled as follows.  Integers are [Z].  A Python
    [set] of cells is a [gset]; a Python [list] is a [list]; an object that
    is mutated in place while it sits in a list (a [Sentence] inside
    [self.knowledge]) is the list entry at its index, and object identity
    ([is]) is equality of indices.  Exceptions are values of [exn]; a loop
    whose termination is not evident from its shape takes a fuel argument
    and answers [Timeout] / [None] when the fuel runs out. *)

From stdpp Require Import gmap list strings.
From Stdlib Require Import ZArith Lia.

Local Open Scope Z_scope.

(* ===================================================================== *)
(** * Tic-Tac-Toe                                                        *)
(* ===================================================================== *)

Module TicTacToe.

(** ** Values *)

(** [X = "X"], [O = "O"]; [EMPTY = None]. *)
Inductive mark := X | O.

Abbreviation cell := (option mark).
Definition EMPTY : cell := None.

Abbreviation board := (list (list cell)).
Abbreviation action := (Z * Z)%type.

#[global] Instance mark_eq_dec : EqDecision mark.
Proof. solve_decision. Defined.

(** The exceptions the module can raise, with their messages.  The message
    of the explicit [raise IndexError] is not an f-string in the source,
    so the braces are literal. *)
Inductive exn :=
  | IndexError (msg : string)
  | ValueError (msg : string).

(** Outcome of a computation: a value, an exception, or fuel exhausted. *)
Inductive res (A : Type) :=
  | Ret (a : A)
  | Raise (e : exn)
  | Timeout.
Arguments Ret {A} a.
Arguments Raise {A} e.
Arguments Timeout {A}.

Definition res_bind {A B} (m : res A) (k : A → res B) : res B :=
  match m with
  | Ret a => k a
  | Raise e => Raise e
  | Timeout => Timeout
  end.

#[global] Instance res_ret : MRet res := λ A a, Ret a.
#[global] Instance res_mbind : MBind res := λ A B k m, res_bind m k.

Lemma bind_Ret {A B} (a : A) (k : A → res B) : Ret a ≫= k = k a.
Proof. reflexivity. Qed.

(** ** Game state model *)

Definition initial_state : board :=
  [[EMPTY; EMPTY; EMPTY];
   [EMPTY; EMPTY; EMPTY];
   [EMPTY; EMPTY; EMPTY]].

(** [row.count(v)] *)
Definition count (v : cell) (row : list cell) : nat :=
  length (filter (λ c, c = v) row).

Definition player (b : board) : mark :=
  let count_X := foldl (λ n row, (n + count (Some X) row)%nat) 0%nat b in
  let count_O := foldl (λ n row, (n + count (Some O) row)%nat) 0%nat b in
  if decide (count_O < count_X)%nat then O else X.

(** The [set] built by [actions], listed in the order in which the two
    nested loops add its elements.  Python does not fix the order in which
    a set is iterated; properties of [minimax] below are therefore stated
    for every enumeration of this set. *)
Definition actions (b : board) : list action :=
  mjoin (imap (λ i row,
    mjoin (imap (λ j c,
      if decide (c = EMPTY) then [(Z.of_nat i, Z.of_nat j)] else []) row)) b).

(** [result]: the explicit test rejects negative coordinates; [board[i][j]]
    raises Python's own [IndexError] for an index past the end. *)
Definition result (b : board) (a : action) : res board :=
  let '(i, j) := a in
  if decide (i < 0 ∨ j < 0) then
    Raise (IndexError "action({i}, {j}) out of board")
  else
    match b !! Z.to_nat i with
    | None => Raise (IndexError "list index out of range")
    | Some row =>
      match row !! Z.to_nat j with
      | None => Raise (IndexError "list index out of range")
      | Some c =>
        if decide (c ≠ EMPTY) then Raise (ValueError "Invalid action")
        else
          let move := player b in
          Ret (<[Z.to_nat i := <[Z.to_nat j := Some move]> row]> b)
      end
    end.

(** A Python [set] of cell values, as a duplicate-free list. *)
Abbreviation pyset := (list cell).

Definition pyset_add (c : cell) (s : pyset) : pyset :=
  if decide (c ∈ s) then s else s ++ [c].

Definition pyset_of (l : list cell) : pyset :=
  foldl (λ s c, pyset_add c s) [] l.

(** [len(s) == 1 and EMPTY not in s] *)
Definition decided (s : pyset) : bool :=
  bool_decide (length s = 1%nat) && bool_decide (EMPTY ∉ s).

(** [s.pop()] on a set; only used on one-element sets. *)
Definition pop (s : pyset) : cell := default EMPTY (head s).

(** The [for i in range(len(board))] loop of [winner].  [inl c] is an early
    [return c]; [inr] carries [vertically] and [diagonally] out of the
    loop.  [horizontally] is empty at the start of each iteration (it is
    cleared at the end of the previous one).  Indexing uses the total
    lookup: on a 3x3 board every index of the loop is in range. *)
Fixpoint winner_rows (i : nat) (rows : list (list cell))
    (vertically : list pyset) (d0 d1 : pyset)
    : cell + (list pyset * pyset * pyset) :=
  match rows with
  | [] => inr (vertically, d0, d1)
  | row :: rest =>
    let horizontally := pyset_of row in
    if decided horizontally then inl (pop horizontally)
    else
      let vertically' :=
        if decide (length vertically = 0%nat) then (λ piece, [piece]) <$> row
        else foldl (λ v j, alter (pyset_add (row !!! j)) j v)
                   vertically (seq 0 (length row)) in
      let d0' := pyset_add (row !!! i) d0 in
      let d1' := pyset_add (row !!! (length row - 1 - i)%nat) d1 in
      winner_rows (S i) rest vertically' d0' d1'
  end.

(** First decided set of a list of sets ([for col in ...: if ...: return]). *)
Fixpoint first_decided (l : list pyset) : option cell :=
  match l with
  | [] => None
  | s :: l' => if decided s then Some (pop s) else first_decided l'
  end.

Definition winner (b : board) : cell :=
  match winner_rows 0 b [] [] [] with
  | inl c => c
  | inr (vertically, d0, d1) =>
    match first_decided vertically with
    | Some c => c
    | None =>
      match first_decided [d0; d1] with
      | Some c => c
      | None => None
      end
    end
  end.

Definition terminal (b : board) : bool :=
  if decide (winner b = None) then
    match actions b with [] => true | _ => false end
  else true.

Definition utility (b : board) : Z :=
  let winner_player := winner b in
  if decide (winner_player = Some X) then 1
  else if decide (winner_player = Some O) then -1
  else 0.

(** ** Adversarial search *)

(** Values of [v]: [math.inf], [-math.inf] or an integer utility. *)
Inductive num := NegInf | Int (z : Z) | PosInf.

Definition num_lt (a b : num) : bool :=
  match a, b with
  | NegInf, NegInf => false
  | NegInf, _ => true
  | Int _, NegInf => false
  | Int x, Int y => bool_decide (x < y)
  | Int _, PosInf => true
  | PosInf, _ => false
  end.

(** Python's [min(a, b)] and [max(a, b)] keep the first argument on a tie. *)
Definition num_min (a b : num) : num := if num_lt b a then b else a.
Definition num_max (a b : num) : num := if num_lt a b then b else a.

Fixpoint min_value (fuel : nat) (b : board) : res num :=
  match fuel with
  | 0%nat => Timeout
  | S fuel' =>
    if terminal b then Ret (Int (utility b))
    else
      foldl (λ acc a,
               v ← acc;
               b' ← result b a;
               x ← max_value fuel' b';
               Ret (num_min v x))
            (Ret PosInf) (actions b)
  end
with max_value (fuel : nat) (b : board) : res num :=
  match fuel with
  | 0%nat => Timeout
  | S fuel' =>
    if terminal b then Ret (Int (utility b))
    else
      foldl (λ acc a,
               v ← acc;
               b' ← result b a;
               x ← min_value fuel' b';
               Ret (num_max v x))
            (Ret NegInf) (actions b)
  end.

(** [max(xs, key=f)] and [min(xs, key=f)]: the first element whose key is
    not beaten by a later one; [ValueError] on an empty iterable. *)
Fixpoint best_by (better : num → num → bool) (key : action → res num)
    (cur : action) (curk : num) (xs : list action) : res action :=
  match xs with
  | [] => Ret cur
  | x :: xs' =>
    k ← key x;
    if better k curk then best_by better key x k xs'
    else best_by better key cur curk xs'
  end.

Definition py_max (key : action → res num) (xs : list action) : res action :=
  match xs with
  | [] => Raise (ValueError "max() arg is an empty sequence")
  | x :: xs' => k ← key x; best_by (λ k curk, num_lt curk k) key x k xs'
  end.

Definition py_min (key : action → res num) (xs : list action) : res action :=
  match xs with
  | [] => Raise (ValueError "min() arg is an empty sequence")
  | x :: xs' => k ← key x; best_by (λ k curk, num_lt k curk) key x k xs'
  end.

(** [minimax] over a given enumeration [acts] of the set [actions(board)];
    [None] is the no-move sentinel. *)
Definition minimax_on (fuel : nat) (b : board) (acts : list action)
    : res (option action) :=
  if terminal b then Ret None
  else if decide (player b = X) then
    a ← py_max (λ a, b' ← result b a; min_value fuel b') acts; Ret (Some a)
  else
    a ← py_min (λ a, b' ← result b a; max_value fuel b') acts; Ret (Some a).

Definition minimax (fuel : nat) (b : board) : res (option action) :=
  minimax_on fuel b (actions b).

(** ** The finite universe of 3x3 boards *)

Definition is3x3 (b : board) : Prop :=
  length b = 3%nat ∧ Forall (λ row, length row = 3%nat) b.

Definition all_cells : list cell := [EMPTY; Some X; Some O].

Definition all_rows : list (list cell) :=
  c0 ← all_cells; c1 ← all_cells; c2 ← all_cells; [[c0; c1; c2]].

Definition all_boards : list board :=
  r0 ← all_rows; r1 ← all_rows; r2 ← all_rows; [[r0; r1; r2]].

(** The eight lines of the grid, as coordinates. *)
Definition lines : list (list (nat * nat)) :=
  [ [(0,0); (0,1); (0,2)]; [(1,0); (1,1); (1,2)]; [(2,0); (2,1); (2,2)];
    [(0,0); (1,0); (2,0)]; [(0,1); (1,1); (2,1)]; [(0,2); (1,2); (2,2)];
    [(0,0); (1,1); (2,2)]; [(0,2); (1,1); (2,0)] ]%nat.

Definition cell_at (b : board) (p : nat * nat) : cell :=
  (b !!! p.1) !!! p.2.

(** Some line of [b] holds three copies of the mark [m]. *)
Definition has_line (b : board) (m : mark) : Prop :=
  Exists (λ l, Forall (λ p, cell_at b p = Some m) l) lines.

(** Boards that arise in play. *)
Inductive reachable : board → Prop :=
  | reachable_init : reachable initial_state
  | reachable_move b a b' :
      reachable b → terminal b = false → a ∈ actions b →
      result b a = Ret b' → reachable b'.

Lemma all_cells_complete (c : cell) : c ∈ all_cells.
Proof. destruct c as [[]|]; unfold all_cells, EMPTY; set_solver. Qed.

Lemma all_rows_complete (r : list cell) : length r = 3%nat → r ∈ all_rows.
Proof.
  destruct r as [|c0 [|c1 [|c2 [|]]]]; try discriminate. intros _.
  unfold all_rows.
  apply list_elem_of_bind; exists c0; split; [|apply all_cells_complete].
  apply list_elem_of_bind; exists c1; split; [|apply all_cells_complete].
  apply list_elem_of_bind; exists c2; split; [|apply all_cells_complete].
  apply list_elem_of_singleton; reflexivity.
Qed.

Lemma all_boards_complete (b : board) : is3x3 b → b ∈ all_boards.
Proof.
  intros [Hlen Hrows].
  destruct b as [|r0 [|r1 [|r2 [|]]]]; try discriminate.
  apply Forall_cons in Hrows as [H0 Hrows].
  apply Forall_cons in Hrows as [H1 Hrows].
  apply Forall_cons in Hrows as [H2 _].
  unfold all_boards.
  apply list_elem_of_bind; exists r0; split; [|by apply all_rows_complete].
  apply list_elem_of_bind; exists r1; split; [|by apply all_rows_complete].
  apply list_elem_of_bind; exists r2; split; [|by apply all_rows_complete].
  apply list_elem_of_singleton; reflexivity.
Qed.

(** A boolean property checked on every board of the universe holds of
    every 3x3 board. *)
Lemma by_enumeration (chk : board → bool) :
  forallb chk all_boards = true → ∀ b, is3x3 b → chk b = true.
Proof.
  intros Hall b Hb. rewrite forallb_forall in Hall.
  apply Hall, list_elem_of_In, all_boards_complete, Hb.
Qed.

Definition is3x3b (b : board) : bool :=
  bool_decide (length b = 3%nat) &&
  forallb (λ row, bool_decide (length row = 3%nat)) b.

Lemma is3x3b_true b : is3x3b b = true ↔ is3x3 b.
Proof.
  unfold is3x3b, is3x3. rewrite andb_true_iff, bool_decide_eq_true.
  rewrite forallb_forall, Forall_forall.
  split; intros [H1 H2]; split; try done; intros r Hr.
  - apply list_elem_of_In in Hr. eapply bool_decide_eq_true, H2, Hr.
  - apply list_elem_of_In in Hr. apply bool_decide_eq_true, H2, Hr.
Qed.

Lemma is3x3_initial : is3x3 initial_state.
Proof. apply is3x3b_true. reflexivity. Qed.

(** *** Board-local facts, each checked on the whole universe *)

Definition winner_chk (b : board) : bool :=
  match winner b with
  | Some m => bool_decide (has_line b m)
  | None => bool_decide (¬ has_line b X) && bool_decide (¬ has_line b O)
  end.

Lemma winner_chk_all : forallb winner_chk all_boards = true.
Proof. vm_compute. reflexivity. Qed.

(** Every legal move succeeds, keeps the shape and uses up one empty cell. *)
Definition move_chk (b : board) : bool :=
  forallb (λ a,
    match result b a with
    | Ret b' => is3x3b b' &&
                bool_decide (length (actions b') < length (actions b))%nat
    | _ => false
    end) (actions b).

Lemma move_chk_all : forallb move_chk all_boards = true.
Proof. vm_compute. reflexivity. Qed.

Lemma legal_move b a :
  is3x3 b → a ∈ actions b →
  ∃ b', result b a = Ret b' ∧ is3x3 b' ∧
        (length (actions b') < length (actions b))%nat.
Proof.
  intros Hb Ha.
  pose proof (by_enumeration _ move_chk_all b Hb) as Hchk.
  unfold move_chk in Hchk. rewrite forallb_forall in Hchk.
  specialize (Hchk a (proj1 (list_elem_of_In _ _) Ha)).
  destruct (result b a) as [b'| |]; try discriminate.
  apply andb_true_iff in Hchk as [H1 H2].
  exists b'. split; [done|]. split; [by apply is3x3b_true|].
  by apply bool_decide_eq_true in H2.
Qed.

Lemma reachable_is3x3 b : reachable b → is3x3 b.
Proof.
  induction 1 as [|b a b' _ IH _ Ha Hres]; [apply is3x3_initial|].
  destruct (legal_move b a IH Ha) as (b'' & Hres' & Hb'' & _).
  congruence.
Qed.

Lemma terminal_false b :
  terminal b = false → winner b = None ∧ actions b ≠ [].
Proof.
  unfold terminal. destruct (decide (winner b = None)); [|discriminate].
  destruct (actions b); [discriminate|]. done.
Qed.

(** ** Properties of the game state model *)

(** C9. On every 3x3 board (reachable or not) [winner] answers [X], [O] or
    [None]; when it answers a mark, some row, column or diagonal holds
    three copies of that mark, and it answers [None] exactly when no line
    is held by a mark.  A line of three [EMPTY] cells is therefore never
    reported as a win. *)
Theorem winner_never_empty (b : board) :
  is3x3 b →
  (winner b = Some X ∨ winner b = Some O ∨ winner b = None) ∧
  (∀ m, winner b = Some m → has_line b m) ∧
  (winner b = None ↔ ∀ m, ¬ has_line b m).
Proof.
  intros Hb.
  pose proof (by_enumeration _ winner_chk_all b Hb) as Hchk.
  unfold winner_chk in Hchk.
  destruct (winner b) as [m|] eqn:Hw.
  - apply bool_decide_eq_true in Hchk. split; [destruct m; auto|]. split.
    + intros m' [= <-]. done.
    + split; [discriminate|]. intros Hno. destruct (Hno m Hchk).
  - apply andb_true_iff in Hchk as [HX HO].
    apply bool_decide_eq_true in HX, HO.
    split; [auto|]. split; [discriminate|].
    split; [|done]. intros _ [|]; done.
Qed.

Lemma winner_never_empty_witness :
  winner initial_state = None ↔ ∀ m, ¬ has_line initial_state m.
Proof.
  exact (proj2 (proj2 (winner_never_empty initial_state is3x3_initial))).
Defined.

(** C4. On a 3x3 board, [result] raises [IndexError] when a coordinate is
    negative (the explicit test) and also when a coordinate is 3 or more
    (the list indexing [board[i][j]] raises it); it raises [ValueError]
    when the addressed cell is occupied; otherwise it returns a board. *)
Theorem result_errors (b : board) (i j : Z) :
  is3x3 b →
  (i < 0 ∨ j < 0 →
     result b (i, j) = Raise (IndexError "action({i}, {j}) out of board")) ∧
  (0 ≤ i → 0 ≤ j → 3 ≤ i ∨ 3 ≤ j →
     result b (i, j) = Raise (IndexError "list index out of range")) ∧
  (0 ≤ i < 3 → 0 ≤ j < 3 → cell_at b (Z.to_nat i, Z.to_nat j) ≠ EMPTY →
     result b (i, j) = Raise (ValueError "Invalid action")) ∧
  (0 ≤ i < 3 → 0 ≤ j < 3 → cell_at b (Z.to_nat i, Z.to_nat j) = EMPTY →
     ∃ b', result b (i, j) = Ret b').
Proof.
  intros [Hlen Hrows]. unfold result, cell_at; cbn [fst snd].
  assert (Hrow : ∀ row, b !! Z.to_nat i = Some row → length row = 3%nat).
  { intros row Hrow. rewrite Forall_forall in Hrows.
    apply Hrows. eapply list_elem_of_lookup_2, Hrow. }
  repeat split.
  - intros Hneg. destruct (decide (i < 0 ∨ j < 0)); [done|tauto].
  - intros Hi Hj Hbig. destruct (decide (i < 0 ∨ j < 0)); [lia|].
    destruct (b !! Z.to_nat i) as [row|] eqn:Hb; [|done].
    specialize (Hrow row eq_refl).
    destruct (row !! Z.to_nat j) as [c|] eqn:Hc; [|done].
    apply lookup_lt_Some in Hb, Hc. lia.
  - intros Hi Hj Hocc. destruct (decide (i < 0 ∨ j < 0)); [lia|].
    destruct (lookup_lt_is_Some_2 b (Z.to_nat i)) as [row Hb]; [lia|].
    rewrite Hb. specialize (Hrow row Hb).
    destruct (lookup_lt_is_Some_2 row (Z.to_nat j)) as [c Hc]; [lia|].
    rewrite Hc.
    rewrite (list_lookup_total_correct _ _ _ Hb) in Hocc.
    rewrite (list_lookup_total_correct _ _ _ Hc) in Hocc.
    destruct (decide (c ≠ EMPTY)); [done|tauto].
  - intros Hi Hj Hfree. destruct (decide (i < 0 ∨ j < 0)); [lia|].
    destruct (lookup_lt_is_Some_2 b (Z.to_nat i)) as [row Hb]; [lia|].
    rewrite Hb. specialize (Hrow row Hb).
    destruct (lookup_lt_is_Some_2 row (Z.to_nat j)) as [c Hc]; [lia|].
    rewrite Hc.
    rewrite (list_lookup_total_correct _ _ _ Hb) in Hfree.
    rewrite (list_lookup_total_correct _ _ _ Hc) in Hfree.
    destruct (decide (c ≠ EMPTY)); [done|eauto].
Qed.

Lemma result_errors_witness :
  result initial_state (0, 3) = Raise (IndexError "list index out of range").
Proof.
  apply (result_errors initial_state 0 3 is3x3_initial); lia.
Defined.

(** ** Selecting the best key *)

(** [max_value] / [min_value] fold the keys of all actions with [max] /
    [min]; [minimax] picks an action with Python's keyed [max] / [min].
    Both are instances of one scheme: [R cur new] says that [new] strictly
    beats [cur]. *)
Section Best.
Variable R : num → num → bool.
Variable le : Z → Z → Prop.
Variable start : num.
Variable key : action → res num.

Hypothesis le_refl : ∀ x, le x x.
Hypothesis le_trans : ∀ x y z, le x y → le y z → le x z.
Hypothesis R_true : ∀ c n, R (Int c) (Int n) = true → le c n.
Hypothesis R_false : ∀ c n, R (Int c) (Int n) = false → le n c.
Hypothesis R_start : ∀ n, R start (Int n) = true.

Definition comb (v x : num) : num := if R v x then x else v.

Definition step (acc : res num) (a : action) : res num :=
  v ← acc; x ← key a; Ret (comb v x).

Definition total_on (xs : list action) : Prop :=
  ∀ x, x ∈ xs → ∃ z, key x = Ret (Int z).

(** [v] is the best key among [xs], attained at [a]. *)
Definition best_of (xs : list action) (a : action) (v : Z) : Prop :=
  a ∈ xs ∧ key a = Ret (Int v) ∧
  ∀ x z, x ∈ xs → key x = Ret (Int z) → le z v.

Lemma comb_int c n :
  comb (Int c) (Int n) = Int n ∧ le c n ∨
  comb (Int c) (Int n) = Int c ∧ le n c.
Proof.
  unfold comb. destruct (R (Int c) (Int n)) eqn:HR; [left|right]; auto.
Qed.

(** Folding from an integer accumulator that is itself the key of [a0]. *)
Lemma fold_from xs :
  total_on xs → ∀ a0 v0, key a0 = Ret (Int v0) →
  ∃ a v, foldl step (Ret (Int v0)) xs = Ret (Int v) ∧
         key a = Ret (Int v) ∧ (a = a0 ∨ a ∈ xs) ∧ le v0 v ∧
         ∀ x z, x ∈ xs → key x = Ret (Int z) → le z v.
Proof.
  induction xs as [|x xs IH]; intros Htot a0 v0 Ha0.
  - exists a0, v0. repeat split; auto.
    intros x z Hx. by apply elem_of_nil in Hx.
  - destruct (Htot x) as [zx Hzx]; [left|].
    assert (Htot' : total_on xs) by (intros y Hy; apply Htot; by right).
    assert (Hstep : step (Ret (Int v0)) x = Ret (comb (Int v0) (Int zx))).
    { unfold step. cbn. rewrite Hzx. done. }
    cbn [foldl]. rewrite Hstep.
    destruct (comb_int v0 zx) as [[-> Hle]|[-> Hle]].
    + destruct (IH Htot' x zx Hzx) as (a & v & Hf & Hk & Hin & Hlev & Hub).
      exists a, v. split; [done|]. split; [done|]. split.
      { right. destruct Hin as [->|]; [left|by right]. }
      split; [eauto|]. intros y z Hy Hyz.
      apply elem_of_cons in Hy as [->|Hy]; [|eauto].
      rewrite Hzx in Hyz. injection Hyz as <-. done.
    + destruct (IH Htot' a0 v0 Ha0) as (a & v & Hf & Hk & Hin & Hlev & Hub).
      exists a, v. split; [done|]. split; [done|]. split.
      { destruct Hin as [->|]; [by left|right; by right]. }
      split; [done|]. intros y z Hy Hyz.
      apply elem_of_cons in Hy as [->|Hy]; [|eauto].
      rewrite Hzx in Hyz. injection Hyz as <-. eauto.
Qed.

(** The fold of [max_value] / [min_value] over a non-empty list. *)
Lemma fold_best xs :
  xs ≠ [] → total_on xs →
  ∃ a v, foldl step (Ret start) xs = Ret (Int v) ∧ best_of xs a v.
Proof.
  destruct xs as [|x xs]; [done|]. intros _ Htot.
  destruct (Htot x) as [zx Hzx]; [left|].
  assert (Htot' : total_on xs) by (intros y Hy; apply Htot; by right).
  assert (Hstep : step (Ret start) x = Ret (Int zx)).
  { unfold step. cbn. rewrite Hzx. cbn. unfold comb. by rewrite R_start. }
  cbn [foldl]. rewrite Hstep.
  destruct (fold_from xs Htot' x zx Hzx) as (a & v & Hf & Hk & Hin & Hle & Hub).
  exists a, v. split; [done|]. split; [|split; [done|]].
  - destruct Hin as [->|]; [left|by right].
  - intros y z Hy Hyz. apply elem_of_cons in Hy as [->|Hy]; [|eauto].
    rewrite Hzx in Hyz. injection Hyz as <-. done.
Qed.

(** The scan of Python's keyed [max] / [min]. *)
Lemma best_by_from xs :
  total_on xs → ∀ a0 v0, key a0 = Ret (Int v0) →
  ∃ a v, best_by (λ k curk, R curk k) key a0 (Int v0) xs = Ret a ∧
         key a = Ret (Int v) ∧ (a = a0 ∨ a ∈ xs) ∧ le v0 v ∧
         ∀ x z, x ∈ xs → key x = Ret (Int z) → le z v.
Proof.
  induction xs as [|x xs IH]; intros Htot a0 v0 Ha0.
  - exists a0, v0. repeat split; auto.
    intros x z Hx. by apply elem_of_nil in Hx.
  - destruct (Htot x) as [zx Hzx]; [left|].
    assert (Htot' : total_on xs) by (intros y Hy; apply Htot; by right).
    cbn [best_by]. rewrite Hzx. cbn.
    destruct (R (Int v0) (Int zx)) eqn:HR.
    + apply R_true in HR.
      destruct (IH Htot' x zx Hzx) as (a & v & Hf & Hk & Hin & Hlev & Hub).
      exists a, v. split; [done|]. split; [done|]. split.
      { right. destruct Hin as [->|]; [left|by right]. }
      split; [eauto|]. intros y z Hy Hyz.
      apply elem_of_cons in Hy as [->|Hy]; [|eauto].
      rewrite Hzx in Hyz. injection Hyz as <-. done.
    + apply R_false in HR.
      destruct (IH Htot' a0 v0 Ha0) as (a & v & Hf & Hk & Hin & Hlev & Hub).
      exists a, v. split; [done|]. split; [done|]. split.
      { destruct Hin as [->|]; [by left|right; by right]. }
      split; [done|]. intros y z Hy Hyz.
      apply elem_of_cons in Hy as [->|Hy]; [|eauto].
      rewrite Hzx in Hyz. injection Hyz as <-. eauto.
Qed.

Lemma best_by_best x xs :
  total_on (x :: xs) →
  ∃ a v, (k ← key x; best_by (λ k curk, R curk k) key x k xs) = Ret a ∧
         best_of (x :: xs) a v.
Proof.
  intros Htot.
  destruct (Htot x) as [zx Hzx]; [left|].
  assert (Htot' : total_on xs) by (intros y Hy; apply Htot; by right).
  rewrite Hzx. cbn.
  destruct (best_by_from xs Htot' x zx Hzx) as (a & v & Hf & Hk & Hin & Hle & Hub).
  exists a, v. split; [done|]. split; [|split; [done|]].
  - destruct Hin as [->|]; [left|by right].
  - intros y z Hy Hyz. apply elem_of_cons in Hy as [->|Hy]; [|eauto].
    rewrite Hzx in Hyz. injection Hyz as <-. done.
Qed.

(** The best key is the same over every enumeration of the same set. *)
Lemma best_of_perm xs ys a v :
  xs ≡ₚ ys → best_of xs a v → best_of ys a v.
Proof.
  intros Hp (Ha & Hk & Hub). split; [by rewrite <- Hp|]. split; [done|].
  intros x z Hx. apply Hub. by rewrite Hp.
Qed.

End Best.

Lemma foldl_pointwise {A B} (f g : A → B → A) (l : list B) (a : A) :
  (∀ a x, f a x = g a x) → foldl f a l = foldl g a l.
Proof. intros Hfg. revert a. induction l as [|x l IH]; intros a; cbn; [done|]. by rewrite Hfg, IH. Qed.

(** The keys used by the two evaluators and by [minimax]. *)
Definition min_key (fuel : nat) (b : board) (a : action) : res num :=
  b' ← result b a; min_value fuel b'.
Definition max_key (fuel : nat) (b : board) (a : action) : res num :=
  b' ← result b a; max_value fuel b'.

Lemma max_value_unfold fuel b :
  max_value (S fuel) b =
  if terminal b then Ret (Int (utility b))
  else foldl (step num_lt (min_key fuel b)) (Ret NegInf) (actions b).
Proof.
  cbn [max_value]. destruct (terminal b); [done|].
  apply foldl_pointwise. intros acc a. unfold step, min_key, comb, num_max.
  destruct acc; cbn; try done. destruct (result b a); done.
Qed.

Lemma min_value_unfold fuel b :
  min_value (S fuel) b =
  if terminal b then Ret (Int (utility b))
  else foldl (step (λ v x, num_lt x v) (max_key fuel b)) (Ret PosInf) (actions b).
Proof.
  cbn [min_value]. destruct (terminal b); [done|].
  apply foldl_pointwise. intros acc a. unfold step, max_key, comb, num_min.
  destruct acc; cbn; try done. destruct (result b a); done.
Qed.

Lemma num_lt_true c n : num_lt (Int c) (Int n) = true → c ≤ n.
Proof. cbn. intros H%bool_decide_eq_true. lia. Qed.
Lemma num_lt_false c n : num_lt (Int c) (Int n) = false → n ≤ c.
Proof. cbn. intros H%bool_decide_eq_false. lia. Qed.
Lemma num_gt_true c n : num_lt (Int n) (Int c) = true → n ≤ c.
Proof. cbn. intros H%bool_decide_eq_true. lia. Qed.
Lemma num_gt_false c n : num_lt (Int n) (Int c) = false → c ≤ n.
Proof. cbn. intros H%bool_decide_eq_false. lia. Qed.

Definition ge (x y : Z) : Prop := y ≤ x.

(** [best_of] specialised to the maximiser and to the minimiser. *)
Definition max_of := best_of Z.le.
Definition min_of := best_of ge.

Lemma ge_refl x : ge x x.
Proof. unfold ge. lia. Qed.
Lemma ge_trans x y z : ge x y → ge y z → ge x z.
Proof. unfold ge. lia. Qed.

Lemma fold_max key xs :
  xs ≠ [] → total_on key xs →
  ∃ a v, foldl (step num_lt key) (Ret NegInf) xs = Ret (Int v) ∧
         max_of key xs a v.
Proof.
  apply fold_best;
    [reflexivity | apply Z.le_trans | apply num_lt_true | apply num_lt_false
    | done].
Qed.

Lemma fold_min key xs :
  xs ≠ [] → total_on key xs →
  ∃ a v, foldl (step (λ v x, num_lt x v) key) (Ret PosInf) xs = Ret (Int v) ∧
         min_of key xs a v.
Proof.
  apply fold_best;
    [apply ge_refl | apply ge_trans | intros c n; apply num_gt_true
    | intros c n; apply num_gt_false | done].
Qed.

Lemma py_max_best key xs :
  xs ≠ [] → total_on key xs →
  ∃ a v, py_max key xs = Ret a ∧ max_of key xs a v.
Proof.
  destruct xs as [|x xs]; [done|]. intros _. unfold py_max.
  apply (best_by_best num_lt Z.le key);
    [reflexivity | apply Z.le_trans | apply num_lt_true | apply num_lt_false].
Qed.

Lemma py_min_best key xs :
  xs ≠ [] → total_on key xs →
  ∃ a v, py_min key xs = Ret a ∧ min_of key xs a v.
Proof.
  destruct xs as [|x xs]; [done|]. intros _. unfold py_min.
  apply (best_by_best (λ v x, num_lt x v) ge key);
    [apply ge_refl | apply ge_trans | intros c n; apply num_gt_true
    | intros c n; apply num_gt_false].
Qed.

(** Two best keys of the same key function over the same set coincide. *)
Lemma max_of_unique key xs a v a' v' :
  max_of key xs a v → max_of key xs a' v' → v = v'.
Proof.
  intros (Ha & Hk & Hub) (Ha' & Hk' & Hub').
  pose proof (Hub _ _ Ha' Hk'). pose proof (Hub' _ _ Ha Hk). lia.
Qed.

Lemma min_of_unique key xs a v a' v' :
  min_of key xs a v → min_of key xs a' v' → v = v'.
Proof.
  intros (Ha & Hk & Hub) (Ha' & Hk' & Hub').
  pose proof (Hub _ _ Ha' Hk'). pose proof (Hub' _ _ Ha Hk).
  unfold ge in *. lia.
Qed.

Lemma utility_bounds b : -1 ≤ utility b ≤ 1.
Proof. unfold utility. repeat case_decide; lia. Qed.

Definition size_chk (b : board) : bool :=
  bool_decide (length (actions b) ≤ 9)%nat.

Lemma size_chk_all : forallb size_chk all_boards = true.
Proof. vm_compute. reflexivity. Qed.

Lemma actions_le_9 b : is3x3 b → (length (actions b) ≤ 9)%nat.
Proof.
  intros Hb. pose proof (by_enumeration _ size_chk_all b Hb) as H.
  by apply bool_decide_eq_true in H.
Qed.

(** ** Evaluation is total with enough fuel *)

Lemma values_total fuel :
  ∀ b, is3x3 b → (length (actions b) < fuel)%nat →
  (∃ v, min_value fuel b = Ret (Int v) ∧ -1 ≤ v ≤ 1) ∧
  (∃ v, max_value fuel b = Ret (Int v) ∧ -1 ≤ v ≤ 1).
Proof.
  induction fuel as [|fuel IH]; intros b Hb Hfuel; [lia|].
  rewrite min_value_unfold, max_value_unfold.
  destruct (terminal b) eqn:Hterm.
  { pose proof (utility_bounds b). split; eexists; split; done. }
  apply terminal_false in Hterm as [_ Hne].
  assert (Hmoves : ∀ a, a ∈ actions b →
            (∃ v, min_key fuel b a = Ret (Int v) ∧ -1 ≤ v ≤ 1) ∧
            (∃ v, max_key fuel b a = Ret (Int v) ∧ -1 ≤ v ≤ 1)).
  { intros a Ha. destruct (legal_move b a Hb Ha) as (b' & Hres & Hb' & Hlt).
    unfold min_key, max_key. rewrite Hres. cbn. apply IH; [done|lia]. }
  split.
  - destruct (fold_min (max_key fuel b) (actions b)) as (a & v & Hf & Ha & Hk & _);
      [done| |].
    + intros a Ha. destruct (Hmoves a Ha) as [_ [v [Hv _]]]. eauto.
    + exists v. split; [done|].
      destruct (Hmoves a Ha) as [_ [v' [Hv' Hb']]]. congruence.
  - destruct (fold_max (min_key fuel b) (actions b)) as (a & v & Hf & Ha & Hk & _);
      [done| |].
    + intros a Ha. destruct (Hmoves a Ha) as [[v [Hv _]] _]. eauto.
    + exists v. split; [done|].
      destruct (Hmoves a Ha) as [[v' [Hv' Hb']] _]. congruence.
Qed.

(** The value does not depend on the fuel, once there is enough of it. *)
Lemma foldl_pointwise_in {A B} (f g : A → B → A) (l : list B) :
  (∀ a x, x ∈ l → f a x = g a x) → ∀ a, foldl f a l = foldl g a l.
Proof.
  induction l as [|x l IH]; intros Hfg a; cbn; [done|].
  rewrite Hfg by left. apply IH. intros a' y Hy. apply Hfg. by right.
Qed.

Lemma values_fuel_irrelevant fuel1 :
  ∀ fuel2 b, is3x3 b →
  (length (actions b) < fuel1)%nat → (length (actions b) < fuel2)%nat →
  min_value fuel1 b = min_value fuel2 b ∧
  max_value fuel1 b = max_value fuel2 b.
Proof.
  induction fuel1 as [|fuel1 IH]; intros fuel2 b Hb H1 H2; [lia|].
  destruct fuel2 as [|fuel2]; [lia|].
  rewrite !min_value_unfold, !max_value_unfold.
  destruct (terminal b); [done|].
  assert (Hkeys : ∀ a, a ∈ actions b →
            max_key fuel1 b a = max_key fuel2 b a ∧
            min_key fuel1 b a = min_key fuel2 b a).
  { intros a Ha. destruct (legal_move b a Hb Ha) as (b' & Hres & Hb' & Hlt).
    unfold max_key, min_key. rewrite Hres, !bind_Ret.
    destruct (IH fuel2 b' Hb') as [Hmin Hmax]; [lia|lia|]. done. }
  split; apply foldl_pointwise_in; intros acc a Ha; unfold step;
    destruct (Hkeys a Ha) as [Hmax Hmin]; by rewrite ?Hmax, ?Hmin.
Qed.

(** ** Properties of the search *)

(** The utility of a board won by [m]. *)
Definition win_value (m : mark) : Z :=
  match m with X => 1 | O => -1 end.

Lemma keys_total fuel b :
  is3x3 b → (9 ≤ fuel)%nat →
  ∀ a, a ∈ actions b →
  ∃ b', result b a = Ret b' ∧
    (∃ v, min_value fuel b' = Ret (Int v) ∧ -1 ≤ v ≤ 1) ∧
    (∃ v, max_value fuel b' = Ret (Int v) ∧ -1 ≤ v ≤ 1).
Proof.
  intros Hb Hfuel a Ha.
  destruct (legal_move b a Hb Ha) as (b' & Hres & Hb' & Hlt).
  pose proof (actions_le_9 b Hb).
  exists b'. split; [done|]. apply values_total; [done|lia].
Qed.

Lemma won_board_value fuel b m :
  winner b = Some m →
  min_value (S fuel) b = Ret (Int (win_value m)) ∧
  max_value (S fuel) b = Ret (Int (win_value m)).
Proof.
  intros Hw.
  assert (Hterm : terminal b = true).
  { unfold terminal. rewrite Hw. by case_decide. }
  assert (Hu : utility b = win_value m).
  { unfold utility. rewrite Hw. destruct m; repeat case_decide; done. }
  cbn [min_value max_value]. rewrite Hterm, Hu. done.
Qed.

(** C1. On a terminal board [minimax] returns the no-move sentinel.  On a
    non-terminal board reachable from the initial state, with fuel for the
    nine plies of the game and over any enumeration of the set of actions,
    it returns a legal action [a] whose value, as evaluated by the
    opponent's evaluator on [result(board, a)], equals the value of the
    board for the mover ([max_value] when X moves, [min_value] when O
    moves) and is not beaten by any other legal action.  When some action
    completes a line for the mover, the returned action is a winning one:
    its value is the mover's winning utility (+1 for X, -1 for O). *)
Theorem minimax_optimal (fuel : nat) (b : board) (acts : list action) :
  (terminal b = true → minimax_on fuel b acts = Ret None) ∧
  (reachable b → (9 ≤ fuel)%nat → acts ≡ₚ actions b → terminal b = false →
   ∃ a b' v,
     minimax_on fuel b acts = Ret (Some a) ∧
     a ∈ actions b ∧ result b a = Ret b' ∧
     match player b with
     | X => min_value fuel b' = Ret (Int v) ∧
            max_value (S fuel) b = Ret (Int v) ∧
            ∀ a', a' ∈ actions b →
              ∃ b'' v', result b a' = Ret b'' ∧
                        min_value fuel b'' = Ret (Int v') ∧ v' ≤ v
     | O => max_value fuel b' = Ret (Int v) ∧
            min_value (S fuel) b = Ret (Int v) ∧
            ∀ a', a' ∈ actions b →
              ∃ b'' v', result b a' = Ret b'' ∧
                        max_value fuel b'' = Ret (Int v') ∧ v ≤ v'
     end ∧
     ((∃ a0 b0, a0 ∈ actions b ∧ result b a0 = Ret b0 ∧
                winner b0 = Some (player b)) →
      v = win_value (player b))).
Proof.
  split; [intros Hterm; unfold minimax_on; by rewrite Hterm|].
  intros Hreach Hfuel Hperm Hterm.
  pose proof (reachable_is3x3 b Hreach) as Hb.
  unfold minimax_on; rewrite Hterm.
  destruct (terminal_false b Hterm) as [_ Hne].
  assert (Hne' : acts ≠ []).
  { intros ->. apply Permutation_nil_l in Hperm. done. }
  pose proof (keys_total fuel b Hb Hfuel) as Hkeys.
  destruct (player b) eqn:Hpl; case_decide; try done.
  - (* X moves: keyed max over min_value *)
    change (λ a, b' ← result b a; min_value fuel b') with (min_key fuel b).
    assert (Htot : total_on (min_key fuel b) (actions b)).
    { intros a Ha. destruct (Hkeys a Ha) as (b' & Hres & [v [Hv _]] & _).
      exists v. unfold min_key. by rewrite Hres. }
    destruct (py_max_best (min_key fuel b) acts) as (a & v & Hpick & Hbest);
      [done|intros x Hx; apply Htot; by rewrite <- Hperm|].
    apply (best_of_perm _ _ _ _ _ _ Hperm) in Hbest.
    destruct (fold_max (min_key fuel b) (actions b)) as (a2 & v2 & Hfold & Hbest2);
      [done..|].
    pose proof (max_of_unique _ _ _ _ _ _ Hbest Hbest2) as <-.
    destruct Hbest as (Ha & Hk & Hub).
    destruct (Hkeys a Ha) as (b' & Hres & [w [Hw Hwb]] & _).
    assert (w = v) as ->.
    { unfold min_key in Hk. rewrite Hres, bind_Ret in Hk. congruence. }
    exists a, b', v. rewrite Hpick, bind_Ret.
    split; [done|]. split; [done|]. split; [done|]. split; [split; [done|split]|].
    + rewrite max_value_unfold, Hterm. done.
    + intros a' Ha'. destruct (Hkeys a' Ha') as (b'' & Hres' & [w' [Hw' _]] & _).
      exists b'', w'. split; [done|]. split; [done|].
      apply (Hub a'); [done|]. unfold min_key. by rewrite Hres', bind_Ret.
    + intros (a0 & b0 & Ha0 & Hres0 & Hwin). cbn.
      assert (1 ≤ v); [|lia].
      apply (Hub a0); [done|]. unfold min_key. rewrite Hres0, bind_Ret.
      destruct fuel as [|fuel']; [lia|].
      by destruct (won_board_value fuel' b0 X Hwin) as [-> _].
  - (* O moves: keyed min over max_value *)
    change (λ a, b' ← result b a; max_value fuel b') with (max_key fuel b).
    assert (Htot : total_on (max_key fuel b) (actions b)).
    { intros a Ha. destruct (Hkeys a Ha) as (b' & Hres & _ & [v [Hv _]]).
      exists v. unfold max_key. by rewrite Hres. }
    destruct (py_min_best (max_key fuel b) acts) as (a & v & Hpick & Hbest);
      [done|intros x Hx; apply Htot; by rewrite <- Hperm|].
    apply (best_of_perm _ _ _ _ _ _ Hperm) in Hbest.
    destruct (fold_min (max_key fuel b) (actions b)) as (a2 & v2 & Hfold & Hbest2);
      [done..|].
    pose proof (min_of_unique _ _ _ _ _ _ Hbest Hbest2) as <-.
    destruct Hbest as (Ha & Hk & Hub).
    destruct (Hkeys a Ha) as (b' & Hres & _ & [w [Hw Hwb]]).
    assert (w = v) as ->.
    { unfold max_key in Hk. rewrite Hres, bind_Ret in Hk. congruence. }
    exists a, b', v. rewrite Hpick, bind_Ret.
    split; [done|]. split; [done|]. split; [done|]. split; [split; [done|split]|].
    + rewrite min_value_unfold, Hterm. done.
    + intros a' Ha'. destruct (Hkeys a' Ha') as (b'' & Hres' & _ & [w' [Hw' _]]).
      exists b'', w'. split; [done|]. split; [done|].
      apply (Hub a'); [done|]. unfold max_key. by rewrite Hres', bind_Ret.
    + intros (a0 & b0 & Ha0 & Hres0 & Hwin). cbn.
      assert (v ≤ -1); [|lia].
      apply (Hub a0); [done|]. unfold max_key. rewrite Hres0, bind_Ret.
      destruct fuel as [|fuel']; [lia|].
      by destruct (won_board_value fuel' b0 O Hwin) as [_ ->].
Qed.

(** A reachable board on which a move completes a line for the mover:
<<
      . O .
      . . O
      X X .
>> *)
Definition example_board : board :=
  [[EMPTY; Some O; EMPTY];
   [EMPTY; EMPTY; Some O];
   [Some X; Some X; EMPTY]].

Lemma example_board_reachable : reachable example_board.
Proof.
  pose (b1 := [[EMPTY; EMPTY; EMPTY]; [EMPTY; EMPTY; EMPTY];
               [Some X; EMPTY; EMPTY]] : board).
  pose (b2 := [[EMPTY; Some O; EMPTY]; [EMPTY; EMPTY; EMPTY];
               [Some X; EMPTY; EMPTY]] : board).
  pose (b3 := [[EMPTY; Some O; EMPTY]; [EMPTY; EMPTY; EMPTY];
               [Some X; Some X; EMPTY]] : board).
  assert (H1 : reachable b1).
  { apply (reachable_move initial_state (2, 0));
      [apply reachable_init | reflexivity | cbv; set_solver | reflexivity]. }
  assert (H2 : reachable b2).
  { apply (reachable_move b1 (0, 1));
      [exact H1 | reflexivity | cbv; set_solver | reflexivity]. }
  assert (H3 : reachable b3).
  { apply (reachable_move b2 (2, 1));
      [exact H2 | reflexivity | cbv; set_solver | reflexivity]. }
  apply (reachable_move b3 (1, 2));
    [exact H3 | reflexivity | cbv; set_solver | reflexivity].
Qed.

Lemma minimax_optimal_witness :
  ∃ a, minimax 9 example_board = Ret (Some a) ∧ a ∈ actions example_board.
Proof.
  destruct (minimax_optimal 9 example_board (actions example_board))
    as [_ H].
  destruct H as (a & b' & v & Hm & Ha & _);
    [apply example_board_reachable | lia | reflexivity | reflexivity |].
  exists a. split; [exact Hm | exact Ha].
Defined.

(** With the actions enumerated in insertion order, the action returned
    on [example_board] is the fork (0,0), whose value is +1, and not the
    move (2,2) that completes the bottom row at once. *)
Remark minimax_picks_a_fork :
  minimax 9 example_board = Ret (Some (0, 0)) ∧
  (b' ← result example_board (2, 2); Ret (winner b')) = Ret (Some X).
Proof. split; vm_compute; reflexivity. Qed.

(** Two reachable boards with the same empty cells, X to move on both.
    On the first X completes the middle column at (1,1), on the second
    the right column at (2,2); on both, (1,1) and (2,2) are the two moves
    of value +1.
<<
      . X O        . O X
      . . O        . . X
      . X .        . O .
>> *)
Definition fork_a : board :=
  [[EMPTY; Some X; Some O];
   [EMPTY; EMPTY; Some O];
   [EMPTY; Some X; EMPTY]].

Definition fork_b : board :=
  [[EMPTY; Some O; Some X];
   [EMPTY; EMPTY; Some X];
   [EMPTY; Some O; EMPTY]].

Lemma fork_a_reachable : reachable fork_a.
Proof.
  pose (b1 := [[EMPTY; Some X; EMPTY]; [EMPTY; EMPTY; EMPTY];
               [EMPTY; EMPTY; EMPTY]] : board).
  pose (b2 := [[EMPTY; Some X; Some O]; [EMPTY; EMPTY; EMPTY];
               [EMPTY; EMPTY; EMPTY]] : board).
  pose (b3 := [[EMPTY; Some X; Some O]; [EMPTY; EMPTY; EMPTY];
               [EMPTY; Some X; EMPTY]] : board).
  assert (H1 : reachable b1).
  { apply (reachable_move initial_state (0, 1));
      [apply reachable_init | reflexivity | cbv; set_solver | reflexivity]. }
  assert (H2 : reachable b2).
  { apply (reachable_move b1 (0, 2));
      [exact H1 | reflexivity | cbv; set_solver | reflexivity]. }
  assert (H3 : reachable b3).
  { apply (reachable_move b2 (2, 1));
      [exact H2 | reflexivity | cbv; set_solver | reflexivity]. }
  apply (reachable_move b3 (1, 2));
    [exact H3 | reflexivity | cbv; set_solver | reflexivity].
Qed.

Lemma fork_b_reachable : reachable fork_b.
Proof.
  pose (b1 := [[EMPTY; EMPTY; Some X]; [EMPTY; EMPTY; EMPTY];
               [EMPTY; EMPTY; EMPTY]] : board).
  pose (b2 := [[EMPTY; Some O; Some X]; [EMPTY; EMPTY; EMPTY];
               [EMPTY; EMPTY; EMPTY]] : board).
  pose (b3 := [[EMPTY; Some O; Some X]; [EMPTY; EMPTY; Some X];
               [EMPTY; EMPTY; EMPTY]] : board).
  assert (H1 : reachable b1).
  { apply (reachable_move initial_state (0, 2));
      [apply reachable_init | reflexivity | cbv; set_solver | reflexivity]. }
  assert (H2 : reachable b2).
  { apply (reachable_move b1 (0, 1));
      [exact H1 | reflexivity | cbv; set_solver | reflexivity]. }
  assert (H3 : reachable b3).
  { apply (reachable_move b2 (1, 2));
      [exact H2 | reflexivity | cbv; set_solver | reflexivity]. }
  apply (reachable_move b3 (2, 1));
    [exact H3 | reflexivity | cbv; set_solver | reflexivity].
Qed.

(** Whether [minimax], over the enumeration [acts], answers [a] on [b]. *)
Definition answers (b : board) (acts : list action) (a : action) : bool :=
  match minimax_on 9 b acts with
  | Ret (Some a') => bool_decide (a' = a)
  | _ => false
  end.

Lemma answers_true b acts a :
  answers b acts a = true → minimax_on 9 b acts = Ret (Some a).
Proof.
  unfold answers. destruct (minimax_on 9 b acts) as [[a'|]| |]; try done.
  by intros ->%bool_decide_eq_true.
Qed.

Lemma fork_orders :
  forallb (λ acts, answers fork_a acts (2, 2) || answers fork_b acts (1, 1))
          (permutations (actions fork_a)) = true.
Proof. vm_compute. reflexivity. Qed.

(** C1 fails on the code where it says that [minimax] returns the move
    that wins at once.  [fork_a] and [fork_b] are reachable, not terminal
    and have the same set of actions; on each one action completes a line
    for the mover.  Yet in whatever order that set is enumerated,
    [minimax] answers (2,2) on [fork_a] or (1,1) on [fork_b], and neither
    completes a line there: [max] keeps the first action of greatest
    value, and a fork has the same value +1 as the immediate win. *)
Lemma minimax_misses_immediate_win :
  reachable fork_a ∧ reachable fork_b ∧
  terminal fork_a = false ∧ terminal fork_b = false ∧
  actions fork_b = actions fork_a ∧
  (b' ← result fork_a (1, 1); Ret (winner b')) = Ret (Some (player fork_a)) ∧
  (b' ← result fork_b (2, 2); Ret (winner b')) = Ret (Some (player fork_b)) ∧
  ∀ acts, acts ≡ₚ actions fork_a →
    (minimax_on 9 fork_a acts = Ret (Some (2, 2)) ∧
     (b' ← result fork_a (2, 2); Ret (winner b')) = Ret None) ∨
    (minimax_on 9 fork_b acts = Ret (Some (1, 1)) ∧
     (b' ← result fork_b (1, 1); Ret (winner b')) = Ret None).
Proof.
  split; [apply fork_a_reachable|]. split; [apply fork_b_reachable|].
  do 5 (split; [reflexivity|]).
  intros acts Hperm. symmetry in Hperm.
  apply permutations_Permutation, list_elem_of_In in Hperm.
  pose proof fork_orders as Hall. rewrite forallb_forall in Hall.
  apply Hall, orb_true_iff in Hperm as [Ha|Hb].
  - left. split; [by apply answers_true|reflexivity].
  - right. split; [by apply answers_true|reflexivity].
Qed.

(** ** Further properties of the game state model *)

(** The nine coordinates of the grid. *)
Definition coords : list action :=
  i ← [0; 1; 2]; j ← [0; 1; 2]; [(i, j)].

Lemma elem_of_coords i j : (i, j) ∈ coords ↔ 0 ≤ i < 3 ∧ 0 ≤ j < 3.
Proof.
  split.
  - intros H. unfold coords in H. cbn in H.
    repeat (apply elem_of_cons in H as [[= -> ->]|H]; [lia|]).
    by apply elem_of_nil in H.
  - intros [Hi Hj].
    assert (i = 0 ∨ i = 1 ∨ i = 2) as [-> | [-> | ->]] by lia;
    assert (j = 0 ∨ j = 1 ∨ j = 2) as [-> | [-> | ->]] by lia;
    apply (bool_decide_unpack _); vm_compute; exact I.
Qed.

Definition actions_chk (b : board) : bool :=
  bool_decide (NoDup (actions b)) &&
  forallb (λ a, bool_decide (a ∈ coords)) (actions b) &&
  forallb (λ a, eqb (bool_decide (a ∈ actions b))
                    (bool_decide (cell_at b (Z.to_nat a.1, Z.to_nat a.2) = EMPTY)))
          coords.

Lemma actions_chk_all : forallb actions_chk all_boards = true.
Proof. vm_compute. reflexivity. Qed.

Lemma actions_facts b :
  is3x3 b →
  NoDup (actions b) ∧
  (∀ a, a ∈ actions b → a ∈ coords) ∧
  (∀ a, a ∈ coords →
     (a ∈ actions b ↔ cell_at b (Z.to_nat a.1, Z.to_nat a.2) = EMPTY)).
Proof.
  intros Hb. pose proof (by_enumeration _ actions_chk_all b Hb) as Hchk.
  unfold actions_chk in Hchk.
  apply andb_true_iff in Hchk as [[H1 H2]%andb_true_iff H3].
  apply bool_decide_eq_true in H1.
  rewrite forallb_forall in H2. rewrite forallb_forall in H3.
  split; [done|]. split.
  - intros a Ha. apply list_elem_of_In in Ha.
    eapply bool_decide_eq_true, H2, Ha.
  - intros a Ha. apply list_elem_of_In in Ha. specialize (H3 a Ha).
    apply eqb_prop in H3. split; intros H.
    + apply (bool_decide_eq_true_1 _). rewrite <- H3.
      by apply bool_decide_eq_true_2.
    + apply (bool_decide_eq_true_1 _). rewrite H3.
      by apply bool_decide_eq_true_2.
Qed.

(** [result] returns a board exactly for an empty cell of the grid. *)
Lemma result_Ret_iff b i j :
  is3x3 b →
  (∃ b', result b (i, j) = Ret b') ↔
  0 ≤ i < 3 ∧ 0 ≤ j < 3 ∧ cell_at b (Z.to_nat i, Z.to_nat j) = EMPTY.
Proof.
  intros [Hlen Hrows]. unfold result, cell_at; cbn [fst snd].
  assert (Hrow : ∀ row, b !! Z.to_nat i = Some row → length row = 3%nat).
  { intros row Hrow. rewrite Forall_forall in Hrows.
    apply Hrows. eapply list_elem_of_lookup_2, Hrow. }
  split.
  - intros [b' Hres]. case_decide as Hneg; [done|].
    destruct (b !! Z.to_nat i) as [row|] eqn:Hb; [|done].
    specialize (Hrow row eq_refl).
    destruct (row !! Z.to_nat j) as [c|] eqn:Hc; [|done].
    case_decide as Hocc; [done|].
    rewrite (list_lookup_total_correct _ _ _ Hb).
    rewrite (list_lookup_total_correct _ _ _ Hc).
    apply lookup_lt_Some in Hb, Hc.
    split; [lia|]. split; [lia|]. exact Hocc.
  - intros (Hi & Hj & Hfree). rewrite decide_False by lia.
    destruct (lookup_lt_is_Some_2 b (Z.to_nat i)) as [row Hb]; [lia|].
    rewrite Hb. specialize (Hrow row Hb).
    destruct (lookup_lt_is_Some_2 row (Z.to_nat j)) as [c Hc]; [lia|].
    rewrite Hc.
    rewrite (list_lookup_total_correct _ _ _ Hb) in Hfree.
    rewrite (list_lookup_total_correct _ _ _ Hc) in Hfree.
    destruct (decide (c ≠ EMPTY)); [done|eauto].
Qed.

(** X1. On a 3x3 board [actions] lists, without repetition, exactly the
    coordinates of the grid whose cell is [EMPTY], and these are exactly
    the actions on which [result] returns a board instead of raising. *)
Theorem actions_are_the_legal_moves (b : board) (i j : Z) :
  is3x3 b →
  NoDup (actions b) ∧
  ((i, j) ∈ actions b ↔
     0 ≤ i < 3 ∧ 0 ≤ j < 3 ∧ cell_at b (Z.to_nat i, Z.to_nat j) = EMPTY) ∧
  ((∃ b', result b (i, j) = Ret b') ↔ (i, j) ∈ actions b).
Proof.
  intros Hb. destruct (actions_facts b Hb) as (Hnd & Hin & Hiff).
  assert (Hact : (i, j) ∈ actions b ↔
     0 ≤ i < 3 ∧ 0 ≤ j < 3 ∧ cell_at b (Z.to_nat i, Z.to_nat j) = EMPTY).
  { split.
    - intros Ha. pose proof (Hin _ Ha) as Hc.
      apply elem_of_coords in Hc as [Hi Hj].
      split; [done|]. split; [done|].
      apply (Hiff (i, j)); [by apply elem_of_coords|done].
    - intros (Hi & Hj & Hfree). by apply (Hiff (i, j)); [apply elem_of_coords|]. }
  split; [done|]. split; [done|].
  rewrite Hact. by apply result_Ret_iff.
Qed.

Lemma actions_are_the_legal_moves_witness :
  (0, 0) ∈ actions initial_state ↔
  0 ≤ 0 < 3 ∧ 0 ≤ 0 < 3 ∧
  cell_at initial_state (Z.to_nat 0, Z.to_nat 0) = EMPTY.
Proof.
  exact (proj1 (proj2 (actions_are_the_legal_moves initial_state 0 0
                         is3x3_initial))).
Defined.

(** X2. A successful [result] yields a 3x3 board that holds the mover's
    mark at the target cell and agrees with the input board everywhere
    else. *)
Theorem result_places_one_mark (b b' : board) (i j : Z) :
  is3x3 b → result b (i, j) = Ret b' →
  is3x3 b' ∧
  cell_at b' (Z.to_nat i, Z.to_nat j) = Some (player b) ∧
  ∀ p, p ≠ (Z.to_nat i, Z.to_nat j) → cell_at b' p = cell_at b p.
Proof.
  intros [Hlen Hrows] Hres. unfold result in Hres.
  case_decide as Hneg; [done|].
  destruct (b !! Z.to_nat i) as [row|] eqn:Hb; [|done].
  destruct (row !! Z.to_nat j) as [c|] eqn:Hc; [|done].
  case_decide as Hocc; [done|]. injection Hres as <-.
  pose proof (lookup_lt_Some _ _ _ Hb) as Hi.
  pose proof (lookup_lt_Some _ _ _ Hc) as Hj.
  split; [|split].
  - split; [by rewrite length_insert|].
    apply Forall_insert; [done|]. rewrite length_insert.
    rewrite Forall_forall in Hrows. apply Hrows.
    eapply list_elem_of_lookup_2, Hb.
  - unfold cell_at. cbn [fst snd].
    rewrite list_lookup_total_insert_eq by done.
    by rewrite list_lookup_total_insert_eq.
  - intros [p1 p2] Hp. unfold cell_at. cbn [fst snd].
    destruct (decide (p1 = Z.to_nat i)) as [->|Hp1].
    + rewrite list_lookup_total_insert_eq by done.
      rewrite list_lookup_total_insert_ne by congruence.
      by rewrite (list_lookup_total_correct _ _ _ Hb).
    + by rewrite list_lookup_total_insert_ne.
Qed.

Lemma result_places_one_mark_witness :
  cell_at [[Some X; EMPTY; EMPTY]; [EMPTY; EMPTY; EMPTY]; [EMPTY; EMPTY; EMPTY]]
          (Z.to_nat 0, Z.to_nat 0) = Some (player initial_state).
Proof.
  apply (result_places_one_mark initial_state _ 0 0 is3x3_initial).
  reflexivity.
Defined.

(** *** Whose turn it is *)

(** [count_X] and [count_O] of [player]. *)
Definition marks (m : mark) (b : board) : nat :=
  foldl (λ n row, (n + count (Some m) row)%nat) 0%nat b.

Lemma player_marks b :
  player b = if decide (marks O b < marks X b)%nat then O else X.
Proof. reflexivity. Qed.

(** What play from the empty board keeps true: X is level with O or one
    ahead; X holds a line only when one ahead, O only when level. *)
Definition fair (b : board) : Prop :=
  (marks X b = marks O b ∨ marks X b = S (marks O b)) ∧
  (has_line b X → marks X b = S (marks O b)) ∧
  (has_line b O → marks X b = marks O b).

Definition fair_chk (b : board) : bool :=
  implb (bool_decide (fair b))
    (forallb (λ a,
       match result b a with
       | Ret b' => bool_decide (player b' ≠ player b) &&
                   implb (negb (terminal b)) (bool_decide (fair b'))
       | _ => false
       end) (actions b)).

Lemma fair_chk_all : forallb fair_chk all_boards = true.
Proof. vm_compute. reflexivity. Qed.

Lemma fair_move b a b' :
  is3x3 b → fair b → a ∈ actions b → result b a = Ret b' →
  player b' ≠ player b ∧ (terminal b = false → fair b').
Proof.
  intros Hb Hfair Ha Hres.
  pose proof (by_enumeration _ fair_chk_all b Hb) as Hchk.
  unfold fair_chk in Hchk. rewrite (bool_decide_eq_true_2 _ Hfair) in Hchk.
  cbn [implb] in Hchk. rewrite forallb_forall in Hchk.
  specialize (Hchk a (proj1 (list_elem_of_In _ _) Ha)). rewrite Hres in Hchk.
  apply andb_true_iff in Hchk as [H1 H2].
  apply bool_decide_eq_true in H1. split; [done|].
  intros Hterm. rewrite Hterm in H2. by apply bool_decide_eq_true in H2.
Qed.

Lemma reachable_fair b : reachable b → fair b.
Proof.
  induction 1 as [|b a b' Hreach IH Hterm Ha Hres].
  - apply (bool_decide_unpack _). vm_compute. exact I.
  - by apply (fair_move b a b' (reachable_is3x3 b Hreach) IH Ha Hres).
Qed.

Lemma alternate b a b' :
  reachable b → a ∈ actions b → result b a = Ret b' → player b' ≠ player b.
Proof.
  intros Hreach Ha Hres.
  by apply (fair_move b a b' (reachable_is3x3 b Hreach) (reachable_fair b Hreach)).
Qed.

(** X3. On every board reached in play, a full or a won one included,
    the marks are balanced (X level with O or one ahead) and [player]
    answers X exactly when they are level; and every legal move hands the
    turn to the other player. *)
Theorem players_alternate (b : board) :
  reachable b →
  (marks X b = marks O b ∨ marks X b = S (marks O b)) ∧
  (player b = X ↔ marks X b = marks O b) ∧
  (∀ a b', a ∈ actions b → result b a = Ret b' → player b' ≠ player b).
Proof.
  intros Hreach.
  destruct (reachable_fair b Hreach) as (Hbal & _).
  split; [done|]. split; [|intros a b'; by apply alternate].
  rewrite player_marks. case_decide; split; intros; try done; lia.
Qed.

Lemma players_alternate_witness :
  (marks X example_board = marks O example_board ∨
   marks X example_board = S (marks O example_board)) ∧
  (player example_board = X ↔ marks X example_board = marks O example_board) ∧
  (∀ a b', a ∈ actions example_board → result example_board a = Ret b' →
           player b' ≠ player example_board).
Proof.
  exact (players_alternate example_board example_board_reachable).
Defined.

(** X4. On a board reached in play at most one player holds a line;
    [winner] answers a mark exactly when that mark holds a line, and
    [utility] is +1 exactly when X holds a line and -1 exactly when O
    does. *)
Theorem reachable_one_winner (b : board) :
  reachable b →
  ¬ (has_line b X ∧ has_line b O) ∧
  (∀ m, winner b = Some m ↔ has_line b m) ∧
  (utility b = 1 ↔ has_line b X) ∧
  (utility b = -1 ↔ has_line b O).
Proof.
  intros Hreach. pose proof (reachable_is3x3 b Hreach) as Hb.
  destruct (reachable_fair b Hreach) as (_ & HX & HO).
  assert (Hone : ¬ (has_line b X ∧ has_line b O)).
  { intros [H1 H2]. specialize (HX H1). specialize (HO H2). lia. }
  pose proof (by_enumeration _ winner_chk_all b Hb) as Hchk.
  unfold winner_chk in Hchk.
  assert (Hw : ∀ m, winner b = Some m ↔ has_line b m).
  { intros m. destruct (winner b) as [m'|] eqn:Hwin.
    - apply bool_decide_eq_true in Hchk. split; [by intros [= <-]|].
      intros Hm. destruct m, m'; try done; exfalso; apply Hone; done.
    - apply andb_true_iff in Hchk as [H1 H2].
      apply bool_decide_eq_true in H1, H2.
      split; [done|]. by destruct m. }
  split; [done|]. split; [done|].
  unfold utility. rewrite <- !Hw.
  destruct (winner b) as [[|]|]; repeat case_decide; split; intros; done.
Qed.

Lemma reachable_one_winner_witness :
  ¬ (has_line initial_state X ∧ has_line initial_state O).
Proof.
  exact (proj1 (reachable_one_winner initial_state reachable_init)).
Defined.

(** *** The order in which [winner] looks at the lines *)

(** The mark that fills the line [l], if one does. *)
Definition line_owner (b : board) (l : list (nat * nat)) : option mark :=
  match cell_at b <$> l with
  | Some m :: rest => if decide (Forall (λ c, c = Some m) rest) then Some m else None
  | _ => None
  end.

Definition priority_chk (b : board) : bool :=
  bool_decide (winner b = head (omap (line_owner b) lines)).

Lemma priority_chk_all : forallb priority_chk all_boards = true.
Proof. vm_compute. reflexivity. Qed.

Lemma line_owner_Some b l m :
  l ∈ lines →
  line_owner b l = Some m ↔ Forall (λ p, cell_at b p = Some m) l.
Proof.
  intros Hl. unfold line_owner.
  assert (Hshape : ∃ p q r, l = [p; q; r]).
  { unfold lines in Hl.
    repeat (apply elem_of_cons in Hl as [->|Hl]; [eauto|]).
    by apply elem_of_nil in Hl. }
  destruct Hshape as (p & q & r & ->).
  rewrite !Forall_cons, Forall_nil. cbn [fmap list_fmap].
  generalize (cell_at b p) (cell_at b q) (cell_at b r).
  intros [mp|] cq cr; [|naive_solver].
  case_decide as Hrest; rewrite !Forall_cons, Forall_nil in Hrest;
    naive_solver.
Qed.

(** X5. On every 3x3 board, also one on which several lines are filled,
    [winner] answers the mark of the first filled line in the order rows
    from the top, columns from the left, main diagonal, anti-diagonal,
    and [None] when no line is filled by one mark. *)
Theorem winner_first_line (b : board) (l : list (nat * nat)) (m : mark) :
  is3x3 b →
  winner b = head (omap (line_owner b) lines) ∧
  (l ∈ lines →
   line_owner b l = Some m ↔ Forall (λ p, cell_at b p = Some m) l).
Proof.
  intros Hb. split; [|apply line_owner_Some].
  pose proof (by_enumeration _ priority_chk_all b Hb) as Hchk.
  by apply bool_decide_eq_true in Hchk.
Qed.

Lemma winner_first_line_witness :
  winner [[Some O; Some O; Some O]; [Some X; Some X; Some X];
          [EMPTY; EMPTY; EMPTY]] =
  head (omap (line_owner [[Some O; Some O; Some O]; [Some X; Some X; Some X];
                          [EMPTY; EMPTY; EMPTY]]) lines).
Proof.
  refine (proj1 (winner_first_line _ [] X _)).
  apply is3x3b_true. reflexivity.
Defined.

(** *** Moves and the set of actions *)





(** ** Further properties of the search *)

(** X7. With fuel for more than the nine plies, [min_value] and
    [max_value] return an integer on every 3x3 board, the integer is -1, 0
    or 1, and it is the same for every such amount of fuel. *)
Theorem evaluators_total (fuel fuel' : nat) (b : board) :
  is3x3 b → (9 < fuel)%nat → (9 < fuel')%nat →
  ∃ v w,
    min_value fuel b = Ret (Int v) ∧ min_value fuel' b = Ret (Int v) ∧
    max_value fuel b = Ret (Int w) ∧ max_value fuel' b = Ret (Int w) ∧
    (v = -1 ∨ v = 0 ∨ v = 1) ∧ (w = -1 ∨ w = 0 ∨ w = 1).
Proof.
  intros Hb H1 H2. pose proof (actions_le_9 b Hb) as Hle.
  destruct (values_total fuel b Hb) as [(v & Hv & Hvb) (w & Hw & Hwb)]; [lia|].
  destruct (values_fuel_irrelevant fuel fuel' b Hb) as [Hmin Hmax]; [lia|lia|].
  exists v, w. rewrite <- Hmin, <- Hmax. repeat split; try done; lia.
Qed.

Lemma evaluators_total_witness :
  ∃ v w,
    min_value 10 initial_state = Ret (Int v) ∧
    min_value 11 initial_state = Ret (Int v) ∧
    max_value 10 initial_state = Ret (Int w) ∧
    max_value 11 initial_state = Ret (Int w) ∧
    (v = -1 ∨ v = 0 ∨ v = 1) ∧ (w = -1 ∨ w = 0 ∨ w = 1).
Proof.
  apply (evaluators_total 10 11 initial_state is3x3_initial); lia.
Defined.





(** A game in which the player [me] follows [minimax] (over any
    enumeration of the actions) and the opponent plays any legal move,
    from the board [b] to the terminal board [bf]. *)
Inductive guided (fuel : nat) (me : mark) : board → board → Prop :=
  | guided_end b :
      terminal b = true → guided fuel me b b
  | guided_own b acts a b' bf :
      terminal b = false → player b = me → acts ≡ₚ actions b →
      minimax_on fuel b acts = Ret (Some a) → result b a = Ret b' →
      guided fuel me b' bf → guided fuel me b bf
  | guided_other b a b' bf :
      terminal b = false → player b ≠ me → a ∈ actions b →
      result b a = Ret b' →
      guided fuel me b' bf → guided fuel me b bf.







(** A game from [example_board]: X follows [minimax], O blocks twice. *)
Lemma example_game :
  guided 9 X example_board
    [[Some X; Some O; Some X]; [Some O; Some X; Some O];
     [Some X; Some X; Some O]].
Proof.
  apply (guided_own 9 X example_board (actions example_board) (0, 0)
           [[Some X; Some O; EMPTY]; [EMPTY; EMPTY; Some O];
            [Some X; Some X; EMPTY]]);
    [reflexivity | reflexivity | reflexivity | vm_compute; reflexivity
    | reflexivity |].
  apply (guided_other 9 X _ (2, 2)
           [[Some X; Some O; EMPTY]; [EMPTY; EMPTY; Some O];
            [Some X; Some X; Some O]]);
    [reflexivity | discriminate
    | apply (bool_decide_unpack _); vm_compute; exact I | reflexivity |].
  apply (guided_own 9 X _ (actions [[Some X; Some O; EMPTY]; [EMPTY; EMPTY; Some O];
                                    [Some X; Some X; Some O]]) (0, 2)
           [[Some X; Some O; Some X]; [EMPTY; EMPTY; Some O];
            [Some X; Some X; Some O]]);
    [reflexivity | reflexivity | reflexivity | vm_compute; reflexivity
    | reflexivity |].
  apply (guided_other 9 X _ (1, 0)
           [[Some X; Some O; Some X]; [Some O; EMPTY; Some O];
            [Some X; Some X; Some O]]);
    [reflexivity | discriminate
    | apply (bool_decide_unpack _); vm_compute; exact I | reflexivity |].
  apply (guided_own 9 X _ (actions [[Some X; Some O; Some X]; [Some O; EMPTY; Some O];
                                    [Some X; Some X; Some O]]) (1, 1)
           [[Some X; Some O; Some X]; [Some O; Some X; Some O];
            [Some X; Some X; Some O]]);
    [reflexivity | reflexivity | reflexivity | vm_compute; reflexivity
    | reflexivity |].
  apply guided_end. reflexivity.
Qed.


End TicTacToe.

(* ===================================================================== *)
(** * Minesweeper                                                        *)
(* ===================================================================== *)

Abbreviation Cell := (Z * Z)%type.

(** ** [class Sentence] *)

Module Sentence.

Record t := Sentence { cells : gset Cell; count : Z }.

(** [__eq__]: equal cell sets and equal counts. *)
#[global] Instance eq_dec : EqDecision t.
Proof. solve_decision. Defined.

Definition known_mines (self : t) : gset Cell :=
  if decide (Z.of_nat (size (cells self)) = count self) then cells self
  else ∅.

Definition known_safes (self : t) : gset Cell :=
  if decide (count self = 0) then cells self else ∅.

Definition mark_mine (cell : Cell) (self : t) : t :=
  if decide (cell ∈ cells self)
  then Sentence (cells self ∖ {[cell]}) (count self - 1)
  else self.

Definition mark_safe (cell : Cell) (self : t) : t :=
  if decide (cell ∈ cells self)
  then Sentence (cells self ∖ {[cell]}) (count self)
  else self.

(** *** Properties of a single sentence *)

Lemma size_pair (a b : Cell) : a ≠ b → size ({[a; b]} : gset Cell) = 2%nat.
Proof.
  intros Hab. rewrite size_union, !size_singleton; [done|set_solver].
Qed.

(** C7. [known_mines] answers the cell set when its size equals the count
    and the empty set otherwise; [known_safes] answers the cell set when
    the count is zero and the empty set otherwise.  For distinct cells
    [a], [b]: [Sentence({a,b}, 2).known_mines() = {a,b}],
    [Sentence({a,b}, 0).known_safes() = {a,b}], and
    [Sentence({a,b,c}, 1)] yields the empty set from both. *)
Theorem known_cells (s : t) (a b c : Cell) :
  a ≠ b →
  (Z.of_nat (size (cells s)) = count s → known_mines s = cells s) ∧
  (Z.of_nat (size (cells s)) ≠ count s → known_mines s = ∅) ∧
  (count s = 0 → known_safes s = cells s) ∧
  (count s ≠ 0 → known_safes s = ∅) ∧
  known_mines (Sentence {[a; b]} 2) = {[a; b]} ∧
  known_safes (Sentence {[a; b]} 0) = {[a; b]} ∧
  known_mines (Sentence {[a; b; c]} 1) = ∅ ∧
  known_safes (Sentence {[a; b; c]} 1) = ∅.
Proof.
  intros Hab. unfold known_mines, known_safes.
  repeat split; try (intros; case_decide; done).
  - cbn. rewrite size_pair by done. done.
  - cbn. case_decide as Hsz; [|done]. exfalso.
    assert (Hle : (size ({[a; b]} : gset Cell) ≤ size ({[a; b; c]} : gset Cell))%nat)
      by (apply subseteq_size; set_solver).
    rewrite size_pair in Hle by done. lia.
Qed.

Lemma known_cells_witness :
  known_mines (Sentence {[(0, 0); (0, 1)]} 2) = {[(0, 0); (0, 1)]}.
Proof.
  apply (known_cells (Sentence ∅ 0) (0, 0) (0, 1) (0, 2)). discriminate.
Defined.

Lemma mark_safe_cells c s : cells (mark_safe c s) = cells s ∖ {[c]}.
Proof. unfold mark_safe. case_decide; cbn; set_solver. Qed.

Lemma mark_safe_count c s : count (mark_safe c s) = count s.
Proof. unfold mark_safe. case_decide; done. Qed.

Lemma mark_mine_cells c s : cells (mark_mine c s) = cells s ∖ {[c]}.
Proof. unfold mark_mine. case_decide; cbn; set_solver. Qed.

Lemma mark_mine_count_in c s :
  c ∈ cells s → count (mark_mine c s) = count s - 1.
Proof. unfold mark_mine. case_decide; done. Qed.

Lemma mark_mine_count_out c s :
  c ∉ cells s → count (mark_mine c s) = count s.
Proof. unfold mark_mine. case_decide; done. Qed.

Lemma mark_safe_out c s : c ∉ cells s → mark_safe c s = s.
Proof. unfold mark_safe. case_decide; done. Qed.

Lemma mark_mine_out c s : c ∉ cells s → mark_mine c s = s.
Proof. unfold mark_mine. case_decide; done. Qed.

Lemma sentence_cells_inj X n Y m : Sentence X n = Sentence Y m → X = Y.
Proof. intros H. exact (f_equal cells H). Qed.

Lemma sentence_eq s1 s2 :
  cells s1 = cells s2 → count s1 = count s2 → s1 = s2.
Proof. destruct s1, s2; cbn; congruence. Qed.

End Sentence.

(** ** [class MinesweeperAI] *)

Module MinesweeperAI.

Import Sentence.

Abbreviation sentence := Sentence.t.

Record t := AI {
  height : Z;
  width : Z;
  moves_made : gset Cell;
  mines : gset Cell;
  safes : gset Cell;
  knowledge : list sentence
}.

(** [__init__] *)
Definition init (height width : Z) : t :=
  AI height width ∅ ∅ ∅ [].

Definition set_knowledge (k : list sentence) (self : t) : t :=
  AI (height self) (width self) (moves_made self) (mines self) (safes self) k.

(** [for sentence in self.knowledge: sentence.mark_mine(cell)] mutates
    every entry of the list in place. *)
Definition mark_mine (cell : Cell) (self : t) : t :=
  AI (height self) (width self) (moves_made self)
     ({[cell]} ∪ mines self) (safes self)
     (Sentence.mark_mine cell <$> knowledge self).

Definition mark_safe (cell : Cell) (self : t) : t :=
  AI (height self) (width self) (moves_made self)
     (mines self) ({[cell]} ∪ safes self)
     (Sentence.mark_safe cell <$> knowledge self).

(** *** The helpers nested in [add_knowledge] *)

Definition get_neighbors (self : t) (cell : Cell) : gset Cell :=
  list_to_set
    (i ← [cell.1 - 1; cell.1; cell.1 + 1];
     j ← [cell.2 - 1; cell.2; cell.2 + 1];
     if decide ((i, j) = cell) then []
     else if decide ((0 ≤ i < height self) ∧ (0 ≤ j < width self))
          then [(i, j)] else []).

#[global] Typeclasses Opaque get_neighbors.

(** [make_conclusion(sentence)] for the sentence object stored at index
    [k].  The loops run over [sentence.cells.copy()], a snapshot of the
    cells at the time the branch is taken. *)
Definition make_conclusion (self : t) (k : nat) : t :=
  match knowledge self !! k with
  | None => self
  | Some sentence =>
    if decide (count sentence = 0) then
      foldl (λ st cell, mark_safe cell st) self (elements (cells sentence))
    else if decide (Z.of_nat (size (cells sentence)) = count sentence) then
      foldl (λ st cell, mark_mine cell st) self (elements (cells sentence))
    else self
  end.

(** [make_inference(set1, set2)] for the objects at indices [i] and [j];
    [set1 is set2] is equality of the indices. *)
Definition make_inference (known : list sentence)
    (i j : nat) (set1 set2 : sentence) : option sentence :=
  if decide (i = j) then None
  else
    let '(set1, set2) :=
      if decide (size (cells set2) < size (cells set1))%nat
      then (set2, set1) else (set1, set2) in
    if decide (cells set1 ⊆ cells set2) then
      let new_cells := cells set2 ∖ cells set1 in
      let new_count := count set2 - count set1 in
      let new_sentence := Sentence new_cells new_count in
      if decide (new_sentence ∉ known) then Some new_sentence else None
    else None.

(** A list paired with the positions of its entries. *)
Definition enumerate (l : list sentence) : list (nat * sentence) :=
  imap pair l.

(** The two nested loops of step 3 over indexed entries. *)
Definition infer_pairs (known : list sentence)
    (xs ys : list (nat * sentence)) : list sentence :=
  p ← xs; q ← ys; option_list (make_inference known p.1 q.1 p.2 q.2).

(** *** One pass of the [while True] loop *)

(** Step 1: [for sentence in self.knowledge: make_conclusion(sentence)]. *)
Definition conclude_all (self : t) : t :=
  foldl make_conclusion self (seq 0 (length (knowledge self))).

(** Step 2: [self.knowledge = [s for s in self.knowledge if len(s.cells)]]. *)
Definition live (s : sentence) : Prop := size (cells s) ≠ 0%nat.

Definition remove_empty (self : t) : t :=
  set_knowledge (filter live (knowledge self)) self.

(** Step 3: collect [new_sentences], then [self.knowledge.extend(...)]. *)
Definition new_sentences (k : list sentence) : list sentence :=
  infer_pairs k (enumerate k) (enumerate k).

Definition infer_all (self : t) : t :=
  set_knowledge (knowledge self ++ new_sentences (knowledge self)) self.

Definition pass (self : t) : t :=
  infer_all (remove_empty (conclude_all self)).

(** Step 4, the exit test of the loop. *)
Definition unchanged (prev self : t) : Prop :=
  size (mines self) = size (mines prev) ∧
  size (safes self) = size (safes prev) ∧
  length (knowledge self) = length (knowledge prev).

(** The [while True] loop; [None] when [fuel] passes were not enough. *)
Fixpoint fixpoint_loop (fuel : nat) (self : t) : option t :=
  match fuel with
  | O => None
  | S fuel' =>
    let self' := pass self in
    if decide (unchanged self self') then Some self'
    else fixpoint_loop fuel' self'
  end.

Definition add_knowledge (fuel : nat) (self : t) (cell : Cell) (count : Z)
    : option t :=
  (* 1) mark the cell as a move that has been made *)
  let self := AI (height self) (width self) ({[cell]} ∪ moves_made self)
                 (mines self) (safes self) (knowledge self) in
  (* 2) mark the cell as safe *)
  let self := mark_safe cell self in
  (* 3) add a new sentence *)
  let neighbors := get_neighbors self cell in
  let neighbors_known_to_be_mines := neighbors ∩ mines self in
  let neighbors_known_to_be_safes := neighbors ∩ safes self in
  let neighbors_known :=
    neighbors_known_to_be_mines ∪ neighbors_known_to_be_safes in
  let neighbors_not_known := neighbors ∖ neighbors_known in
  if decide (size neighbors_not_known = 0%nat) then Some self
  else
    let neighbors_mines_count :=
      count - Z.of_nat (size neighbors_known_to_be_mines) in
    let new_sentence := Sentence neighbors_not_known neighbors_mines_count in
    if decide (new_sentence ∈ knowledge self) then Some self
    else
      fixpoint_loop fuel
        (set_knowledge (knowledge self ++ [new_sentence]) self).

(** [random.choice(seq)] with the drawn index [rnd] made explicit. *)
Definition choice (rnd : nat) (l : list Cell) : option Cell :=
  l !! (rnd `mod` length l)%nat.

(** [make_safe_move] as a state transformer: the answer ([None] is the
    no-move sentinel) and the state it leaves behind. *)
Definition make_safe_move (rnd : nat) (self : t) : option Cell * t :=
  let safe_moves := safes self ∖ moves_made self in
  (if decide (size safe_moves ≠ 0%nat) then choice rnd (elements safe_moves)
   else None, self).

(** ** Basic facts *)

Lemma elem_of_enumerate (k : list sentence) i s :
  (i, s) ∈ enumerate k ↔ k !! i = Some s.
Proof.
  unfold enumerate. rewrite elem_of_lookup_imap. split.
  - intros (j & y & [= -> ->] & Hy). done.
  - intros Hy. eauto.
Qed.

Lemma make_inference_Some known i j s1 s2 d :
  make_inference known i j s1 s2 = Some d →
  i ≠ j ∧ (d ∉ known) ∧
  ∃ t1 t2, (t1 = s1 ∧ t2 = s2 ∨ t1 = s2 ∧ t2 = s1) ∧
           cells t1 ⊆ cells t2 ∧
           d = Sentence (cells t2 ∖ cells t1) (count t2 - count t1).
Proof.
  unfold make_inference. case_decide as Hij; [done|].
  destruct (decide (size (cells s2) < size (cells s1))%nat).
  - case_decide as Hsub; [|done]. case_decide as Hnew; [|done].
    intros [= <-]. split; [done|]. split; [done|].
    exists s2, s1. split; [by right|]. done.
  - case_decide as Hsub; [|done]. case_decide as Hnew; [|done].
    intros [= <-]. split; [done|]. split; [done|].
    exists s1, s2. split; [by left|]. done.
Qed.

(** A pair whose first cell set is inside the second yields the difference
    sentence, unless that sentence is already known. *)
Lemma make_inference_subset known i j s1 s2 :
  i ≠ j → cells s1 ⊆ cells s2 →
  let d := Sentence (cells s2 ∖ cells s1) (count s2 - count s1) in
  make_inference known i j s1 s2 = if decide (d ∉ known) then Some d else None.
Proof.
  intros Hij Hsub d. unfold make_inference. case_decide; [done|].
  destruct (decide (size (cells s2) < size (cells s1))%nat) as [Hlt|_].
  - apply subseteq_size in Hsub. lia.
  - case_decide; done.
Qed.

Lemma elem_of_infer_pairs known xs ys d :
  d ∈ infer_pairs known xs ys ↔
  ∃ p q, p ∈ xs ∧ q ∈ ys ∧ make_inference known p.1 q.1 p.2 q.2 = Some d.
Proof.
  unfold infer_pairs. rewrite list_elem_of_bind. split.
  - intros (p & Hd & Hp). apply list_elem_of_bind in Hd as (q & Hd & Hq).
    exists p, q. split; [done|]. split; [done|].
    destruct (make_inference known p.1 q.1 p.2 q.2); cbn in Hd;
      [by apply list_elem_of_singleton in Hd as ->|by apply elem_of_nil in Hd].
  - intros (p & q & Hp & Hq & Hd). exists p. split; [|done].
    apply list_elem_of_bind. exists q. split; [|done].
    rewrite Hd. cbn. by apply list_elem_of_singleton.
Qed.

Lemma elem_of_new_sentences k d :
  d ∈ new_sentences k ↔
  ∃ i j s1 s2, k !! i = Some s1 ∧ k !! j = Some s2 ∧
               make_inference k i j s1 s2 = Some d.
Proof.
  unfold new_sentences. rewrite elem_of_infer_pairs. split.
  - intros ([i s1] & [j s2] & Hp & Hq & Hd).
    apply elem_of_enumerate in Hp, Hq. exists i, j, s1, s2. done.
  - intros (i & j & s1 & s2 & Hp & Hq & Hd).
    exists (i, s1), (j, s2). by rewrite !elem_of_enumerate.
Qed.

(** Every new sentence is the difference of two known ones. *)
Lemma new_sentences_inv k d :
  d ∈ new_sentences k →
  (d ∉ k) ∧
  ∃ t1 t2, t1 ∈ k ∧ t2 ∈ k ∧ cells t1 ⊆ cells t2 ∧
           d = Sentence (cells t2 ∖ cells t1) (count t2 - count t1).
Proof.
  intros (i & j & s1 & s2 & H1 & H2 & Hd)%elem_of_new_sentences.
  apply make_inference_Some in Hd as (_ & Hnew & t1 & t2 & Hor & Hsub & ->).
  split; [done|]. exists t1, t2.
  apply list_elem_of_lookup_2 in H1, H2.
  destruct Hor as [[-> ->]|[-> ->]]; done.
Qed.

(** ** Proof rules for the loop *)

(** A property of the state that survives the two marking operations,
    when they are applied the way [make_conclusion] applies them, survives
    step 1; if it also survives the clean-up and the extension by the new
    sentences, it survives the whole loop. *)
Section Rules.
Variable P : t → Prop.

Hypothesis P_safe : ∀ st c s,
  P st → s ∈ knowledge st → c ∈ cells s → count s = 0 →
  P (mark_safe c st).
Hypothesis P_mine : ∀ st c s,
  P st → s ∈ knowledge st → c ∈ cells s →
  Z.of_nat (size (cells s)) = count s →
  P (mark_mine c st).

Lemma fold_mark_safe_rule k l :
  ∀ st s, P st → NoDup l → knowledge st !! k = Some s → count s = 0 →
  (∀ c, c ∈ l → c ∈ cells s) →
  P (foldl (λ st cell, mark_safe cell st) st l).
Proof.
  induction l as [|c l IH]; intros st s HP Hnd Hk Hcount Hin; [done|].
  apply NoDup_cons in Hnd as [Hc Hnd]. cbn [foldl].
  apply (IH _ (Sentence.mark_safe c s)).
  - apply (P_safe st c s); [done| |set_solver|done].
    eapply list_elem_of_lookup_2, Hk.
  - done.
  - cbn. by rewrite list_lookup_fmap, Hk.
  - by rewrite mark_safe_count.
  - intros c' Hc'. rewrite mark_safe_cells. set_solver.
Qed.

Lemma fold_mark_mine_rule k l :
  ∀ st s, P st → NoDup l → knowledge st !! k = Some s →
  Z.of_nat (size (cells s)) = count s →
  (∀ c, c ∈ l → c ∈ cells s) →
  P (foldl (λ st cell, mark_mine cell st) st l).
Proof.
  induction l as [|c l IH]; intros st s HP Hnd Hk Hcount Hin; [done|].
  apply NoDup_cons in Hnd as [Hc Hnd]. cbn [foldl].
  assert (Hcs : c ∈ cells s) by set_solver.
  apply (IH _ (Sentence.mark_mine c s)).
  - apply (P_mine st c s); [done| |done|done].
    eapply list_elem_of_lookup_2, Hk.
  - done.
  - cbn. by rewrite list_lookup_fmap, Hk.
  - rewrite mark_mine_cells, mark_mine_count_in by done.
    rewrite size_difference by set_solver. rewrite size_singleton.
    assert (size (cells s) ≠ 0%nat); [|lia].
    apply size_non_empty_iff. set_solver.
  - intros c' Hc'. rewrite mark_mine_cells. set_solver.
Qed.

Lemma make_conclusion_rule st k : P st → P (make_conclusion st k).
Proof.
  intros HP. unfold make_conclusion.
  destruct (knowledge st !! k) as [s|] eqn:Hk; [|done].
  case_decide as H0.
  - apply (fold_mark_safe_rule k _ st s); [done|apply NoDup_elements|done..|].
    intros c. by rewrite elem_of_elements.
  - case_decide as Hfull; [|done].
    apply (fold_mark_mine_rule k _ st s); [done|apply NoDup_elements|done..|].
    intros c. by rewrite elem_of_elements.
Qed.

Lemma conclude_fold_rule ks : ∀ st, P st → P (foldl make_conclusion st ks).
Proof.
  induction ks as [|k ks IH]; intros st HP; [done|].
  cbn [foldl]. apply IH, make_conclusion_rule, HP.
Qed.

Lemma conclude_all_rule st : P st → P (conclude_all st).
Proof. apply conclude_fold_rule. Qed.

Hypothesis P_remove_empty : ∀ st, P st → P (remove_empty st).
Hypothesis P_infer_all : ∀ st, P st → P (infer_all st).

Lemma pass_rule st : P st → P (pass st).
Proof.
  intros HP. unfold pass.
  apply P_infer_all, P_remove_empty, conclude_all_rule, HP.
Qed.

Lemma fixpoint_loop_rule fuel :
  ∀ st st', P st → fixpoint_loop fuel st = Some st' → P st'.
Proof.
  induction fuel as [|fuel IH]; intros st st' HP; [done|].
  cbn [fixpoint_loop]. case_decide.
  - intros [= <-]. by apply pass_rule.
  - apply IH. by apply pass_rule.
Qed.

End Rules.

(** ** Reachable states and their invariant *)

(** States that arise from a fresh AI by calls of [add_knowledge] that
    return. *)
Inductive reachable : t → Prop :=
  | reachable_init h w : reachable (init h w)
  | reachable_add st cell count fuel st' :
      reachable st → add_knowledge fuel st cell count = Some st' →
      reachable st'.

(** No live sentence mentions a cell whose status is already known. *)
Definition unresolved_only (st : t) : Prop :=
  ∀ s, s ∈ knowledge st → cells s ## mines st ∪ safes st.

(** A cell recorded both as safe and as a mine has been played. *)
Definition clashes_played (st : t) : Prop :=
  safes st ∩ mines st ⊆ moves_made st.

Definition Inv (st : t) : Prop := unresolved_only st ∧ clashes_played st.

Lemma Inv_mark_safe st c s :
  Inv st → s ∈ knowledge st → c ∈ cells s → Inv (mark_safe c st).
Proof.
  intros [HI HH] Hs Hc. pose proof (HI s Hs) as Hd. split.
  - intros s' (s0 & -> & Hs0)%list_elem_of_fmap. cbn.
    rewrite mark_safe_cells. pose proof (HI s0 Hs0). set_solver.
  - unfold clashes_played in *. cbn. set_solver.
Qed.

Lemma Inv_mark_mine st c s :
  Inv st → s ∈ knowledge st → c ∈ cells s → Inv (mark_mine c st).
Proof.
  intros [HI HH] Hs Hc. pose proof (HI s Hs) as Hd. split.
  - intros s' (s0 & -> & Hs0)%list_elem_of_fmap. cbn.
    rewrite mark_mine_cells. pose proof (HI s0 Hs0). set_solver.
  - unfold clashes_played in *. cbn. set_solver.
Qed.

Lemma Inv_remove_empty st : Inv st → Inv (remove_empty st).
Proof.
  intros [HI HH]. split; [|done].
  intros s Hs. cbn in Hs. apply list_elem_of_filter in Hs as [_ Hs].
  by apply HI.
Qed.

Lemma Inv_infer_all st : Inv st → Inv (infer_all st).
Proof.
  intros [HI HH]. split; [|done].
  intros s Hs. cbn in Hs. apply elem_of_app in Hs as [Hs|Hs]; [by apply HI|].
  apply new_sentences_inv in Hs as (_ & t1 & t2 & _ & Ht2 & _ & ->).
  cbn. pose proof (HI t2 Ht2). set_solver.
Qed.

Lemma Inv_fixpoint_loop fuel st st' :
  Inv st → fixpoint_loop fuel st = Some st' → Inv st'.
Proof.
  apply (fixpoint_loop_rule Inv).
  - intros ? c s ? ? ? _. by eapply Inv_mark_safe.
  - intros ? c s ? ? ? _. by eapply Inv_mark_mine.
  - apply Inv_remove_empty.
  - apply Inv_infer_all.
Qed.

(** The state after steps 1 and 2 of [add_knowledge]. *)
Definition played (cell : Cell) (st : t) : t :=
  mark_safe cell
    (AI (height st) (width st) ({[cell]} ∪ moves_made st)
        (mines st) (safes st) (knowledge st)).

(** The cells and the count of the sentence built in step 3. *)
Definition unknown_neighbors (cell : Cell) (st : t) : gset Cell :=
  let neighbors := get_neighbors st cell in
  neighbors ∖ (neighbors ∩ mines st ∪ neighbors ∩ safes st).

Definition remaining_count (cell : Cell) (count : Z) (st : t) : Z :=
  count - Z.of_nat (size (get_neighbors st cell ∩ mines st)).

Lemma add_knowledge_unfold fuel st cell count :
  add_knowledge fuel st cell count =
  let st1 := played cell st in
  let new_sentence :=
    Sentence (unknown_neighbors cell st1) (remaining_count cell count st1) in
  if decide (size (unknown_neighbors cell st1) = 0%nat) then Some st1
  else if decide (new_sentence ∈ knowledge st1) then Some st1
  else fixpoint_loop fuel
         (set_knowledge (knowledge st1 ++ [new_sentence]) st1).
Proof. reflexivity. Qed.

Lemma Inv_played cell st : Inv st → Inv (played cell st).
Proof.
  intros [HI HH]. split.
  - intros s' (s0 & -> & Hs0)%list_elem_of_fmap. cbn.
    rewrite mark_safe_cells. cbn in Hs0. pose proof (HI s0 Hs0). set_solver.
  - unfold clashes_played in *. cbn. set_solver.
Qed.

Lemma Inv_add_knowledge fuel st cell count st' :
  Inv st → add_knowledge fuel st cell count = Some st' → Inv st'.
Proof.
  intros HInv. rewrite add_knowledge_unfold. cbv zeta.
  pose proof (Inv_played cell st HInv) as [HI HH].
  case_decide; [by intros [= <-]|]. case_decide; [by intros [= <-]|].
  apply Inv_fixpoint_loop. split; [|done].
  intros s Hs. cbn [knowledge set_knowledge] in Hs.
  apply elem_of_app in Hs as [Hs|Hs]; [by apply HI|].
  apply list_elem_of_singleton in Hs as ->. cbn [cells mines safes set_knowledge].
  unfold unknown_neighbors. set_solver.
Qed.

Lemma reachable_Inv st : reachable st → Inv st.
Proof.
  induction 1 as [h w|st cell count fuel st' _ IH Hadd].
  - split; [intros s Hs; by apply elem_of_nil in Hs|].
    unfold clashes_played. cbn. set_solver.
  - by eapply Inv_add_knowledge.
Qed.

(** ** Choosing a move *)

Lemma choice_Some rnd l :
  l ≠ [] → ∃ c, choice rnd l = Some c ∧ c ∈ l.
Proof.
  intros Hl. unfold choice.
  destruct (lookup_lt_is_Some_2 l (rnd `mod` length l)%nat) as [c Hc].
  - apply Nat.mod_upper_bound. by destruct l.
  - exists c. split; [done|]. eapply list_elem_of_lookup_2, Hc.
Qed.

(** C8. In a reachable state [make_safe_move] leaves the state as it was
    and returns either a cell that is in [safes], not in [moves_made] and
    not in [mines], or, when there is no such cell, the no-move sentinel. *)
Theorem make_safe_move_sound (rnd : nat) (st : t) :
  reachable st →
  (make_safe_move rnd st).2 = st ∧
  match (make_safe_move rnd st).1 with
  | Some c => c ∈ safes st ∧ (c ∉ moves_made st) ∧ (c ∉ mines st)
  | None => ¬ ∃ c, c ∈ safes st ∧ (c ∉ moves_made st) ∧ (c ∉ mines st)
  end.
Proof.
  intros Hreach. destruct (reachable_Inv st Hreach) as [_ HH].
  split; [done|].
  unfold make_safe_move. cbn [fst]. case_decide as Hsz.
  - destruct (choice_Some rnd (elements (safes st ∖ moves_made st)))
      as (c & -> & Hc).
    + intros Hnil. apply Hsz. unfold size, set_size. cbn. by rewrite Hnil.
    + apply elem_of_elements in Hc. unfold clashes_played in HH. set_solver.
  - intros (c & Hs & Hm & _).
    assert (Hempty : safes st ∖ moves_made st ≡ ∅).
    { apply size_empty_iff. lia. }
    set_solver.
Qed.

Lemma make_safe_move_sound_witness :
  (make_safe_move 0 (init 8 8)).2 = init 8 8.
Proof.
  exact (proj1 (make_safe_move_sound 0 (init 8 8) (reachable_init 8 8))).
Defined.

(** ** The early exits of [add_knowledge] *)

(** C10. When [add_knowledge] returns early, because the probed cell has
    no unknown neighbour or because the sentence it would add is already
    known, the state it returns has the cell in [moves_made] and in
    [safes], and every sentence has gone through [mark_safe], so that no
    sentence mentions the cell. *)
Theorem add_knowledge_early_exit (fuel : nat) (st : t) (cell : Cell) (count : Z) :
  let st1 := played cell st in
  size (unknown_neighbors cell st1) = 0%nat ∨
  Sentence (unknown_neighbors cell st1) (remaining_count cell count st1)
    ∈ knowledge st1 →
  add_knowledge fuel st cell count = Some st1 ∧
  moves_made st1 = {[cell]} ∪ moves_made st ∧
  safes st1 = {[cell]} ∪ safes st ∧
  mines st1 = mines st ∧
  knowledge st1 = Sentence.mark_safe cell <$> knowledge st ∧
  ∀ s, s ∈ knowledge st1 → cell ∉ cells s.
Proof.
  intros st1 Hearly. rewrite add_knowledge_unfold. cbv zeta. fold st1.
  split.
  - case_decide; [done|]. case_decide; [done|]. tauto.
  - repeat split; try done.
    intros s (s0 & -> & _)%list_elem_of_fmap.
    rewrite mark_safe_cells. set_solver.
Qed.

Lemma add_knowledge_early_exit_witness :
  add_knowledge 0 (init 1 1) (0, 0) 0 = Some (played (0, 0) (init 1 1)).
Proof.
  apply (add_knowledge_early_exit 0 (init 1 1) (0, 0) 0).
  left. vm_compute. reflexivity.
Defined.

(** ** Subset inference *)

(** The knowledge base of the example of C3. *)
Definition subset_example : t :=
  AI 8 8 ∅ ∅ ∅
     [Sentence {[(0, 0); (0, 1)]} 1;
      Sentence {[(0, 0); (0, 1); (0, 2)]} 2].

(** C3. In a pass of the loop let [k] be the live sentences after steps 1
    and 2.  For every two different entries of [k], the first with its
    cell set inside that of the second, the sentence over the difference
    of the cell sets, counting the difference of the counts, is in the
    knowledge after the pass: it was already in [k], or step 3 adds it.
    On the knowledge base holding [{(0,0),(0,1)} = 1] and
    [{(0,0),(0,1),(0,2)} = 2] the first pass derives [{(0,2)} = 1], and
    the loop ends with [(0,2)] marked as a mine. *)
Theorem subset_inference (st : t) (i j : nat) (s1 s2 : sentence) :
  let k := knowledge (remove_empty (conclude_all st)) in
  let d := Sentence (cells s2 ∖ cells s1) (count s2 - count s1) in
  k !! i = Some s1 → k !! j = Some s2 → i ≠ j → cells s1 ⊆ cells s2 →
  knowledge (pass st) = k ++ new_sentences k ∧
  d ∈ knowledge (pass st) ∧
  (d ∉ k → d ∈ new_sentences k) ∧
  Sentence {[(0, 2)]} 1 ∈ knowledge (pass subset_example) ∧
  ∃ st', fixpoint_loop 3 subset_example = Some st' ∧ (0, 2) ∈ mines st'.
Proof.
  intros k d Hi Hj Hij Hsub.
  assert (Hnew : d ∉ k → d ∈ new_sentences k).
  { intros Hd. apply elem_of_new_sentences. exists i, j, s1, s2.
    split; [done|]. split; [done|].
    rewrite make_inference_subset by done. cbv zeta. fold d.
    by case_decide. }
  split; [done|]. split; [|split; [done|split]].
  - change (knowledge (pass st)) with (k ++ new_sentences k).
    apply elem_of_app. destruct (decide (d ∈ k)); [by left|right; auto].
  - apply (bool_decide_unpack _). vm_compute. exact I.
  - assert (Hrun :
      match fixpoint_loop 3 subset_example with
      | Some st' => bool_decide ((0, 2) ∈ mines st')
      | None => false
      end = true) by (vm_compute; reflexivity).
    destruct (fixpoint_loop 3 subset_example) as [st'|]; [|done].
    exists st'. split; [done|]. by apply bool_decide_eq_true in Hrun.
Qed.

Lemma subset_inference_witness :
  Sentence ({[(0, 0); (0, 1); (0, 2)]} ∖ {[(0, 0); (0, 1)]}) (2 - 1)
    ∈ knowledge (pass subset_example).
Proof.
  destruct (subset_inference subset_example 0 1
              (Sentence {[(0, 0); (0, 1)]} 1)
              (Sentence {[(0, 0); (0, 1); (0, 2)]} 2)) as (_ & H & _).
  - reflexivity.
  - reflexivity.
  - lia.
  - cbn. set_solver.
  - exact H.
Defined.

(** ** Empty sentences after a call *)

(** C5 fails on the code.  On a 2x3 board whose mines are (1,0) and (1,2),
    probing (0,0) (one neighbouring mine) and then (0,1) (two) leaves two
    copies of the derived sentence [{(0,2),(1,2)} = 1] in the knowledge;
    in the last pass step 3, which runs after the clean-up of step 2,
    derives the empty sentence [{} = 0] from the two copies, and the call
    returns with it. *)
Theorem empty_sentence_retained :
  ∃ st1 st2,
    add_knowledge 3 (init 2 3) (0, 0) 1 = Some st1 ∧
    add_knowledge 3 st1 (0, 1) 2 = Some st2 ∧
    reachable st2 ∧
    Sentence ∅ 0 ∈ knowledge st2.
Proof.
  destruct (add_knowledge 3 (init 2 3) (0, 0) 1) as [st1|] eqn:H1;
    [|vm_compute in H1; discriminate].
  destruct (add_knowledge 3 st1 (0, 1) 2) as [st2|] eqn:H2.
  - exists st1, st2. split; [done|]. split; [done|]. split.
    + eapply reachable_add; [|exact H2].
      eapply reachable_add; [apply reachable_init|exact H1].
    + assert (Hst1 : Some st1 = add_knowledge 3 (init 2 3) (0, 0) 1) by done.
      assert (Hrun :
        match st ← add_knowledge 3 (init 2 3) (0, 0) 1;
              add_knowledge 3 st (0, 1) 2 with
        | Some st => bool_decide (Sentence ∅ 0 ∈ knowledge st)
        | None => false
        end = true) by (vm_compute; reflexivity).
      rewrite H1 in Hrun. cbn [mbind option_bind] in Hrun.
      rewrite H2 in Hrun. by apply bool_decide_eq_true in Hrun.
  - exfalso.
    assert (Hrun :
      is_Some (st ← add_knowledge 3 (init 2 3) (0, 0) 1;
               add_knowledge 3 st (0, 1) 2)) by (vm_compute; eauto).
    rewrite H1 in Hrun. cbn [mbind option_bind] in Hrun.
    rewrite H2 in Hrun. by destruct Hrun.
Qed.

(** ** Repeating a call *)

(** The observation [(cell, count)] has been taken into account: the cell
    is played and safe, and the sentence that [add_knowledge] would build
    for it is empty or already known. *)
Definition answered (cell : Cell) (count : Z) (st : t) : Prop :=
  cell ∈ moves_made st ∧ cell ∈ safes st ∧ unresolved_only st ∧
  (size (unknown_neighbors cell st) = 0%nat ∨
   Sentence (unknown_neighbors cell st) (remaining_count cell count st)
     ∈ knowledge st).

Lemma played_answered cell count st :
  answered cell count st → played cell st = st.
Proof.
  intros (Hm & Hs & HI & _). unfold played, mark_safe. cbn.
  destruct st as [h w mm mi sa k]. cbn in *. f_equal.
  - apply set_eq. set_solver.
  - apply set_eq. set_solver.
  - clear Hm. induction k as [|s k IH]; [done|]. cbn. f_equal.
    + apply mark_safe_out. pose proof (HI s ltac:(left)). set_solver.
    + apply IH. intros s' Hs'. apply HI. by right.
Qed.

Lemma answered_idempotent cell count st fuel :
  answered cell count st → add_knowledge fuel st cell count = Some st.
Proof.
  intros Hans. rewrite add_knowledge_unfold. cbv zeta.
  rewrite (played_answered cell count st Hans).
  destruct Hans as (_ & _ & _ & HJ).
  case_decide; [done|]. case_decide; [done|]. tauto.
Qed.

Lemma unknown_neighbors_mark_safe cell c st :
  unknown_neighbors cell (mark_safe c st) = unknown_neighbors cell st ∖ {[c]}.
Proof.
  unfold unknown_neighbors.
  change (get_neighbors (mark_safe c st) cell) with (get_neighbors st cell).
  cbn [mines safes mark_safe]. apply set_eq. set_solver.
Qed.

Lemma unknown_neighbors_mark_mine cell c st :
  unknown_neighbors cell (mark_mine c st) = unknown_neighbors cell st ∖ {[c]}.
Proof.
  unfold unknown_neighbors.
  change (get_neighbors (mark_mine c st) cell) with (get_neighbors st cell).
  cbn [mines safes mark_mine]. apply set_eq. set_solver.
Qed.

Lemma remaining_count_mark_mine cell count c st :
  c ∉ mines st →
  remaining_count cell count (mark_mine c st) =
  if decide (c ∈ get_neighbors st cell)
  then remaining_count cell count st - 1
  else remaining_count cell count st.
Proof.
  intros Hc. unfold remaining_count.
  change (get_neighbors (mark_mine c st) cell) with (get_neighbors st cell).
  cbn [mines mark_mine]. case_decide as HN.
  - replace (get_neighbors st cell ∩ ({[c]} ∪ mines st))
      with ({[c]} ∪ get_neighbors st cell ∩ mines st)
      by (apply set_eq; set_solver).
    rewrite size_union by set_solver. rewrite size_singleton. lia.
  - replace (get_neighbors st cell ∩ ({[c]} ∪ mines st))
      with (get_neighbors st cell ∩ mines st)
      by (apply set_eq; set_solver).
    done.
Qed.

Lemma answered_mark_safe cell count st c s :
  answered cell count st → s ∈ knowledge st → c ∈ cells s →
  answered cell count (mark_safe c st).
Proof.
  intros (Hm & Hs & HI & HJ) Hin Hc.
  assert (HInv : unresolved_only (mark_safe c st)).
  { intros s' (s0 & -> & Hs0)%list_elem_of_fmap. cbn.
    rewrite mark_safe_cells. pose proof (HI s0 Hs0). set_solver. }
  split; [done|]. split; [cbn; set_solver|]. split; [done|].
  rewrite unknown_neighbors_mark_safe.
  destruct HJ as [H0|HJ].
  - left. apply size_empty_iff in H0. apply size_empty_iff. set_solver.
  - right. cbn [knowledge mark_safe].
    apply list_elem_of_fmap. eexists. split; [|exact HJ].
    apply sentence_eq; [by rewrite mark_safe_cells|by rewrite mark_safe_count].
Qed.

Lemma answered_mark_mine cell count st c s :
  answered cell count st → s ∈ knowledge st → c ∈ cells s →
  answered cell count (mark_mine c st).
Proof.
  intros (Hm & Hs & HI & HJ) Hin Hc.
  assert (Hfresh : c ∉ mines st ∪ safes st).
  { pose proof (HI s Hin). set_solver. }
  assert (HInv : unresolved_only (mark_mine c st)).
  { intros s' (s0 & -> & Hs0)%list_elem_of_fmap. cbn.
    rewrite mark_mine_cells. pose proof (HI s0 Hs0). set_solver. }
  split; [done|]. split; [done|]. split; [done|].
  rewrite unknown_neighbors_mark_mine.
  destruct HJ as [H0|HJ].
  - left. apply size_empty_iff in H0. apply size_empty_iff. set_solver.
  - right. cbn [knowledge mark_mine].
    apply list_elem_of_fmap. eexists. split; [|exact HJ].
    rewrite remaining_count_mark_mine by set_solver.
    apply sentence_eq; [by rewrite mark_mine_cells|]. cbn [Sentence.count].
    case_decide as HN.
    + rewrite mark_mine_count_in; [done|]. cbn. unfold unknown_neighbors.
      set_solver.
    + rewrite mark_mine_count_out; [done|]. cbn. unfold unknown_neighbors.
      set_solver.
Qed.

Lemma answered_remove_empty cell count st :
  answered cell count st → answered cell count (remove_empty st).
Proof.
  intros (Hm & Hs & HI & HJ). split; [done|]. split; [done|]. split.
  - intros s Hin. cbn in Hin. apply list_elem_of_filter in Hin as [_ Hin].
    by apply HI.
  - change (unknown_neighbors cell (remove_empty st))
      with (unknown_neighbors cell st).
    change (remaining_count cell count (remove_empty st))
      with (remaining_count cell count st).
    destruct HJ as [H0|HJ]; [by left|].
    destruct (decide (size (unknown_neighbors cell st) = 0%nat)); [by left|].
    right. cbn. apply list_elem_of_filter. split; [|done]. done.
Qed.

Lemma answered_infer_all cell count st :
  answered cell count st → answered cell count (infer_all st).
Proof.
  intros (Hm & Hs & HI & HJ). split; [done|]. split; [done|]. split.
  - intros s Hin. cbn in Hin.
    apply elem_of_app in Hin as [Hin|Hin]; [by apply HI|].
    apply new_sentences_inv in Hin as (_ & t1 & t2 & _ & Ht2 & _ & ->).
    cbn. pose proof (HI t2 Ht2). set_solver.
  - change (unknown_neighbors cell (infer_all st))
      with (unknown_neighbors cell st).
    change (remaining_count cell count (infer_all st))
      with (remaining_count cell count st).
    destruct HJ as [H0|HJ]; [by left|right].
    cbn. apply elem_of_app. by left.
Qed.

Lemma answered_fixpoint_loop cell count fuel st st' :
  answered cell count st → fixpoint_loop fuel st = Some st' →
  answered cell count st'.
Proof.
  apply (fixpoint_loop_rule (answered cell count)).
  - intros ? c s ? ? ? _. by eapply answered_mark_safe.
  - intros ? c s ? ? ? _. by eapply answered_mark_mine.
  - apply answered_remove_empty.
  - apply answered_infer_all.
Qed.

Lemma add_knowledge_answered fuel st cell count st' :
  Inv st → add_knowledge fuel st cell count = Some st' →
  answered cell count st'.
Proof.
  intros HInv. rewrite add_knowledge_unfold. cbv zeta.
  pose proof (Inv_played cell st HInv) as [HI _].
  assert (Hm : cell ∈ moves_made (played cell st)) by (cbn; set_solver).
  assert (Hs : cell ∈ safes (played cell st)) by (cbn; set_solver).
  case_decide as H0; [intros [= <-]; repeat split; auto|].
  case_decide as Hknown; [intros [= <-]; repeat split; auto|].
  apply answered_fixpoint_loop.
  split; [done|]. split; [done|]. split.
  - intros s Hin. cbn [knowledge set_knowledge] in Hin.
    apply elem_of_app in Hin as [Hin|Hin]; [by apply HI|].
    apply list_elem_of_singleton in Hin as ->.
    cbn [cells mines safes set_knowledge].
    unfold unknown_neighbors. set_solver.
  - right. cbn [knowledge set_knowledge]. apply elem_of_app. right.
    by apply list_elem_of_singleton.
Qed.

(** C6. In a reachable state, once [add_knowledge(cell, count)] has
    returned, the same call again returns at once and leaves the whole
    state as it was: [mines], [safes] and the length of [knowledge] (and
    every other field) are unchanged. *)
Theorem add_knowledge_idempotent (fuel fuel' : nat) (st st1 : t)
    (cell : Cell) (count : Z) :
  reachable st →
  add_knowledge fuel st cell count = Some st1 →
  ∃ st2, add_knowledge fuel' st1 cell count = Some st2 ∧
         mines st2 = mines st1 ∧ safes st2 = safes st1 ∧
         length (knowledge st2) = length (knowledge st1) ∧
         st2 = st1.
Proof.
  intros Hreach Hadd. exists st1. split; [|done].
  apply answered_idempotent.
  eapply add_knowledge_answered; [|exact Hadd].
  by apply reachable_Inv.
Qed.

Lemma add_knowledge_idempotent_witness :
  ∃ st1 st2, add_knowledge 1 (init 2 3) (0, 0) 1 = Some st1 ∧
             add_knowledge 0 st1 (0, 0) 1 = Some st2 ∧ st2 = st1.
Proof.
  destruct (add_knowledge 1 (init 2 3) (0, 0) 1) as [st1|] eqn:H1;
    [|vm_compute in H1; discriminate].
  destruct (add_knowledge_idempotent 1 0 (init 2 3) st1 (0, 0) 1
              (reachable_init 2 3) H1) as (st2 & H2 & _ & _ & _ & Heq).
  exists st1, st2. split; [reflexivity|]. split; [exact H2|exact Heq].
Defined.

(** ** Termination of the loop *)

(** *** Sentences on which [make_conclusion] does nothing *)

Definition inert (s : sentence) : Prop :=
  cells s = ∅ ∨ (count s ≠ 0 ∧ Z.of_nat (size (cells s)) ≠ count s).

#[global] Instance inert_dec s : Decision (inert s).
Proof. unfold inert. apply _. Defined.

Lemma make_conclusion_inert st k :
  (∀ s, knowledge st !! k = Some s → inert s) → make_conclusion st k = st.
Proof.
  intros Hin. unfold make_conclusion.
  destruct (knowledge st !! k) as [s|]; [|done].
  destruct (Hin s eq_refl) as [Hempty|[H0 Hfull]].
  - rewrite Hempty, elements_empty. by repeat case_decide.
  - by repeat case_decide.
Qed.

Lemma conclude_fold_inert ks : ∀ st,
  (∀ k s, k ∈ ks → knowledge st !! k = Some s → inert s) →
  foldl make_conclusion st ks = st.
Proof.
  induction ks as [|k ks IH]; intros st Hin; [done|]. cbn [foldl].
  rewrite make_conclusion_inert.
  - apply IH. intros k' s Hk'. apply Hin. by right.
  - intros s. apply Hin. by left.
Qed.

Lemma conclude_all_inert st :
  Forall inert (knowledge st) → conclude_all st = st.
Proof.
  intros Hall. apply conclude_fold_inert. intros k s _ Hk.
  rewrite Forall_forall in Hall. eapply Hall, list_elem_of_lookup_2, Hk.
Qed.

(** *** The cells mentioned by the knowledge *)

Definition universe (st : t) : gset Cell := ⋃ (cells <$> knowledge st).

Lemma elem_of_universe st c :
  c ∈ universe st ↔ ∃ s, s ∈ knowledge st ∧ c ∈ cells s.
Proof.
  unfold universe. rewrite elem_of_union_list. split.
  - intros (X & (s & -> & Hs)%list_elem_of_fmap & Hc). eauto.
  - intros (s & Hs & Hc). exists (cells s). split; [|done].
    apply list_elem_of_fmap. eauto.
Qed.

Lemma universe_mark_safe c st : universe (mark_safe c st) = universe st ∖ {[c]}.
Proof.
  apply set_eq. intros x. rewrite elem_of_difference, !elem_of_universe.
  cbn [knowledge mark_safe]. split.
  - intros (s & (s0 & -> & Hs0)%list_elem_of_fmap & Hx).
    rewrite mark_safe_cells in Hx. split; [exists s0|]; set_solver.
  - intros ((s & Hs & Hx) & Hne). exists (Sentence.mark_safe c s).
    split; [apply list_elem_of_fmap; eauto|].
    rewrite mark_safe_cells. set_solver.
Qed.

Lemma universe_mark_mine c st : universe (mark_mine c st) = universe st ∖ {[c]}.
Proof.
  apply set_eq. intros x. rewrite elem_of_difference, !elem_of_universe.
  cbn [knowledge mark_mine]. split.
  - intros (s & (s0 & -> & Hs0)%list_elem_of_fmap & Hx).
    rewrite mark_mine_cells in Hx. split; [exists s0|]; set_solver.
  - intros ((s & Hs & Hx) & Hne). exists (Sentence.mark_mine c s).
    split; [apply list_elem_of_fmap; eauto|].
    rewrite mark_mine_cells. set_solver.
Qed.

Lemma universe_fold_mark_safe l : ∀ st,
  universe (foldl (λ st cell, mark_safe cell st) st l) =
  universe st ∖ list_to_set l.
Proof.
  induction l as [|c l IH]; intros st; cbn [foldl list_to_set].
  - apply set_eq. set_solver.
  - rewrite IH, universe_mark_safe. apply set_eq. set_solver.
Qed.

Lemma universe_fold_mark_mine l : ∀ st,
  universe (foldl (λ st cell, mark_mine cell st) st l) =
  universe st ∖ list_to_set l.
Proof.
  induction l as [|c l IH]; intros st; cbn [foldl list_to_set].
  - apply set_eq. set_solver.
  - rewrite IH, universe_mark_mine. apply set_eq. set_solver.
Qed.

Lemma universe_conclude_fold ks st :
  universe (foldl make_conclusion st ks) ⊆ universe st.
Proof.
  apply (conclude_fold_rule (λ st', universe st' ⊆ universe st)); [| |done].
  - intros st' c s Hsub _ _ _. rewrite universe_mark_safe. set_solver.
  - intros st' c s Hsub _ _ _. rewrite universe_mark_mine. set_solver.
Qed.

(** A sentence that is not inert loses all its cells. *)
Lemma make_conclusion_shrinks st k s :
  knowledge st !! k = Some s → ¬ inert s →
  universe (make_conclusion st k) ⊂ universe st.
Proof.
  intros Hk Hact. unfold make_conclusion. rewrite Hk.
  assert (Hne : cells s ≠ ∅) by (intros He; apply Hact; by left).
  assert (Hsub : cells s ⊆ universe st).
  { intros c Hc. apply elem_of_universe. exists s. split; [|done].
    eapply list_elem_of_lookup_2, Hk. }
  assert (Hstrict : universe st ∖ list_to_set (elements (cells s)) ⊂ universe st).
  { rewrite list_to_set_elements_L.
    apply set_choose_L in Hne as [c Hc]. set_solver. }
  case_decide as H0; [by rewrite universe_fold_mark_safe|].
  case_decide as Hfull; [by rewrite universe_fold_mark_mine|].
  exfalso. apply Hact. right. done.
Qed.

(** Step 1 either leaves the state alone, every sentence being inert, or
    strictly shrinks the set of cells mentioned by the knowledge. *)
Lemma conclude_fold_cases ks : ∀ st,
  (foldl make_conclusion st ks = st ∧
   ∀ k s, k ∈ ks → knowledge st !! k = Some s → inert s) ∨
  universe (foldl make_conclusion st ks) ⊂ universe st.
Proof.
  induction ks as [|k ks IH]; intros st.
  { left. split; [done|]. intros k s Hk. by apply elem_of_nil in Hk. }
  cbn [foldl].
  destruct (knowledge st !! k) as [s|] eqn:Hk.
  - destruct (decide (inert s)) as [Hin|Hact].
    + rewrite make_conclusion_inert
        by (intros s' Hs'; rewrite Hk in Hs'; by injection Hs' as <-).
      destruct (IH st) as [[Heq Hall]|Hlt]; [left|by right].
      split; [done|]. intros k' s' Hk' Hs'.
      apply elem_of_cons in Hk' as [->|Hk']; [|by eapply Hall].
      rewrite Hk in Hs'. by injection Hs' as <-.
    + right. pose proof (make_conclusion_shrinks st k s Hk Hact) as Hlt.
      pose proof (universe_conclude_fold ks (make_conclusion st k)).
      set_solver.
  - rewrite make_conclusion_inert by (intros s' Hs'; by rewrite Hk in Hs').
    destruct (IH st) as [[Heq Hall]|Hlt]; [left|by right].
    split; [done|]. intros k' s' Hk' Hs'.
    apply elem_of_cons in Hk' as [->|Hk']; [|by eapply Hall].
    by rewrite Hk in Hs'.
Qed.

Lemma conclude_all_cases st :
  (conclude_all st = st ∧ Forall inert (knowledge st)) ∨
  universe (conclude_all st) ⊂ universe st.
Proof.
  destruct (conclude_fold_cases (seq 0 (length (knowledge st))) st)
    as [[Heq Hall]|Hlt]; [left|by right].
  split; [done|]. apply Forall_forall. intros s Hs.
  apply list_elem_of_lookup in Hs as [k Hk].
  apply (Hall k s); [|done]. apply elem_of_seq.
  apply lookup_lt_Some in Hk. lia.
Qed.

(** *** Knowledge that tells the truth about a mine layout *)

(** [M] is the set of cells that hold a mine. *)
Definition true_of (M : gset Cell) (s : sentence) : Prop :=
  count s = Z.of_nat (size (cells s ∩ M)).

Definition truthful (M : gset Cell) (st : t) : Prop :=
  mines st ⊆ M ∧ safes st ## M ∧ ∀ s, s ∈ knowledge st → true_of M s.

Lemma true_of_mark_safe M c s :
  c ∉ M → true_of M s → true_of M (Sentence.mark_safe c s).
Proof.
  unfold true_of. intros Hc Hs. rewrite mark_safe_cells, mark_safe_count, Hs.
  do 2 f_equal. apply set_eq. set_solver.
Qed.

Lemma true_of_mark_mine M c s :
  c ∈ M → true_of M s → true_of M (Sentence.mark_mine c s).
Proof.
  unfold true_of. intros Hc Hs. rewrite mark_mine_cells.
  destruct (decide (c ∈ cells s)) as [Hin|Hout].
  - rewrite mark_mine_count_in, Hs by done.
    replace ((cells s ∖ {[c]}) ∩ M) with ((cells s ∩ M) ∖ {[c]})
      by (apply set_eq; set_solver).
    rewrite (size_difference (cells s ∩ M) {[c]}) by set_solver.
    rewrite size_singleton.
    assert (size (cells s ∩ M) ≠ 0%nat); [|lia].
    apply size_non_empty_iff. set_solver.
  - rewrite mark_mine_count_out, Hs by done.
    do 2 f_equal. apply set_eq. set_solver.
Qed.

Lemma true_of_difference M t1 t2 :
  cells t1 ⊆ cells t2 → true_of M t1 → true_of M t2 →
  true_of M (Sentence (cells t2 ∖ cells t1) (count t2 - count t1)).
Proof.
  unfold true_of. intros Hsub H1 H2. cbn. rewrite H1, H2.
  replace ((cells t2 ∖ cells t1) ∩ M) with ((cells t2 ∩ M) ∖ (cells t1 ∩ M))
    by (apply set_eq; set_solver).
  rewrite (size_difference (cells t2 ∩ M) (cells t1 ∩ M)) by set_solver.
  assert (size (cells t1 ∩ M) ≤ size (cells t2 ∩ M))%nat; [|lia].
  apply subseteq_size. set_solver.
Qed.

(** A true sentence of count zero has no mine; one whose count is its
    size has only mines. *)
Lemma true_of_zero M s c : true_of M s → count s = 0 → c ∈ cells s → c ∉ M.
Proof.
  unfold true_of. intros Hs H0 Hc HM.
  assert (size (cells s ∩ M) ≠ 0%nat); [|lia].
  apply size_non_empty_iff. set_solver.
Qed.

Lemma true_of_full M s c :
  true_of M s → Z.of_nat (size (cells s)) = count s → c ∈ cells s → c ∈ M.
Proof.
  unfold true_of. intros Hs Hfull Hc.
  assert (Heq : cells s ∩ M = cells s).
  { apply set_subseteq_size_eq; [set_solver|lia]. }
  set_solver.
Qed.

Lemma truthful_mark_safe M st c s :
  truthful M st → s ∈ knowledge st → c ∈ cells s → count s = 0 →
  truthful M (mark_safe c st).
Proof.
  intros (Hm & Hs & Hk) Hin Hc H0.
  pose proof (true_of_zero M s c (Hk s Hin) H0 Hc) as HcM.
  split; [done|]. split; [cbn; set_solver|].
  intros s' (s0 & -> & Hs0)%list_elem_of_fmap. apply true_of_mark_safe; auto.
Qed.

Lemma truthful_mark_mine M st c s :
  truthful M st → s ∈ knowledge st → c ∈ cells s →
  Z.of_nat (size (cells s)) = count s →
  truthful M (mark_mine c st).
Proof.
  intros (Hm & Hs & Hk) Hin Hc Hfull.
  pose proof (true_of_full M s c (Hk s Hin) Hfull Hc) as HcM.
  split; [cbn; set_solver|]. split; [done|].
  intros s' (s0 & -> & Hs0)%list_elem_of_fmap. apply true_of_mark_mine; auto.
Qed.

Lemma truthful_remove_empty M st : truthful M st → truthful M (remove_empty st).
Proof.
  intros (Hm & Hs & Hk). split; [done|]. split; [done|].
  intros s Hin. cbn in Hin. apply list_elem_of_filter in Hin as [_ Hin]. auto.
Qed.

Lemma truthful_infer_all M st : truthful M st → truthful M (infer_all st).
Proof.
  intros (Hm & Hs & Hk). split; [done|]. split; [done|].
  intros s Hin. cbn in Hin. apply elem_of_app in Hin as [Hin|Hin]; [auto|].
  apply new_sentences_inv in Hin as (_ & t1 & t2 & Ht1 & Ht2 & Hsub & ->).
  apply true_of_difference; auto.
Qed.

Lemma truthful_pass M st : truthful M st → truthful M (pass st).
Proof.
  apply (pass_rule (truthful M)).
  - apply truthful_mark_safe.
  - apply truthful_mark_mine.
  - apply truthful_remove_empty.
  - apply truthful_infer_all.
Qed.

(** *** All subsets of a finite set *)

Fixpoint subsets (l : list Cell) : list (gset Cell) :=
  match l with
  | [] => [∅]
  | x :: l' => subsets l' ++ ((λ X, {[x]} ∪ X) <$> subsets l')
  end.

Definition powerset (W : gset Cell) : gset (gset Cell) :=
  list_to_set (subsets (elements W)).

Lemma elem_of_subsets l : ∀ X : gset Cell, X ⊆ list_to_set l → X ∈ subsets l.
Proof.
  induction l as [|x l IH]; intros X HX; cbn in *.
  - apply list_elem_of_singleton. apply set_eq. set_solver.
  - apply elem_of_app. destruct (decide (x ∈ X)) as [Hx|Hx].
    + right. apply list_elem_of_fmap. exists (X ∖ {[x]}). split.
      * apply set_eq. intros y. destruct (decide (y = x)); set_solver.
      * apply IH. set_solver.
    + left. apply IH. set_solver.
Qed.

Lemma elem_of_powerset W X : X ⊆ W → X ∈ powerset W.
Proof.
  intros HX. unfold powerset. apply elem_of_list_to_set, elem_of_subsets.
  by rewrite list_to_set_elements_L.
Qed.

(** *** The two measures *)

(** The cell sets of the live sentences. *)
Definition cell_sets (k : list sentence) : gset (gset Cell) :=
  list_to_set (cells <$> filter live k).

Definition terminates (st : t) : Prop :=
  ∃ fuel st', fixpoint_loop fuel st = Some st'.

Lemma terminates_step st : terminates (pass st) → terminates st.
Proof.
  intros (fuel & st' & Hrun). destruct (decide (unchanged st (pass st))) as [Hu|Hu].
  - exists 1%nat, (pass st). cbn. by rewrite decide_True.
  - exists (S fuel), st'. cbn [fixpoint_loop]. by rewrite decide_False.
Qed.

Lemma fixpoint_loop_mono fuel : ∀ fuel' st st',
  fixpoint_loop fuel st = Some st' → (fuel ≤ fuel')%nat →
  fixpoint_loop fuel' st = Some st'.
Proof.
  induction fuel as [|fuel IH]; intros fuel' st st' Hrun Hle; [done|].
  destruct fuel' as [|fuel']; [lia|]. cbn [fixpoint_loop] in *.
  case_decide; [done|]. apply IH; [done|lia].
Qed.

Lemma elem_of_cell_sets k X :
  X ∈ cell_sets k ↔ ∃ s, s ∈ k ∧ live s ∧ cells s = X.
Proof.
  unfold cell_sets. rewrite elem_of_list_to_set, list_elem_of_fmap. split.
  - intros (s & -> & [Hl Hs]%list_elem_of_filter). eauto.
  - intros (s & Hs & Hl & <-). exists s. split; [done|].
    by apply list_elem_of_filter.
Qed.

Lemma live_nonempty s : live s ↔ cells s ≠ ∅.
Proof.
  unfold live. split.
  - intros Hs He. apply Hs. rewrite He. apply size_empty.
  - intros Hs Hz. apply Hs. apply leibniz_equiv. by apply size_empty_iff.
Qed.

Lemma pass_quiet st :
  conclude_all st = st →
  pass st =
  set_knowledge (filter live (knowledge st) ++
                 new_sentences (filter live (knowledge st))) st.
Proof. intros Heq. unfold pass. rewrite Heq. reflexivity. Qed.

Lemma filter_live_twice (k : list sentence) :
  filter live (filter live k) = filter live k.
Proof.
  induction k as [|s k IH]; [done|]. rewrite filter_cons.
  destruct (decide (live s)) as [Hs|Hs]; [|done].
  rewrite filter_cons, decide_True by done. by rewrite IH.
Qed.

Lemma filter_live_dead (k : list sentence) :
  Forall (λ d, ¬ live d) k → filter live k = [].
Proof.
  induction 1 as [|s k Hs _ IH]; [done|].
  by rewrite filter_cons, decide_False.
Qed.

Lemma universe_pass st : universe (pass st) ⊆ universe (conclude_all st).
Proof.
  intros c (s & Hs & Hc)%elem_of_universe. apply elem_of_universe.
  cbn in Hs. apply elem_of_app in Hs as [Hs|Hs].
  - apply list_elem_of_filter in Hs as [_ Hs]. eauto.
  - apply new_sentences_inv in Hs as (_ & t1 & t2 & _ & Ht2 & _ & ->).
    apply list_elem_of_filter in Ht2 as [_ Ht2]. exists t2. cbn in Hc.
    split; [done|set_solver].
Qed.

(** A quiet pass that derives only empty sentences is followed by a pass
    that changes nothing. *)
Lemma quiet_settled st :
  conclude_all st = st → Forall inert (knowledge st) →
  Forall (λ d, ¬ live d) (new_sentences (filter live (knowledge st))) →
  fixpoint_loop 2 st = Some (pass st).
Proof.
  intros Heq Hinert Hdead.
  set (k := filter live (knowledge st)) in *.
  assert (Hpass : pass st = set_knowledge (k ++ new_sentences k) st)
    by apply pass_quiet, Heq.
  assert (Hinert' : Forall inert (knowledge (pass st))).
  { rewrite Hpass. cbn. apply Forall_app. split.
    - apply Forall_forall. intros s [_ Hs]%list_elem_of_filter.
      rewrite Forall_forall in Hinert. auto.
    - eapply Forall_impl; [exact Hdead|]. intros d Hd. left.
      destruct (decide (cells d = ∅)) as [|Hne]; [done|].
      by apply live_nonempty in Hne. }
  assert (Hfix : pass (pass st) = pass st).
  { rewrite (pass_quiet (pass st)) by apply conclude_all_inert, Hinert'.
    rewrite Hpass at 1 2 3. cbn [knowledge set_knowledge].
    rewrite filter_app. unfold k at 1 3. rewrite filter_live_twice. fold k.
    rewrite (filter_live_dead _ Hdead), app_nil_r. by rewrite Hpass. }
  cbn [fixpoint_loop]. case_decide; [done|].
  rewrite Hfix. rewrite decide_True; [done|]. by repeat split.
Qed.

(** A quiet pass that derives a live sentence adds a new cell set. *)
Lemma quiet_progress M st W d :
  conclude_all st = st → truthful M st → universe st ⊆ W →
  d ∈ new_sentences (filter live (knowledge st)) → live d →
  powerset W ∖ cell_sets (knowledge (pass st)) ⊂
  powerset W ∖ cell_sets (knowledge st).
Proof.
  intros Heq (_ & _ & Htrue) HW Hd Hlive.
  set (k := filter live (knowledge st)) in *.
  rewrite (pass_quiet st Heq). fold k. cbn [knowledge set_knowledge].
  pose proof (new_sentences_inv k d Hd) as (Hnew & t1 & t2 & Ht1 & Ht2 & Hsub & Hdef).
  apply list_elem_of_filter in Ht1 as [_ Ht1].
  apply list_elem_of_filter in Ht2 as [_ Ht2].
  assert (Hdtrue : true_of M d).
  { rewrite Hdef. apply true_of_difference; auto. }
  assert (Hin : cells d ∈ cell_sets (k ++ new_sentences k)).
  { apply elem_of_cell_sets. exists d. split; [|done].
    apply elem_of_app. by right. }
  assert (Hout : cells d ∉ cell_sets (knowledge st)).
  { intros (s & Hs & Hls & Hcs)%elem_of_cell_sets. apply Hnew.
    replace d with s; [by apply list_elem_of_filter|].
    apply sentence_eq; [done|].
    pose proof (Htrue s Hs) as Hstrue. unfold true_of in *.
    rewrite Hstrue, Hdtrue, Hcs. done. }
  assert (Hpow : cells d ∈ powerset W).
  { apply elem_of_powerset. rewrite Hdef. cbn. intros c Hc. apply HW.
    apply elem_of_universe. exists t2. split; [done|set_solver]. }
  assert (Hmono : cell_sets (knowledge st) ⊆ cell_sets (k ++ new_sentences k)).
  { intros X (s & Hs & Hls & <-)%elem_of_cell_sets. apply elem_of_cell_sets.
    exists s. split; [|done]. apply elem_of_app. left.
    by apply list_elem_of_filter. }
  set_solver.
Qed.

(** Termination of the loop on truthful knowledge, by induction on the
    number of cells still mentioned and, within it, on the number of cell
    sets not yet present. *)
Lemma loop_terminates_aux M : ∀ n1 n2 st W,
  truthful M st → universe st ⊆ W → (size W < n1)%nat →
  (size (powerset W ∖ cell_sets (knowledge st)) < n2)%nat →
  terminates st.
Proof.
  induction n1 as [|n1 IH1]; [intros; lia|].
  induction n2 as [|n2 IH2]; [intros; lia|].
  intros st W Htrue HW Hn1 Hn2.
  destruct (conclude_all_cases st) as [[Heq Hinert]|Hlt].
  - destruct (decide (Forall (λ d, ¬ live d)
                        (new_sentences (filter live (knowledge st)))))
      as [Hdead|Hsome].
    + exists 2%nat, (pass st). by apply quiet_settled.
    + apply not_Forall_Exists in Hsome; [|apply _].
      apply Exists_exists in Hsome as (d & Hd & Hlive).
      apply dec_stable in Hlive.
      apply terminates_step. apply (IH2 (pass st) W).
      * by apply truthful_pass.
      * etransitivity; [apply universe_pass|]. by rewrite Heq.
      * done.
      * pose proof (quiet_progress M st W d Heq Htrue HW Hd Hlive) as Hlt.
        apply subset_size in Hlt. lia.
  - apply terminates_step.
    apply (IH1 (S (size (powerset (universe (pass st)) ∖
                         cell_sets (knowledge (pass st)))))
             (pass st) (universe (pass st))).
    + by apply truthful_pass.
    + done.
    + assert (Hss : universe (pass st) ⊂ W).
      { pose proof (universe_pass st). set_solver. }
      apply subset_size in Hss. lia.
    + lia.
Qed.

Lemma loop_terminates M st : truthful M st → terminates st.
Proof.
  intros Htrue.
  apply (loop_terminates_aux M
           (S (size (universe st)))
           (S (size (powerset (universe st) ∖ cell_sets (knowledge st))))
           st (universe st)); [done|done|lia|lia].
Qed.

Lemma truthful_fixpoint_loop M fuel st st' :
  truthful M st → fixpoint_loop fuel st = Some st' → truthful M st'.
Proof.
  apply (fixpoint_loop_rule (truthful M)).
  - apply truthful_mark_safe.
  - apply truthful_mark_mine.
  - apply truthful_remove_empty.
  - apply truthful_infer_all.
Qed.

Lemma truthful_played M st cell :
  truthful M st → cell ∉ M → truthful M (played cell st).
Proof.
  intros (Hm & Hs & Hk) Hc. split; [done|]. split; [cbn; set_solver|].
  intros s' (s0 & -> & Hs0)%list_elem_of_fmap. apply true_of_mark_safe; auto.
Qed.

(** The sentence built from a true count is true. *)
Lemma true_of_new_sentence M st cell count :
  mines st ⊆ M → safes st ## M →
  count = Z.of_nat (size (get_neighbors st cell ∩ M)) →
  true_of M (Sentence (unknown_neighbors cell st)
                      (remaining_count cell count st)).
Proof.
  intros Hm Hs ->. unfold true_of, unknown_neighbors, remaining_count.
  cbn [Sentence.cells Sentence.count].
  generalize (get_neighbors st cell). intros N.
  replace (N ∩ M) with
    ((N ∩ mines st) ∪ (N ∖ (N ∩ mines st ∪ N ∩ safes st)) ∩ M).
  - rewrite size_union by set_solver. lia.
  - apply set_eq. intros x. destruct (decide (x ∈ mines st)); set_solver.
Qed.

(** C2, as amended.  When the knowledge tells the truth about some mine
    layout [M] (known mines are mines, known safes are not, every sentence
    counts the mines among its cells), and the call reports a cell without
    a mine together with the true number of mines among its neighbours,
    the loop of [add_knowledge] ends after finitely many passes: the call
    returns, with every sufficient amount of fuel, a state that is again
    truthful. *)
Theorem add_knowledge_terminates (M : gset Cell) (st : t)
    (cell : Cell) (count : Z) :
  truthful M st → cell ∉ M →
  count = Z.of_nat (size (get_neighbors st cell ∩ M)) →
  ∃ n st', truthful M st' ∧
    ∀ fuel, (n ≤ fuel)%nat → add_knowledge fuel st cell count = Some st'.
Proof.
  intros Htrue Hcell Hcount.
  pose proof (truthful_played M st cell Htrue Hcell) as Hplayed.
  assert (Hnew : true_of M
            (Sentence (unknown_neighbors cell (played cell st))
                      (remaining_count cell count (played cell st)))).
  { destruct Hplayed as (Hm & Hs & _).
    apply true_of_new_sentence; [done|done|exact Hcount]. }
  set (st1 := played cell st) in *.
  set (new_sentence := Sentence (unknown_neighbors cell st1)
                                (remaining_count cell count st1)) in *.
  destruct (decide (size (unknown_neighbors cell st1) = 0%nat)) as [H0|H0].
  { exists 0%nat, st1. split; [done|]. intros fuel _.
    rewrite add_knowledge_unfold. cbv zeta. fold st1. by rewrite decide_True. }
  destruct (decide (new_sentence ∈ knowledge st1)) as [Hk|Hk].
  { exists 0%nat, st1. split; [done|]. intros fuel _.
    rewrite add_knowledge_unfold. cbv zeta. fold st1 new_sentence.
    rewrite decide_False by done. by rewrite decide_True. }
  assert (Hstart : truthful M
            (set_knowledge (knowledge st1 ++ [new_sentence]) st1)).
  { destruct Hplayed as (Hm & Hs & Hall). split; [done|]. split; [done|].
    intros s Hin. cbn in Hin. apply elem_of_app in Hin as [Hin|Hin]; [auto|].
    by apply list_elem_of_singleton in Hin as ->. }
  destruct (loop_terminates M _ Hstart) as (n & st' & Hrun).
  exists n, st'. split; [by eapply truthful_fixpoint_loop|].
  intros fuel Hfuel. rewrite add_knowledge_unfold. cbv zeta.
  fold st1 new_sentence. rewrite !decide_False by done.
  by eapply fixpoint_loop_mono.
Qed.

Lemma add_knowledge_terminates_witness :
  ∃ n st', truthful {[(1, 0); (1, 2)]} st' ∧
    ∀ fuel, (n ≤ fuel)%nat → add_knowledge fuel (init 2 3) (0, 0) 1 = Some st'.
Proof.
  apply (add_knowledge_terminates {[(1, 0); (1, 2)]} (init 2 3) (0, 0) 1).
  - split; [cbn; set_solver|]. split; [cbn; set_solver|].
    intros s Hs. cbn in Hs. by apply elem_of_nil in Hs.
  - apply (bool_decide_unpack _). vm_compute. exact I.
  - vm_compute. reflexivity.
Defined.

(** ** Growth of the knowledge *)

(** Step 3 runs after the clean-up, so the empty sentences it derives are
    never known already; they are derived again in every later pass. *)

Lemma not_live_empty d : ¬ live d → cells d = ∅.
Proof.
  intros Hd. destruct (decide (cells d = ∅)) as [|Hne]; [done|].
  by apply live_nonempty in Hne.
Qed.

Lemma dead_not_known (known : list sentence) d :
  Forall live known → ¬ live d → d ∉ known.
Proof. intros Hall Hd Hin. rewrite Forall_forall in Hall. auto. Qed.

Lemma make_inference_dead known known' i j s1 s2 d :
  make_inference known i j s1 s2 = Some d → ¬ live d → Forall live known' →
  make_inference known' i j s1 s2 = Some d.
Proof.
  unfold make_inference. intros Hd Hdead Hall.
  case_decide; [done|].
  destruct (decide (size (cells s2) < size (cells s1))%nat).
  - case_decide; [|done]. case_decide; [|done]. injection Hd as <-.
    rewrite decide_True; [done|]. by apply dead_not_known.
  - case_decide; [|done]. case_decide; [|done]. injection Hd as <-.
    rewrite decide_True; [done|]. by apply dead_not_known.
Qed.

Lemma pairs_dead_le known known' xs ys :
  Forall live known' →
  (length (filter (λ d, ¬ live d) (infer_pairs known xs ys))
   ≤ length (infer_pairs known' xs ys))%nat.
Proof.
  intros Hall. unfold infer_pairs.
  induction xs as [|p xs IHx]; [done|].
  rewrite !bind_cons, filter_app, !length_app.
  apply Nat.add_le_mono; [|exact IHx]. clear IHx.
  induction ys as [|q ys IHy]; [done|].
  rewrite !bind_cons, filter_app, !length_app.
  apply Nat.add_le_mono; [|exact IHy]. clear IHy.
  destruct (make_inference known p.1 q.1 p.2 q.2) as [d|] eqn:Hd; [|cbn; lia].
  change (option_list (Some d)) with [d]. rewrite filter_cons.
  destruct (decide (¬ live d)) as [Hdead|Hlive]; [|cbn; lia].
  by rewrite (make_inference_dead _ known' _ _ _ _ _ Hd Hdead Hall).
Qed.

Lemma length_infer_pairs_app_r known xs ys zs :
  length (infer_pairs known xs (ys ++ zs)) =
  (length (infer_pairs known xs ys) + length (infer_pairs known xs zs))%nat.
Proof.
  unfold infer_pairs. induction xs as [|p xs IH]; [done|].
  rewrite !bind_cons, !length_app, IH, bind_app, length_app. lia.
Qed.

Lemma infer_pairs_app_l known xs xs' ys :
  infer_pairs known (xs ++ xs') ys =
  infer_pairs known xs ys ++ infer_pairs known xs' ys.
Proof. unfold infer_pairs. apply bind_app. Qed.

Lemma enumerate_app (k d : list sentence) :
  enumerate (k ++ d) = enumerate k ++ imap (λ i, pair (length k + i)%nat) d.
Proof. unfold enumerate. by rewrite imap_app. Qed.

Lemma length_filter_split (k : list sentence) :
  length k =
  (length (filter live k) + length (filter (λ d, ¬ live d) k))%nat.
Proof.
  induction k as [|s k IH]; [done|]. rewrite !filter_cons.
  destruct (decide (live s)).
  - rewrite decide_False by tauto. cbn. lia.
  - rewrite decide_True by done. cbn. lia.
Qed.

Lemma filter_live_all (k : list sentence) : Forall live k → filter live k = k.
Proof.
  induction 1 as [|s k Hs _ IH]; [done|].
  by rewrite filter_cons, decide_True, IH.
Qed.

(** A pass that adds a live sentence on the cell set of a sentence already
    there makes the next pass derive strictly more sentences than the
    empty ones derived before. *)
Lemma new_sentences_grow (k d : list sentence) s e :
  Forall live k → Forall live d →
  s ∈ k → e ∈ d → cells s = cells e →
  (length (filter (λ x, ¬ live x) (new_sentences k))
   < length (new_sentences (k ++ d)))%nat.
Proof.
  intros Hk Hd Hs He Hcells.
  assert (Hlive : Forall live (k ++ d)) by (apply Forall_app; done).
  unfold new_sentences. rewrite enumerate_app.
  set (ek := enumerate k). set (ed := imap (λ i, pair (length k + i)%nat) d).
  rewrite infer_pairs_app_l, length_app, length_infer_pairs_app_r.
  pose proof (pairs_dead_le k (k ++ d) ek ek Hlive) as Hle.
  assert (0 < length (infer_pairs (k ++ d) ek ed))%nat; [|lia].
  apply list_elem_of_lookup in Hs as [i Hi].
  apply list_elem_of_lookup in He as [j Hj].
  set (x := Sentence (cells e ∖ cells s) (count e - count s)).
  assert (Hx : x ∈ infer_pairs (k ++ d) ek ed).
  { apply elem_of_infer_pairs. exists (i, s), ((length k + j)%nat, e).
    split; [by apply elem_of_enumerate|]. split.
    - unfold ed. by apply (elem_of_lookup_imap_2 (λ i, pair (length k + i)%nat)).
    - cbn [fst snd]. rewrite make_inference_subset.
      + cbv zeta. fold x. rewrite decide_True; [done|].
        apply dead_not_known; [done|].
        intros Hl. apply live_nonempty in Hl. apply Hl. unfold x. cbn.
        apply set_eq. set_solver.
      + apply lookup_lt_Some in Hi. lia.
      + by rewrite Hcells. }
  destruct (infer_pairs (k ++ d) ek ed); [by apply elem_of_nil in Hx|cbn; lia].
Qed.

(** ** A call that does not return *)

(** On a board of one row and four columns, the calls
    [add_knowledge((0,0), 2)] and [add_knowledge((0,2), 4)] return and
    leave the state [stuck_state].  No mine layout agrees with these
    counts.  The call [add_knowledge((0,2), 8)] then adds a second
    sentence on the cells [a = (0,1)] and [b = (0,3)]; from then on every
    pass derives a sentence on [a] or on [b] with a count not seen before,
    no sentence is ever resolved, and the knowledge grows for ever. *)

Definition cell_a : Cell := (0, 1).
Definition cell_b : Cell := (0, 3).

Definition stuck_state : t :=
  AI 1 4 {[(0, 0); (0, 2)]} ∅ {[(0, 0); (0, 2)]}
     [Sentence {[cell_a]} 2; Sentence {[cell_a; cell_b]} 4;
      Sentence {[cell_b]} 2; Sentence {[cell_b]} 2;
      Sentence ∅ 0; Sentence ∅ 0].

Lemma stuck_state_reachable : reachable stuck_state.
Proof.
  assert (H1 : is_Some (add_knowledge 1 (init 1 4) (0, 0) 2))
    by (vm_compute; eauto).
  destruct H1 as [st1 H1].
  apply (reachable_add st1 (0, 2) 4 3).
  - eapply reachable_add; [apply reachable_init|exact H1].
  - assert (Hrun : (st ← add_knowledge 1 (init 1 4) (0, 0) 2;
                    add_knowledge 3 st (0, 2) 4) = Some stuck_state)
      by (vm_compute; reflexivity).
    rewrite H1 in Hrun. exact Hrun.
Qed.

(** The sentences that occur: a count of the form [4n + 2] on [a] or on
    [b], or one of the two counts on [{a, b}]. *)
Definition shaped (s : sentence) : Prop :=
  (∃ n, (cells s = {[cell_a]} ∨ cells s = {[cell_b]}) ∧ count s = 4 * n + 2) ∨
  (cells s = {[cell_a; cell_b]} ∧ (count s = 4 ∨ count s = 8)).

(** [hi] is the largest count on [a] and [lo] the smallest count on [b]. *)
Definition spreading (k : list sentence) (hi lo : Z) : Prop :=
  Forall shaped k ∧
  Sentence {[cell_a; cell_b]} 4 ∈ k ∧ Sentence {[cell_a; cell_b]} 8 ∈ k ∧
  Sentence {[cell_a]} hi ∈ k ∧ Sentence {[cell_b]} lo ∈ k ∧
  (∀ n, Sentence {[cell_a]} n ∈ k → n ≤ hi) ∧
  (∀ n, Sentence {[cell_b]} n ∈ k → lo ≤ n) ∧
  (hi + lo = 4 ∨ hi + lo = 8).

Lemma cell_a_b : cell_a ≠ cell_b.
Proof. discriminate. Qed.

Lemma shaped_live s : shaped s → live s.
Proof.
  pose proof cell_a_b.
  intros [(n & [Hc|Hc] & _)|[Hc _]]; apply live_nonempty; rewrite Hc; set_solver.
Qed.

Lemma shaped_inert s : shaped s → inert s.
Proof.
  intros [(n & Hc & Hn)|[Hc Hn]]; right.
  - assert (size (cells s) = 1%nat) as ->
      by (destruct Hc as [-> | ->]; apply size_singleton).
    lia.
  - rewrite Hc, (size_pair cell_a cell_b cell_a_b). lia.
Qed.

(** What step 3 derives from spreading knowledge. *)
Lemma derived_shape k hi lo d :
  spreading k hi lo → d ∈ new_sentences k →
  cells d = ∅ ∨
  (shaped d ∧ (cells d = {[cell_a]} → count d ≤ 8 - lo) ∧
   (cells d = {[cell_b]} → 4 - hi ≤ count d)).
Proof.
  pose proof cell_a_b as Hab.
  intros (Hshaped & _ & _ & _ & _ & Hmax & Hmin & _) Hd.
  apply new_sentences_inv in Hd as (_ & t1 & t2 & Ht1 & Ht2 & Hsub & ->).
  rewrite Forall_forall in Hshaped.
  pose proof (Hshaped t1 Ht1) as Hs1. pose proof (Hshaped t2 Ht2) as Hs2.
  destruct t1 as [c1 n1], t2 as [c2 n2]. cbn in *.
  destruct Hs1 as [(m1 & [Hc1|Hc1] & Hn1)|[Hc1 Hn1]];
  destruct Hs2 as [(m2 & [Hc2|Hc2] & Hn2)|[Hc2 Hn2]];
  cbn in Hc1, Hc2, Hn1, Hn2; subst c1 c2;
  try (left; apply set_eq; set_solver);
  try (exfalso; set_solver).
  - (* {a} inside {a, b}: a sentence on b *)
    right. pose proof (Hmax _ Ht1).
    assert (Hcells : ({[cell_a; cell_b]} ∖ {[cell_a]} : gset Cell) = {[cell_b]})
      by (apply set_eq; set_solver).
    rewrite Hcells. split; [left|split].
    + destruct Hn2 as [-> | ->]; [exists (- m1)|exists (1 - m1)];
        (split; [by right|cbn; lia]).
    + intros Heq. exfalso. set_solver.
    + intros _. lia.
  - (* {b} inside {a, b}: a sentence on a *)
    right. pose proof (Hmin _ Ht1).
    assert (Hcells : ({[cell_a; cell_b]} ∖ {[cell_b]} : gset Cell) = {[cell_a]})
      by (apply set_eq; set_solver).
    rewrite Hcells. split; [left|split].
    + destruct Hn2 as [-> | ->]; [exists (- m1)|exists (1 - m1)];
        (split; [by left|cbn; lia]).
    + intros _. lia.
    + intros Heq. exfalso. set_solver.
Qed.

(** The new extreme count is derived in the pass. *)
Lemma derived_extreme k hi lo :
  spreading k hi lo →
  (hi + lo = 4 → Sentence {[cell_a]} (8 - lo) ∈ new_sentences k) ∧
  (hi + lo = 8 → Sentence {[cell_b]} (4 - hi) ∈ new_sentences k).
Proof.
  pose proof cell_a_b as Hab.
  intros (_ & H4 & H8 & Hhi & Hlo & Hmax & Hmin & _).
  split; intros Hsum.
  - apply list_elem_of_lookup in Hlo as [i Hi].
    apply list_elem_of_lookup in H8 as [j Hj].
    apply elem_of_new_sentences.
    exists i, j, (Sentence {[cell_b]} lo), (Sentence {[cell_a; cell_b]} 8).
    split; [done|]. split; [done|].
    rewrite make_inference_subset.
    + cbn [cells count].
      replace ({[cell_a; cell_b]} ∖ {[cell_b]} : gset Cell) with ({[cell_a]} : gset Cell)
        by (apply set_eq; set_solver).
      rewrite decide_True; [done|]. intros Hin. apply Hmax in Hin. lia.
    + intros ->. rewrite Hi in Hj.
      assert (Hc : ({[cell_b]} : gset Cell) = {[cell_a; cell_b]})
        by (apply (sentence_cells_inj _ lo _ 8); congruence).
      assert (cell_a ∈ ({[cell_b]} : gset Cell)) by (rewrite Hc; set_solver).
      set_solver.
    + cbn. set_solver.
  - apply list_elem_of_lookup in Hhi as [i Hi].
    apply list_elem_of_lookup in H4 as [j Hj].
    apply elem_of_new_sentences.
    exists i, j, (Sentence {[cell_a]} hi), (Sentence {[cell_a; cell_b]} 4).
    split; [done|]. split; [done|].
    rewrite make_inference_subset.
    + cbn [cells count].
      replace ({[cell_a; cell_b]} ∖ {[cell_a]} : gset Cell) with ({[cell_b]} : gset Cell)
        by (apply set_eq; set_solver).
      rewrite decide_True; [done|]. intros Hin. apply Hmin in Hin. lia.
    + intros ->. rewrite Hi in Hj.
      assert (Hc : ({[cell_a]} : gset Cell) = {[cell_a; cell_b]})
        by (apply (sentence_cells_inj _ hi _ 4); congruence).
      assert (cell_b ∈ ({[cell_a]} : gset Cell)) by (rewrite Hc; set_solver).
      set_solver.
    + cbn. set_solver.
Qed.

(** The knowledge at the start of a pass is what the previous pass left:
    spreading live sentences followed by what step 3 derived from them. *)
Definition growing (st : t) : Prop :=
  ∃ k hi lo, knowledge st = k ++ new_sentences k ∧ spreading k hi lo.

Lemma growing_pass st :
  growing st →
  growing (pass st) ∧
  (length (knowledge st) < length (knowledge (pass st)))%nat.
Proof.
  pose proof cell_a_b as Hab.
  intros (k & hi & lo & Hk & Hsp).
  pose proof Hsp as (Hshaped & H4 & H8 & Hhi & Hlo & Hmax & Hmin & Hsum).
  assert (Hlive : Forall live k).
  { eapply Forall_impl; [exact Hshaped|]. apply shaped_live. }
  assert (Hinert : Forall inert (knowledge st)).
  { rewrite Hk. apply Forall_app. split.
    - eapply Forall_impl; [exact Hshaped|]. apply shaped_inert.
    - apply Forall_forall. intros d Hd.
      destruct (derived_shape k hi lo d Hsp Hd) as [He|[Hs _]];
        [by left|by apply shaped_inert]. }
  set (new := filter live (new_sentences k)).
  assert (Hnewlive : Forall live new).
  { apply Forall_forall. by intros d [Hd _]%list_elem_of_filter. }
  assert (Hpass : knowledge (pass st) = (k ++ new) ++ new_sentences (k ++ new)).
  { rewrite (pass_quiet st) by apply conclude_all_inert, Hinert.
    cbn [knowledge set_knowledge].
    by rewrite Hk, filter_app, (filter_live_all k Hlive). }
  assert (Hin_new : ∀ d, d ∈ new ↔ d ∈ new_sentences k ∧ live d).
  { intros d. unfold new. rewrite list_elem_of_filter. tauto. }
  pose proof (derived_extreme k hi lo Hsp) as [Hext4 Hext8].
  split.
  - exists (k ++ new).
    exists (if decide (hi + lo = 4) then 8 - lo else hi).
    exists (if decide (hi + lo = 4) then lo else 4 - hi).
    split; [done|].
    split; [|split; [|split; [|split; [|split; [|split; [|split]]]]]].
    + apply Forall_app. split; [done|].
      apply Forall_forall. intros d [Hd Hl]%Hin_new.
      destruct (derived_shape k hi lo d Hsp Hd) as [He|[Hs _]]; [|done].
      by apply live_nonempty in Hl.
    + apply elem_of_app. by left.
    + apply elem_of_app. by left.
    + apply elem_of_app. case_decide as H; [right|by left].
      apply Hin_new. split; [auto|]. apply live_nonempty. cbn. set_solver.
    + apply elem_of_app. case_decide as H; [by left|right].
      apply Hin_new. split; [apply Hext8; lia|].
      apply live_nonempty. cbn. set_solver.
    + intros n [Hn|Hn]%elem_of_app.
      * apply Hmax in Hn. case_decide; lia.
      * apply Hin_new in Hn as [Hn _].
        destruct (derived_shape k hi lo _ Hsp Hn) as [He|(_ & Hb & _)].
        { cbn in He. exfalso. set_solver. }
        specialize (Hb eq_refl). cbn in Hb. case_decide; lia.
    + intros n [Hn|Hn]%elem_of_app.
      * apply Hmin in Hn. case_decide; lia.
      * apply Hin_new in Hn as [Hn _].
        destruct (derived_shape k hi lo _ Hsp Hn) as [He|(_ & _ & Hb)].
        { cbn in He. exfalso. set_solver. }
        specialize (Hb eq_refl). cbn in Hb. case_decide; lia.
    + case_decide; lia.
  - rewrite Hpass, Hk, !length_app.
    rewrite (length_filter_split (new_sentences k)). fold new.
    assert (length (filter (λ d, ¬ live d) (new_sentences k))
            < length (new_sentences (k ++ new)))%nat; [|lia].
    destruct (decide (hi + lo = 4)) as [H|H].
    + apply (new_sentences_grow k new (Sentence {[cell_a]} hi)
               (Sentence {[cell_a]} (8 - lo))); try done.
      apply Hin_new. split; [auto|]. apply live_nonempty. cbn. set_solver.
    + apply (new_sentences_grow k new (Sentence {[cell_b]} lo)
               (Sentence {[cell_b]} (4 - hi))); try done.
      apply Hin_new. split; [apply Hext8; lia|].
      apply live_nonempty. cbn. set_solver.
Qed.

Lemma growing_never_returns fuel : ∀ st,
  growing st → fixpoint_loop fuel st = None.
Proof.
  induction fuel as [|fuel IH]; intros st Hg; [done|].
  destruct (growing_pass st Hg) as [Hg' Hlt].
  cbn [fixpoint_loop]. rewrite decide_False; [by apply IH|].
  intros (_ & _ & Hlen). lia.
Qed.

(** The live sentences after the first pass of the third call. *)
Definition stuck_live : list sentence :=
  [Sentence {[cell_a]} 2; Sentence {[cell_a; cell_b]} 4;
   Sentence {[cell_b]} 2; Sentence {[cell_b]} 2;
   Sentence {[cell_a; cell_b]} 8].

Lemma stuck_live_spreading : spreading stuck_live 2 2.
Proof.
  pose proof cell_a_b as Hab. unfold stuck_live.
  assert (Hne1 : ({[cell_a]} : gset Cell) ≠ {[cell_a; cell_b]}).
  { intros Hc. assert (cell_b ∈ ({[cell_a]} : gset Cell))
      by (rewrite Hc; set_solver). set_solver. }
  assert (Hne2 : ({[cell_b]} : gset Cell) ≠ {[cell_a; cell_b]}).
  { intros Hc. assert (cell_a ∈ ({[cell_b]} : gset Cell))
      by (rewrite Hc; set_solver). set_solver. }
  assert (Hne3 : ({[cell_a]} : gset Cell) ≠ {[cell_b]}).
  { intros Hc. assert (cell_a ∈ ({[cell_b]} : gset Cell))
      by (rewrite <- Hc; set_solver). set_solver. }
  split; [|split; [|split; [|split; [|split; [|split; [|split]]]]]].
  - repeat apply Forall_cons_2; try apply Forall_nil_2.
    + left. exists 0. split; [by left|done].
    + right. split; [done|by left].
    + left. exists 0. split; [by right|done].
    + left. exists 0. split; [by right|done].
    + right. split; [done|by right].
  - set_solver.
  - set_solver.
  - set_solver.
  - set_solver.
  - intros n Hn. repeat (apply elem_of_cons in Hn as [Hn|Hn]);
      try (by apply elem_of_nil in Hn);
      try (pose proof (sentence_cells_inj _ _ _ _ Hn); done);
      try (pose proof (sentence_cells_inj _ _ _ _ Hn) as Hc; symmetry in Hc; done).
    injection Hn as ->. lia.
  - intros n Hn. repeat (apply elem_of_cons in Hn as [Hn|Hn]);
      try (by apply elem_of_nil in Hn);
      try (pose proof (sentence_cells_inj _ _ _ _ Hn); done);
      try (pose proof (sentence_cells_inj _ _ _ _ Hn) as Hc; symmetry in Hc; done);
      injection Hn as ->; lia.
  - by left.
Qed.

(** C2 fails on the code: from the reachable state [stuck_state] the call
    [add_knowledge((0,2), 8)] runs out of every amount of fuel. *)
Lemma add_knowledge_diverges :
  reachable stuck_state ∧
  ∀ fuel, add_knowledge fuel stuck_state (0, 2) 8 = None.
Proof.
  split; [apply stuck_state_reachable|]. intros fuel.
  set (start := set_knowledge
                  (knowledge stuck_state ++ [Sentence {[cell_a; cell_b]} 8])
                  stuck_state).
  assert (Hcall : add_knowledge fuel stuck_state (0, 2) 8
                  = fixpoint_loop fuel start).
  { rewrite add_knowledge_unfold. cbv zeta.
    assert (Hplayed : played (0, 2) stuck_state = stuck_state)
      by (vm_compute; reflexivity).
    assert (Hcells : unknown_neighbors (0, 2) stuck_state = {[cell_a; cell_b]})
      by (vm_compute; reflexivity).
    assert (Hcount : remaining_count (0, 2) 8 stuck_state = 8)
      by (vm_compute; reflexivity).
    rewrite Hplayed, Hcells, Hcount.
    rewrite decide_False by (rewrite (size_pair _ _ cell_a_b); lia).
    rewrite decide_False; [done|].
    apply (bool_decide_unpack _). vm_compute. exact I. }
  rewrite Hcall. destruct fuel as [|fuel]; [done|].
  cbn [fixpoint_loop].
  assert (Hpass : knowledge (pass start)
                  = stuck_live ++ new_sentences stuck_live)
    by (vm_compute; reflexivity).
  rewrite decide_False.
  - apply growing_never_returns. exists stuck_live, 2, 2.
    split; [exact Hpass|apply stuck_live_spreading].
  - intros (_ & _ & Hlen). rewrite Hpass in Hlen. vm_compute in Hlen.
    discriminate.
Qed.

(** ** Further properties of the knowledge base *)

(** *** Neighbours *)

Lemma elem_of_three (x a : Z) : x ∈ [a - 1; a; a + 1] ↔ a - 1 ≤ x ≤ a + 1.
Proof.
  rewrite !elem_of_cons, elem_of_nil. lia.
Qed.

Lemma size_list_to_set_le (l : list Cell) :
  (size (list_to_set l : gset Cell) ≤ length l)%nat.
Proof.
  induction l as [|x l IH]; cbn [list_to_set length].
  - by rewrite size_empty.
  - rewrite size_union_alt, size_singleton.
    assert (size (list_to_set l ∖ {[x]} : gset Cell) ≤ size (list_to_set l : gset Cell))%nat
      by (apply subseteq_size; set_solver).
    lia.
Qed.

Lemma elem_of_get_neighbors st c c' :
  c' ∈ get_neighbors st c ↔
  c' ≠ c ∧ c.1 - 1 ≤ c'.1 ≤ c.1 + 1 ∧ c.2 - 1 ≤ c'.2 ≤ c.2 + 1 ∧
  0 ≤ c'.1 < height st ∧ 0 ≤ c'.2 < width st.
Proof.
  unfold get_neighbors. rewrite elem_of_list_to_set, list_elem_of_bind. split.
  - intros (i & Hin & Hi). apply list_elem_of_bind in Hin as (j & Hin & Hj).
    apply elem_of_three in Hi, Hj.
    case_decide as Hself; [by apply elem_of_nil in Hin|].
    case_decide as Hbounds; [|by apply elem_of_nil in Hin].
    apply list_elem_of_singleton in Hin as ->. cbn. tauto.
  - intros (Hne & Hi & Hj & Hbi & Hbj). destruct c' as [i j].
    cbn [fst snd] in *. exists i. split; [|by apply elem_of_three].
    apply list_elem_of_bind. exists j. split; [|by apply elem_of_three].
    rewrite decide_False by done. rewrite decide_True by done.
    by apply list_elem_of_singleton.
Qed.

(** X9. The neighbours of a cell are exactly the cells of the grid other
    than the cell itself that are at most one row and one column away;
    there are at most eight, and inside the grid being a neighbour is
    symmetric. *)
Theorem get_neighbors_spec (st : t) (c c' : Cell) :
  (c' ∈ get_neighbors st c ↔
     c' ≠ c ∧ c.1 - 1 ≤ c'.1 ≤ c.1 + 1 ∧ c.2 - 1 ≤ c'.2 ≤ c.2 + 1 ∧
     0 ≤ c'.1 < height st ∧ 0 ≤ c'.2 < width st) ∧
  (size (get_neighbors st c) ≤ 8)%nat ∧
  (0 ≤ c.1 < height st → 0 ≤ c.2 < width st →
   c' ∈ get_neighbors st c → c ∈ get_neighbors st c').
Proof.
  split; [apply elem_of_get_neighbors|]. split.
  - set (ring := [(c.1 - 1, c.2 - 1); (c.1 - 1, c.2); (c.1 - 1, c.2 + 1);
                  (c.1, c.2 - 1); (c.1, c.2 + 1);
                  (c.1 + 1, c.2 - 1); (c.1 + 1, c.2); (c.1 + 1, c.2 + 1)]).
    transitivity (size (list_to_set ring : gset Cell));
      [|apply (size_list_to_set_le ring)].
    apply subseteq_size. intros [i j] (Hne & Hi & Hj & _)%elem_of_get_neighbors.
    destruct c as [ci cj]. cbn [fst snd] in *.
    apply elem_of_list_to_set. unfold ring. cbn [fst snd].
    rewrite !elem_of_cons.
    assert (i = ci - 1 ∨ i = ci ∨ i = ci + 1) as [-> | [-> | ->]] by lia;
    assert (j = cj - 1 ∨ j = cj ∨ j = cj + 1) as [-> | [-> | ->]] by lia;
    try done; auto 12.
  - intros Hi Hj Hc. apply elem_of_get_neighbors in Hc as (Hne & ? & ? & ? & ?).
    apply elem_of_get_neighbors. repeat split; try lia; try done.
Qed.

Lemma get_neighbors_spec_witness :
  (0, 0) ∈ get_neighbors (init 2 2) (1, 1).
Proof.
  apply (proj2 (proj2 (get_neighbors_spec (init 2 2) (0, 0) (1, 1)))).
  - cbn. lia.
  - cbn. lia.
  - apply (bool_decide_unpack _). vm_compute. exact I.
Defined.

(** *** Soundness of the rules *)

(** X10. If a sentence is true of a mine layout [M], then its count lies
    between 0 and the number of its cells, the cells [known_mines]
    reports are mines of [M], the cells [known_safes] reports are not,
    and the sentence stays true when a cell that is a mine is removed by
    [mark_mine] or a cell that is not a mine is removed by [mark_safe]. *)
Theorem sentence_rules_sound (M : gset Cell) (s : sentence) (c : Cell) :
  true_of M s →
  0 ≤ count s ≤ Z.of_nat (size (cells s)) ∧
  known_mines s ⊆ M ∧
  known_safes s ## M ∧
  (c ∈ M → true_of M (Sentence.mark_mine c s)) ∧
  (c ∉ M → true_of M (Sentence.mark_safe c s)).
Proof.
  intros Hs. split; [|split; [|split; [|split]]].
  - unfold true_of in Hs. rewrite Hs.
    assert (size (cells s ∩ M) ≤ size (cells s))%nat
      by (apply subseteq_size; set_solver).
    lia.
  - unfold known_mines. case_decide as Hfull; [|set_solver].
    intros x Hx. by apply (true_of_full M s x).
  - unfold known_safes. case_decide as H0; [|set_solver].
    intros x Hx HM. by apply (true_of_zero M s x Hs H0 Hx).
  - intros Hc. by apply true_of_mark_mine.
  - intros Hc. by apply true_of_mark_safe.
Qed.

Lemma sentence_rules_sound_witness :
  known_mines (Sentence {[(0, 0); (0, 1)]} 2) ⊆ {[(0, 0); (0, 1); (5, 5)]}.
Proof.
  apply (sentence_rules_sound {[(0, 0); (0, 1); (5, 5)]}
           (Sentence {[(0, 0); (0, 1)]} 2) (0, 0)).
  vm_compute. reflexivity.
Defined.

(** X11. Subset inference is sound: when [make_inference] derives a
    sentence from two sentences that are true of a mine layout, the
    derived sentence is true of it; it mentions only cells of the larger
    sentence and is not among the known sentences. *)
Theorem make_inference_sound (M : gset Cell) (known : list sentence)
    (i j : nat) (s1 s2 d : sentence) :
  true_of M s1 → true_of M s2 →
  make_inference known i j s1 s2 = Some d →
  true_of M d ∧ cells d ⊆ cells s1 ∪ cells s2 ∧ (d ∉ known) ∧ i ≠ j.
Proof.
  intros H1 H2 Hd.
  apply make_inference_Some in Hd as (Hij & Hnew & t1 & t2 & Hor & Hsub & ->).
  split; [|split; [|done]].
  - destruct Hor as [[-> ->]|[-> ->]]; by apply true_of_difference.
  - cbn. destruct Hor as [[-> ->]|[-> ->]]; set_solver.
Qed.

Lemma make_inference_sound_witness :
  true_of {[(0, 2)]} (Sentence {[(0, 2)]} 1).
Proof.
  assert (Hd : make_inference [] 0 1 (Sentence {[(0, 0); (0, 1)]} 0)
                 (Sentence {[(0, 0); (0, 1); (0, 2)]} 1)
               = Some (Sentence {[(0, 2)]} 1)) by (vm_compute; reflexivity).
  assert (H1 : true_of {[(0, 2)]} (Sentence {[(0, 0); (0, 1)]} 0))
    by (vm_compute; reflexivity).
  assert (H2 : true_of {[(0, 2)]} (Sentence {[(0, 0); (0, 1); (0, 2)]} 1))
    by (vm_compute; reflexivity).
  exact (proj1 (make_inference_sound _ _ _ _ _ _ _ H1 H2 Hd)).
Defined.

(** *** What [make_conclusion] does to the state *)

(** Marking every cell of [l] as safe, in any order. *)
Definition all_marked_safe (l : list Cell) (st : t) : t :=
  AI (height st) (width st) (moves_made st) (mines st)
     (list_to_set l ∪ safes st)
     ((λ s, Sentence (cells s ∖ list_to_set l) (count s)) <$> knowledge st).

(** Marking every cell of [l] as a mine, in any order. *)
Definition all_marked_mine (l : list Cell) (st : t) : t :=
  AI (height st) (width st) (moves_made st)
     (list_to_set l ∪ mines st) (safes st)
     ((λ s, Sentence (cells s ∖ list_to_set l)
                     (count s - Z.of_nat (size (cells s ∩ list_to_set l))))
        <$> knowledge st).

Lemma fold_mark_safe_closed l : ∀ st,
  foldl (λ st cell, mark_safe cell st) st l = all_marked_safe l st.
Proof.
  induction l as [|c l IH]; intros st; cbn [foldl].
  - unfold all_marked_safe. destruct st as [h w mm mi sa k]. cbn. f_equal.
    + apply set_eq. set_solver.
    + rewrite <- (list_fmap_id k) at 1. apply list_fmap_ext. intros _ s _.
      apply sentence_eq; cbn; [apply set_eq; set_solver|done].
  - rewrite IH. unfold all_marked_safe, mark_safe. cbn. f_equal.
    + apply set_eq. set_solver.
    + rewrite <- list_fmap_compose. apply list_fmap_ext. intros _ s _. cbn.
      apply sentence_eq; cbn; [|by rewrite mark_safe_count].
      rewrite mark_safe_cells. apply set_eq. set_solver.
Qed.

Lemma fold_mark_mine_closed l : ∀ st,
  NoDup l →
  foldl (λ st cell, mark_mine cell st) st l = all_marked_mine l st.
Proof.
  induction l as [|c l IH]; intros st Hnd; cbn [foldl].
  - unfold all_marked_mine. destruct st as [h w mm mi sa k]. cbn. f_equal.
    + apply set_eq. set_solver.
    + rewrite <- (list_fmap_id k) at 1. apply list_fmap_ext. intros _ s _.
      apply sentence_eq; cbn; [apply set_eq; set_solver|].
      replace (cells s ∩ ∅) with (∅ : gset Cell) by (apply set_eq; set_solver).
      rewrite size_empty. lia.
  - apply NoDup_cons in Hnd as [Hc Hnd]. rewrite IH by done.
    unfold all_marked_mine, mark_mine. cbn. f_equal.
    + apply set_eq. set_solver.
    + rewrite <- list_fmap_compose. apply list_fmap_ext. intros _ s _. cbn.
      assert (Hcl : c ∉ (list_to_set l : gset Cell)) by set_solver.
      apply sentence_eq; cbn.
      * rewrite mark_mine_cells. apply set_eq. set_solver.
      * rewrite mark_mine_cells.
        replace ((cells s ∖ {[c]}) ∩ list_to_set l)
          with (cells s ∩ list_to_set l) by (apply set_eq; set_solver).
        destruct (decide (c ∈ cells s)) as [Hin|Hout].
        -- rewrite mark_mine_count_in by done.
           replace (cells s ∩ ({[c]} ∪ list_to_set l))
             with ({[c]} ∪ cells s ∩ list_to_set l)
             by (apply set_eq; set_solver).
           rewrite (size_union {[c]} (cells s ∩ list_to_set l)) by set_solver.
           rewrite size_singleton. lia.
        -- rewrite mark_mine_count_out by done.
           replace (cells s ∩ ({[c]} ∪ list_to_set l))
             with (cells s ∩ list_to_set l)
             by (apply set_eq; set_solver).
           done.
Qed.

(** X12. [make_conclusion] on a sentence of count 0 adds all its cells to
    [safes] and removes them from every sentence; on a sentence whose
    count is the number of its cells it adds them to [mines], removes
    them from every sentence and lowers each count by the number of cells
    removed; otherwise it changes nothing.  The outcome depends only on
    the set of cells, not on the order in which the copy of the set is
    iterated. *)
Theorem make_conclusion_effect (st : t) (k : nat) (s : sentence)
    (l : list Cell) :
  knowledge st !! k = Some s → NoDup l → list_to_set l = cells s →
  make_conclusion st k =
    (if decide (count s = 0) then all_marked_safe l st
     else if decide (Z.of_nat (size (cells s)) = count s)
          then all_marked_mine l st
          else st) ∧
  foldl (λ st cell, mark_safe cell st) st l =
    foldl (λ st cell, mark_safe cell st) st (elements (cells s)) ∧
  foldl (λ st cell, mark_mine cell st) st l =
    foldl (λ st cell, mark_mine cell st) st (elements (cells s)).
Proof.
  intros Hk Hnd Hl.
  assert (Hsafe : all_marked_safe l st = all_marked_safe (elements (cells s)) st).
  { unfold all_marked_safe. by rewrite Hl, list_to_set_elements_L. }
  assert (Hmine : all_marked_mine l st = all_marked_mine (elements (cells s)) st).
  { unfold all_marked_mine. by rewrite Hl, list_to_set_elements_L. }
  split; [|split].
  - unfold make_conclusion. rewrite Hk. case_decide.
    + by rewrite fold_mark_safe_closed.
    + case_decide; [|done].
      by rewrite fold_mark_mine_closed by apply NoDup_elements.
  - by rewrite !fold_mark_safe_closed.
  - rewrite !fold_mark_mine_closed; [done|apply NoDup_elements|done].
Qed.

Lemma make_conclusion_effect_witness :
  make_conclusion (AI 1 2 ∅ ∅ ∅ [Sentence {[(0, 1)]} 1]) 0 =
  all_marked_mine [(0, 1)] (AI 1 2 ∅ ∅ ∅ [Sentence {[(0, 1)]} 1]).
Proof.
  refine (proj1 (make_conclusion_effect _ 0 (Sentence {[(0, 1)]} 1) [(0, 1)]
                   _ _ _)).
  - reflexivity.
  - apply NoDup_singleton.
  - vm_compute. reflexivity.
Defined.

(** *** What a call never takes back *)

(** [st] has the grid and the moves of [st0] and knows at least as much. *)
Definition extends (st0 st : t) : Prop :=
  height st = height st0 ∧ width st = width st0 ∧
  moves_made st = moves_made st0 ∧
  mines st0 ⊆ mines st ∧ safes st0 ⊆ safes st.

Lemma extends_fixpoint_loop st0 fuel st st' :
  extends st0 st → fixpoint_loop fuel st = Some st' → extends st0 st'.
Proof.
  apply (fixpoint_loop_rule (extends st0)).
  - intros st1 c s (? & ? & ? & ? & ?) _ _ _. repeat split; try done.
    cbn. set_solver.
  - intros st1 c s (? & ? & ? & ? & ?) _ _ _. repeat split; try done.
    cbn. set_solver.
  - intros st1 (? & ? & ? & ? & ?). by repeat split.
  - intros st1 (? & ? & ? & ? & ?). by repeat split.
Qed.

Lemma add_knowledge_frame fuel st cell count st' :
  add_knowledge fuel st cell count = Some st' →
  height st' = height st ∧ width st' = width st ∧
  moves_made st' = {[cell]} ∪ moves_made st ∧
  mines st ⊆ mines st' ∧ {[cell]} ∪ safes st ⊆ safes st'.
Proof.
  rewrite add_knowledge_unfold. cbv zeta.
  assert (Hplayed : extends (played cell st) (played cell st)) by (by repeat split).
  assert (Hext : extends (played cell st) st' →
                 height st' = height st ∧ width st' = width st ∧
                 moves_made st' = {[cell]} ∪ moves_made st ∧
                 mines st ⊆ mines st' ∧ {[cell]} ∪ safes st ⊆ safes st').
  { intros (? & ? & ? & ? & ?). by repeat split. }
  case_decide; [intros [= <-]; by apply Hext|].
  case_decide; [intros [= <-]; by apply Hext|].
  intros Hrun. apply Hext.
  eapply extends_fixpoint_loop; [|exact Hrun]. by repeat split.
Qed.

(** X13. Whenever [add_knowledge] returns, the grid is unchanged, the
    probed cell has been added to [moves_made] and nothing else has, the
    probed cell is in [safes], and every cell that was in [mines] or in
    [safes] before is still there: nothing known is ever retracted. *)
Theorem add_knowledge_monotone (fuel : nat) (st st' : t)
    (cell : Cell) (count : Z) :
  add_knowledge fuel st cell count = Some st' →
  height st' = height st ∧ width st' = width st ∧
  moves_made st' = {[cell]} ∪ moves_made st ∧
  mines st ⊆ mines st' ∧ safes st ⊆ safes st' ∧ cell ∈ safes st'.
Proof.
  intros (Hh & Hw & Hm & Hmi & Hsa)%add_knowledge_frame.
  repeat split; try done; set_solver.
Qed.

Lemma add_knowledge_monotone_witness :
  ∃ st', add_knowledge 1 (init 2 3) (0, 0) 1 = Some st' ∧ (0, 0) ∈ safes st'.
Proof.
  destruct (add_knowledge 1 (init 2 3) (0, 0) 1) as [st'|] eqn:H;
    [|vm_compute in H; discriminate].
  exists st'. split; [reflexivity|].
  exact (proj2 (proj2 (proj2 (proj2 (proj2
           (add_knowledge_monotone 1 (init 2 3) st' (0, 0) 1 H)))))).
Defined.

(** *** What every reachable state satisfies *)

(** Every cell of a sentence lies in the grid. *)
Definition in_grid (st : t) : Prop :=
  ∀ s c, s ∈ knowledge st → c ∈ cells s →
  0 ≤ c.1 < height st ∧ 0 ≤ c.2 < width st.

Lemma in_grid_fixpoint_loop fuel st st' :
  in_grid st → fixpoint_loop fuel st = Some st' → in_grid st'.
Proof.
  apply (fixpoint_loop_rule in_grid).
  - intros st1 c s Hg _ _ _ s' c' (s0 & -> & Hs0)%list_elem_of_fmap Hc'.
    rewrite mark_safe_cells in Hc'. apply (Hg s0 c'); [done|set_solver].
  - intros st1 c s Hg _ _ _ s' c' (s0 & -> & Hs0)%list_elem_of_fmap Hc'.
    rewrite mark_mine_cells in Hc'. apply (Hg s0 c'); [done|set_solver].
  - intros st1 Hg s c [_ Hs]%list_elem_of_filter Hc. by apply (Hg s c).
  - intros st1 Hg s c Hs Hc. cbn in Hs.
    apply elem_of_app in Hs as [Hs|Hs]; [by apply (Hg s c)|].
    apply new_sentences_inv in Hs as (_ & t1 & t2 & _ & Ht2 & _ & ->).
    cbn in Hc. apply (Hg t2 c); [done|set_solver].
Qed.

Lemma in_grid_add_knowledge fuel st cell count st' :
  in_grid st → add_knowledge fuel st cell count = Some st' → in_grid st'.
Proof.
  intros Hg. rewrite add_knowledge_unfold. cbv zeta.
  assert (Hplayed : in_grid (played cell st)).
  { intros s c (s0 & -> & Hs0)%list_elem_of_fmap Hc.
    rewrite mark_safe_cells in Hc. apply (Hg s0 c); [done|set_solver]. }
  case_decide; [by intros [= <-]|]. case_decide; [by intros [= <-]|].
  apply in_grid_fixpoint_loop. intros s c Hs Hc. cbn [knowledge set_knowledge] in Hs.
  apply elem_of_app in Hs as [Hs|Hs]; [by apply (Hplayed s c)|].
  apply list_elem_of_singleton in Hs as ->. cbn [cells] in Hc.
  unfold unknown_neighbors in Hc.
  assert (Hn : c ∈ get_neighbors (played cell st) cell) by set_solver.
  apply elem_of_get_neighbors in Hn. tauto.
Qed.

(** X14. In every state reached by calls of [add_knowledge] on a fresh
    AI: every played cell is in [safes]; a cell that is both in [safes]
    and in [mines] has been played; and every sentence mentions only
    cells of the grid that are neither played nor known to be safe or a
    mine. *)
Theorem reachable_invariant (st : t) (s : sentence) (c : Cell) :
  reachable st →
  moves_made st ⊆ safes st ∧
  safes st ∩ mines st ⊆ moves_made st ∧
  (s ∈ knowledge st → c ∈ cells s →
   (c ∉ moves_made st) ∧ (c ∉ safes st) ∧ (c ∉ mines st) ∧
   0 ≤ c.1 < height st ∧ 0 ≤ c.2 < width st).
Proof.
  intros Hreach.
  assert (Hplayed : moves_made st ⊆ safes st ∧ in_grid st).
  { clear s c. induction Hreach as [h w|st cell count fuel st' _ [IH1 IH2] Hadd].
    - split; [cbn; set_solver|]. intros s c Hs. by apply elem_of_nil in Hs.
    - split; [|by eapply in_grid_add_knowledge].
      apply add_knowledge_frame in Hadd as (_ & _ & -> & _ & Hs). set_solver. }
  destruct Hplayed as [Hsafe Hgrid].
  destruct (reachable_Inv st Hreach) as [HI HH].
  split; [done|]. split; [done|]. intros Hs Hc.
  pose proof (HI s Hs). pose proof (Hgrid s c Hs Hc).
  repeat split; try tauto; set_solver.
Qed.

Lemma reachable_invariant_witness :
  moves_made (init 8 8) ⊆ safes (init 8 8).
Proof.
  exact (proj1 (reachable_invariant (init 8 8) (Sentence ∅ 0) (0, 0)
                  (reachable_init 8 8))).
Defined.

(** *** Truthful input keeps the knowledge truthful *)

Lemma truthful_add_knowledge M fuel st cell count st' :
  truthful M st → cell ∉ M →
  count = Z.of_nat (size (get_neighbors st cell ∩ M)) →
  add_knowledge fuel st cell count = Some st' →
  truthful M st'.
Proof.
  intros Htrue Hcell Hcount. rewrite add_knowledge_unfold. cbv zeta.
  pose proof (truthful_played M st cell Htrue Hcell) as Hplayed.
  case_decide; [by intros [= <-]|]. case_decide; [by intros [= <-]|].
  apply truthful_fixpoint_loop.
  destruct Hplayed as (Hm & Hs & Hall). split; [done|]. split; [done|].
  intros s Hin. cbn [knowledge set_knowledge] in Hin.
  apply elem_of_app in Hin as [Hin|Hin]; [auto|].
  apply list_elem_of_singleton in Hin as ->.
  apply true_of_new_sentence; [done|done|exact Hcount].
Qed.

(** *** [make_random_move] *)

(** [set(itertools.product(range(self.height), range(self.width)))] *)
Definition grid (self : t) : gset Cell :=
  list_to_set (i ← seqZ 0 (height self); j ← seqZ 0 (width self); [(i, j)]).

#[global] Typeclasses Opaque grid.

(** [make_random_move] as a state transformer, with the index drawn by
    [random.choice] made explicit. *)
Definition make_random_move (rnd : nat) (self : t) : option Cell * t :=
  let choices := grid self in
  let choices := choices ∖ moves_made self ∖ mines self in
  (if decide (size choices ≠ 0%nat) then choice rnd (elements choices)
   else None, self).

Lemma elem_of_grid st c :
  c ∈ grid st ↔ 0 ≤ c.1 < height st ∧ 0 ≤ c.2 < width st.
Proof.
  unfold grid. rewrite elem_of_list_to_set, list_elem_of_bind. split.
  - intros (i & Hin & Hi). apply list_elem_of_bind in Hin as (j & Hin & Hj).
    apply list_elem_of_singleton in Hin as ->.
    apply elem_of_seqZ in Hi, Hj. cbn. lia.
  - intros [Hi Hj]. destruct c as [i j]. cbn [fst snd] in *.
    exists i. split; [|apply elem_of_seqZ; lia].
    apply list_elem_of_bind. exists j. split; [|apply elem_of_seqZ; lia].
    by apply list_elem_of_singleton.
Qed.

(** X15. In any state [make_random_move] leaves the state as it was and
    returns a cell of the grid that is neither played nor known to be a
    mine, or the no-move sentinel when the grid has no such cell. *)
Theorem make_random_move_sound (rnd : nat) (st : t) :
  (make_random_move rnd st).2 = st ∧
  match (make_random_move rnd st).1 with
  | Some c => 0 ≤ c.1 < height st ∧ 0 ≤ c.2 < width st ∧
              (c ∉ moves_made st) ∧ (c ∉ mines st)
  | None => ¬ ∃ c, 0 ≤ c.1 < height st ∧ 0 ≤ c.2 < width st ∧
                   (c ∉ moves_made st) ∧ (c ∉ mines st)
  end.
Proof.
  split; [done|]. unfold make_random_move. cbn [fst].
  set (choices := grid st ∖ moves_made st ∖ mines st).
  case_decide as Hsz.
  - destruct (choice_Some rnd (elements choices)) as (c & -> & Hc).
    + intros Hnil. apply Hsz. unfold size, set_size. cbn. by rewrite Hnil.
    + apply elem_of_elements in Hc. unfold choices in Hc.
      assert (Hg : c ∈ grid st) by set_solver.
      apply elem_of_grid in Hg. repeat split; try tauto; set_solver.
  - intros (c & Hi & Hj & Hm & Hmi).
    assert (Hempty : choices ≡ ∅) by (apply size_empty_iff; lia).
    assert (Hg : c ∈ grid st) by (by apply elem_of_grid).
    unfold choices in Hempty. set_solver.
Qed.

End MinesweeperAI.

(** ** [class Minesweeper]: the game *)

Module Minesweeper.

Record t := Game {
  height : Z;
  width : Z;
  mines : gset Cell;
  board : list (list bool);
  mines_found : gset Cell
}.

(** What the constructor can do: return the game, raise [ValueError]
    (from [random.randrange] on an empty range), or still be looping
    when the supply of random draws ends. *)
Inductive outcome :=
  | Done (g : t)
  | ValueError
  | NoMoreDraws.

(** The empty field built by the two nested loops of [__init__]. *)
Definition empty_board (height width : Z) : list (list bool) :=
  replicate (Z.to_nat height) (replicate (Z.to_nat width) false).

(** [board[i][j]] for indices inside the field. *)
Definition board_at (b : list (list bool)) (i j : Z) : bool :=
  ((b !!! Z.to_nat i) : list bool) !!! Z.to_nat j.

(** [board[i][j] = True] *)
Definition board_set (b : list (list bool)) (i j : Z) : list (list bool) :=
  <[Z.to_nat i := <[Z.to_nat j := true]> ((b !!! Z.to_nat i) : list bool)]> b.

(** [while len(self.mines) != mines: ...].  [draws] are the pairs
    [(random.randrange(height), random.randrange(width))] in the order in
    which the loop draws them; [randrange(n)] answers some [i] with
    [0 <= i < n] and raises [ValueError] when [n <= 0]. *)
Fixpoint add_mines (target : Z) (draws : list (Z * Z)) (self : t) : outcome :=
  if decide (Z.of_nat (size (mines self)) = target) then Done self
  else if decide (height self ≤ 0 ∨ width self ≤ 0) then ValueError
  else
    match draws with
    | [] => NoMoreDraws
    | (i, j) :: draws' =>
      if board_at (board self) i j
      then add_mines target draws' self
      else
        add_mines target draws'
          (Game (height self) (width self) ({[(i, j)]} ∪ mines self)
                (board_set (board self) i j) (mines_found self))
    end.

(** [__init__(height, width, mines)] *)
Definition init (height width mines : Z) (draws : list (Z * Z)) : outcome :=
  add_mines mines draws (Game height width ∅ (empty_board height width) ∅).

(** [is_mine(cell)], for a cell of the field (for a cell outside it
    Python raises [IndexError] or wraps a negative index; the theorems
    below ask it only about cells inside). *)
Definition is_mine (self : t) (cell : Cell) : bool :=
  board_at (board self) cell.1 cell.2.

(** The nine positions visited by the two loops of [nearby_mines]. *)
Definition around (cell : Cell) : list Cell :=
  i ← [cell.1 - 1; cell.1; cell.1 + 1];
  j ← [cell.2 - 1; cell.2; cell.2 + 1];
  [(i, j)].

Definition nearby_mines (self : t) (cell : Cell) : Z :=
  foldl (λ count p,
           if decide (p = cell) then count
           else if decide (0 ≤ p.1 < height self ∧ 0 ≤ p.2 < width self)
                then if is_mine self p then count + 1 else count
                else count)
        0 (around cell).

(** [won()] *)
Definition won (self : t) : bool :=
  bool_decide (mines_found self = mines self).

(** *** The field and the set of mines agree *)

Definition inside (self : t) (c : Cell) : Prop :=
  0 ≤ c.1 < height self ∧ 0 ≤ c.2 < width self.

(** The field has the stated size, and it holds [True] exactly at the
    cells of [mines], all of which lie inside. *)
Definition well_formed (self : t) : Prop :=
  length (board self) = Z.to_nat (height self) ∧
  Forall (λ row, length row = Z.to_nat (width self)) (board self) ∧
  (∀ c, c ∈ mines self → inside self c) ∧
  (∀ c, inside self c → is_mine self c = true ↔ c ∈ mines self).

Definition valid_draw (self : t) (d : Z * Z) : Prop :=
  0 ≤ d.1 < height self ∧ 0 ≤ d.2 < width self.

Lemma board_at_set b i j i' j' h w :
  length b = h → Forall (λ row, length row = w) b →
  (Z.to_nat i < h)%nat → (Z.to_nat j < w)%nat → 0 ≤ i → 0 ≤ j →
  0 ≤ i' → 0 ≤ j' →
  board_at (board_set b i j) i' j' =
  if decide ((i', j') = (i, j)) then true else board_at b i' j'.
Proof.
  intros Hlen Hrows Hi Hj Hi0 Hj0 Hi'0 Hj'0. unfold board_at, board_set.
  assert (Hrow : length (b !!! Z.to_nat i : list bool) = w).
  { destruct (lookup_lt_is_Some_2 b (Z.to_nat i)) as [row Hrow]; [lia|].
    rewrite (list_lookup_total_correct _ _ _ Hrow).
    rewrite Forall_forall in Hrows. eapply Hrows, list_elem_of_lookup_2, Hrow. }
  destruct (decide (Z.to_nat i' = Z.to_nat i)) as [Heq|Hne].
  - rewrite Heq, list_lookup_total_insert_eq by lia.
    destruct (decide (Z.to_nat j' = Z.to_nat j)) as [Heqj|Hnej].
    + rewrite Heqj, list_lookup_total_insert_eq by lia.
      rewrite decide_True; [done|]. f_equal; lia.
    + rewrite list_lookup_total_insert_ne by done.
      rewrite decide_False; [done|]. intros [= -> ->]. done.
  - rewrite list_lookup_total_insert_ne by done.
    rewrite decide_False; [done|]. intros [= -> ->]. done.
Qed.

Lemma board_set_shape b i j h w :
  length b = h → Forall (λ row, length row = w) b →
  length (board_set b i j) = h ∧
  Forall (λ row, length row = w) (board_set b i j).
Proof.
  intros Hlen Hrows. unfold board_set. split; [by rewrite length_insert|].
  destruct (decide (Z.to_nat i < length b)%nat) as [Hi|Hi].
  - apply Forall_insert; [done|]. rewrite length_insert.
    destruct (lookup_lt_is_Some_2 b (Z.to_nat i)) as [row Hrow]; [lia|].
    rewrite (list_lookup_total_correct _ _ _ Hrow).
    rewrite Forall_forall in Hrows. eapply Hrows, list_elem_of_lookup_2, Hrow.
  - by rewrite list_insert_ge by lia.
Qed.

Lemma well_formed_empty h w : well_formed (Game h w ∅ (empty_board h w) ∅).
Proof.
  unfold well_formed, empty_board, is_mine, inside. cbn.
  split; [by rewrite length_replicate|]. split.
  { apply Forall_replicate. by rewrite length_replicate. }
  split; [set_solver|].
  intros [i j] [Hi Hj]. cbn in *. unfold board_at.
  rewrite lookup_total_replicate_2 by lia.
  rewrite lookup_total_replicate_2 by lia. set_solver.
Qed.

Lemma well_formed_place g i j :
  well_formed g → 0 ≤ i < height g → 0 ≤ j < width g →
  well_formed (Game (height g) (width g) ({[(i, j)]} ∪ mines g)
                    (board_set (board g) i j) (mines_found g)).
Proof.
  intros (Hlen & Hrows & Hin & Hiff) Hi Hj.
  destruct (board_set_shape (board g) i j _ _ Hlen Hrows) as [Hlen' Hrows'].
  split; [done|]. split; [done|]. split.
  - intros c. cbn [mines]. intros [->%elem_of_singleton|Hc]%elem_of_union;
      [done|by apply Hin].
  - intros [i' j'] [Hi' Hj']. unfold is_mine. cbn [board mines fst snd] in *.
    rewrite (board_at_set _ _ _ _ _ _ _ Hlen Hrows) by lia.
    case_decide as Heq.
    + injection Heq as -> ->. set_solver.
    + specialize (Hiff (i', j') (conj Hi' Hj')). unfold is_mine in Hiff.
      cbn [fst snd] in Hiff. rewrite Hiff. set_solver.
Qed.

Lemma add_mines_spec target draws : ∀ g g',
  well_formed g → Forall (valid_draw g) draws →
  add_mines target draws g = Done g' →
  well_formed g' ∧ height g' = height g ∧ width g' = width g ∧
  Z.of_nat (size (mines g')) = target ∧
  mines g ⊆ mines g' ∧ mines_found g' = mines_found g.
Proof.
  assert (Hstop : ∀ g, well_formed g → Z.of_nat (size (mines g)) = target →
    well_formed g ∧ height g = height g ∧ width g = width g ∧
    Z.of_nat (size (mines g)) = target ∧
    mines g ⊆ mines g ∧ mines_found g = mines_found g).
  { intros g Hwf Hsz. split_and!; done. }
  induction draws as [|[i j] draws IH]; intros g g' Hwf Hdraws; cbn [add_mines].
  - case_decide as Hsz; [intros [= <-]; by apply Hstop|].
    by case_decide.
  - case_decide as Hsz; [intros [= <-]; by apply Hstop|].
    case_decide as Hdim; [done|].
    apply Forall_cons in Hdraws as [[Hi Hj] Hdraws]. cbn [fst snd] in Hi, Hj.
    destruct (board_at (board g) i j) eqn:Hat; [by apply IH|].
    intros Hrun. apply IH in Hrun.
    + destruct Hrun as (Hwf' & Hh & Hw & Hn & Hsub & Hf).
      split_and!; try done. cbn [mines] in Hsub. set_solver.
    + by apply well_formed_place.
    + done.
Qed.

(** X16. When the constructor returns a game, the field has the requested
    size, exactly the requested number of cells are mines, all of them
    inside the field, the field holds [True] exactly at the mines (so
    [is_mine] decides membership in [mines]), and no mine has been found
    yet. *)
Theorem init_spec (h w n : Z) (draws : list (Z * Z)) (g : t) :
  Forall (λ d, 0 ≤ d.1 < h ∧ 0 ≤ d.2 < w) draws →
  init h w n draws = Done g →
  height g = h ∧ width g = w ∧ well_formed g ∧
  Z.of_nat (size (mines g)) = n ∧ mines_found g = ∅.
Proof.
  intros Hdraws Hinit. unfold init in Hinit.
  apply add_mines_spec in Hinit as (Hwf & Hh & Hw & Hn & _ & Hf);
    [|apply well_formed_empty|done].
  cbn in Hh, Hw, Hf. split_and!; done.
Qed.

Lemma init_spec_witness :
  ∃ g, init 2 2 1 [(1, 0)] = Done g ∧ Z.of_nat (size (mines g)) = 1.
Proof.
  destruct (init 2 2 1 [(1, 0)]) as [g| |] eqn:Hg;
    [|vm_compute in Hg; discriminate..].
  exists g. split; [reflexivity|].
  refine (proj1 (proj2 (proj2 (proj2 (init_spec 2 2 1 [(1, 0)] g _ Hg))))).
  apply Forall_cons. split; [cbn; lia|apply Forall_nil_2].
Defined.

(** *** The edge cases of the constructor *)

(** X17. Asked for no mines, the constructor returns the empty field
    without drawing, whatever the size (a height or width below one gives
    a field without cells).  Asked for any other number of mines on a
    field without cells, it raises [ValueError] at the first draw. *)
Theorem init_degenerate (h w n : Z) (draws : list (Z * Z)) :
  (n = 0 → init h w n draws = Done (Game h w ∅ (empty_board h w) ∅)) ∧
  (n ≠ 0 → h ≤ 0 ∨ w ≤ 0 → init h w n draws = ValueError).
Proof.
  unfold init. split.
  - intros ->. destruct draws; cbn [add_mines mines]; by rewrite size_empty.
  - intros Hn Hdim.
    destruct draws; cbn [add_mines mines height width]; rewrite size_empty;
      (rewrite decide_False by (cbn; lia)); by rewrite decide_True.
Qed.

Lemma init_degenerate_witness :
  init 0 3 0 [] = Done (Game 0 3 ∅ (empty_board 0 3) ∅) ∧
  init 0 3 2 [] = ValueError.
Proof.
  split.
  - exact (proj1 (init_degenerate 0 3 0 []) eq_refl).
  - refine (proj2 (init_degenerate 0 3 2 []) _ _); lia.
Defined.

Lemma size_grid_le (st : MinesweeperAI.t) :
  0 ≤ MinesweeperAI.height st → 0 ≤ MinesweeperAI.width st →
  Z.of_nat (size (MinesweeperAI.grid st)) ≤
  MinesweeperAI.height st * MinesweeperAI.width st.
Proof.
  intros Hh Hw. unfold MinesweeperAI.grid.
  etrans; [apply inj_le, MinesweeperAI.size_list_to_set_le|].
  generalize (MinesweeperAI.width st) Hw. intros w Hw0.
  generalize (MinesweeperAI.height st) Hh. intros h Hh0.
  assert (Hlen : ∀ l : list Z,
    Z.of_nat (length (i ← l; j ← seqZ 0 w; [(i, j)])) = Z.of_nat (length l) * w).
  { induction l as [|i l IH]; [done|].
    rewrite bind_cons, length_app, Nat2Z.inj_add, IH. cbn [length].
    assert (Hrow : ∀ l' : list Z,
      length (j ← l'; [(i, j)]) = length l').
    { induction l' as [|j l' IH']; [done|].
      rewrite bind_cons. cbn [length app]. by rewrite IH'. }
    rewrite Hrow, length_seqZ. lia. }
  rewrite Hlen, length_seqZ. lia.
Qed.

Lemma add_mines_starved target draws : ∀ g,
  well_formed g → 0 < height g → 0 < width g → height g * width g < target →
  Forall (valid_draw g) draws →
  add_mines target draws g = NoMoreDraws.
Proof.
  assert (Hsize : ∀ g, well_formed g → 0 < height g → 0 < width g →
    Z.of_nat (size (mines g)) ≤ height g * width g).
  { intros g (_ & _ & Hin & _) Hh Hw.
    pose (st := MinesweeperAI.init (height g) (width g)).
    etrans; [|apply (size_grid_le st); cbn; lia].
    apply inj_le, subseteq_size. intros c Hc.
    apply MinesweeperAI.elem_of_grid. by apply Hin. }
  induction draws as [|[i j] draws IH]; intros g Hwf Hh Hw Hbig Hdraws;
    pose proof (Hsize g Hwf Hh Hw); cbn [add_mines].
  - rewrite decide_False by lia. by rewrite decide_False by lia.
  - rewrite decide_False by lia. rewrite decide_False by lia.
    apply Forall_cons in Hdraws as [[Hi Hj] Hdraws]. cbn [fst snd] in Hi, Hj.
    destruct (board_at (board g) i j) eqn:Hat; [by apply IH|].
    apply IH; [|done..]. by apply well_formed_place.
Qed.

(** X18. Asked for a number of mines other than 0 that exceeds the
    number of cells, the constructor never returns a game.  On a field
    without cells (height or width below one) it raises [ValueError] at
    the first draw.  On a field with cells it never gets out of its
    drawing loop: however many cells are drawn, the number of mines stays
    different from the requested one and another draw is needed. *)
Theorem init_too_many_mines (h w n : Z) (draws : list (Z * Z)) :
  h * w < n → n ≠ 0 →
  Forall (λ d, 0 ≤ d.1 < h ∧ 0 ≤ d.2 < w) draws →
  init h w n draws =
    if decide (h ≤ 0 ∨ w ≤ 0) then ValueError else NoMoreDraws.
Proof.
  intros Hn Hn0 Hdraws. unfold init. case_decide as Hdim.
  - destruct draws; cbn [add_mines mines height width]; rewrite size_empty;
      (rewrite decide_False by (cbn; lia)); by rewrite decide_True.
  - apply add_mines_starved; [apply well_formed_empty|cbn; lia..|done].
Qed.

Lemma init_too_many_mines_witness :
  init 1 2 3 [(0, 0); (0, 1); (0, 0)] = NoMoreDraws.
Proof.
  apply (init_too_many_mines 1 2 3); [lia..|].
  repeat (apply Forall_cons; split; [cbn; lia|]). apply Forall_nil_2.
Defined.

(** *** [nearby_mines] counts the mines among the neighbours *)

Lemma elem_of_around c p :
  p ∈ around c ↔ c.1 - 1 ≤ p.1 ≤ c.1 + 1 ∧ c.2 - 1 ≤ p.2 ≤ c.2 + 1.
Proof.
  unfold around. rewrite list_elem_of_bind. split.
  - intros (i & Hin & Hi). apply list_elem_of_bind in Hin as (j & Hin & Hj).
    apply list_elem_of_singleton in Hin as ->. cbn [fst snd].
    apply MinesweeperAI.elem_of_three in Hi, Hj. lia.
  - intros [Hi Hj]. exists p.1. split; [|apply MinesweeperAI.elem_of_three; lia].
    apply list_elem_of_bind. exists p.2.
    split; [|apply MinesweeperAI.elem_of_three; lia].
    destruct p. cbn. apply list_elem_of_singleton. done.
Qed.

Lemma NoDup_around c : NoDup (around c).
Proof.
  unfold around. cbn.
  repeat (apply NoDup_cons_2;
    [intros H;
     repeat (apply elem_of_cons in H as [Heq|H]; [injection Heq; intros; lia|]);
     by apply elem_of_nil in H|]).
  apply NoDup_nil_2.
Qed.

Lemma foldl_count (P : Cell → Prop) `{!∀ p, Decision (P p)}
    (f : Z → Cell → Z) (l : list Cell) :
  (∀ n p, p ∈ l → f n p = if decide (P p) then n + 1 else n) →
  ∀ a, foldl f a l = a + Z.of_nat (length (filter P l)).
Proof.
  induction l as [|p l IH]; intros Hf a; cbn [foldl]; [cbn; lia|].
  rewrite IH by (intros; apply Hf; set_solver).
  rewrite Hf by set_solver. rewrite filter_cons.
  case_decide; cbn [length]; lia.
Qed.

Lemma nearby_mines_count (g : t) (st : MinesweeperAI.t) (cell : Cell) :
  well_formed g →
  MinesweeperAI.height st = height g → MinesweeperAI.width st = width g →
  nearby_mines g cell =
  Z.of_nat (size (MinesweeperAI.get_neighbors st cell ∩ mines g)).
Proof.
  intros (_ & _ & _ & Hiff) Hh Hw. unfold nearby_mines.
  rewrite (foldl_count (λ p, p ∈ MinesweeperAI.get_neighbors st cell ∩ mines g)).
  - rewrite Z.add_0_l. f_equal. unfold size, set_size. cbn [length].
    apply Permutation_length, NoDup_Permutation.
    + apply NoDup_filter, NoDup_around.
    + apply NoDup_elements.
    + intros p. rewrite list_elem_of_filter, elem_of_elements. split; [tauto|].
      intros Hp. split; [done|]. apply elem_of_intersection in Hp as [Hp _].
      apply MinesweeperAI.elem_of_get_neighbors in Hp.
      apply elem_of_around. lia.
  - intros n p Hp. apply elem_of_around in Hp.
    case_decide as Hself.
    { rewrite decide_False; [done|]. intros [Hn _]%elem_of_intersection.
      apply MinesweeperAI.elem_of_get_neighbors in Hn. tauto. }
    case_decide as Hin.
    + specialize (Hiff p Hin).
      destruct (is_mine g p) eqn:Hmine.
      * rewrite decide_True; [done|]. apply elem_of_intersection.
        split; [|by apply Hiff].
        apply MinesweeperAI.elem_of_get_neighbors. rewrite Hh, Hw. tauto.
      * rewrite decide_False; [done|]. intros [_ Hm]%elem_of_intersection.
        apply Hiff in Hm. congruence.
    + rewrite decide_False; [done|]. intros [Hn _]%elem_of_intersection.
      apply MinesweeperAI.elem_of_get_neighbors in Hn.
      rewrite Hh, Hw in Hn. tauto.
Qed.

(** X19. On a well-formed game, [nearby_mines(cell)] is the number of
    mines among the cells the AI's [get_neighbors(cell)] returns for a
    field of the same size: the in-bounds cells within one row and column
    of [cell], [cell] itself excluded, also when [cell] lies on the edge or
    outside the field. *)
Theorem nearby_mines_spec (g : t) (st : MinesweeperAI.t) (cell : Cell) :
  well_formed g →
  MinesweeperAI.height st = height g → MinesweeperAI.width st = width g →
  nearby_mines g cell =
  Z.of_nat (size (MinesweeperAI.get_neighbors st cell ∩ mines g)).
Proof. apply nearby_mines_count. Qed.

(** A field of one row and three columns with its one mine at (0, 2). *)
Definition example_game : t :=
  Game 1 3 {[(0, 2)]} [[false; false; true]] ∅.

Lemma example_game_well_formed : well_formed example_game.
Proof.
  split; [done|]. split; [by repeat constructor|]. split.
  - intros c Hc. cbn [mines example_game] in Hc.
    apply elem_of_singleton in Hc as ->. unfold inside. cbn. lia.
  - intros [i j] [Hi Hj]. cbn in Hi, Hj. cbn [mines example_game].
    rewrite elem_of_singleton.
    assert (Hi' : i = 0) by lia.
    assert (Hj' : j = 0 ∨ j = 1 ∨ j = 2) by lia.
    subst i. unfold is_mine, board_at. cbn [board example_game fst snd].
    destruct Hj' as [-> | [-> | ->]]; (split; [intros H|intros [= ]]);
      first [done | by vm_compute in H].
Qed.

Lemma nearby_mines_spec_witness :
  nearby_mines example_game (0, 1) =
  Z.of_nat (size (MinesweeperAI.get_neighbors (MinesweeperAI.init 1 3) (0, 1)
                  ∩ mines example_game)).
Proof.
  apply (nearby_mines_spec example_game (MinesweeperAI.init 1 3) (0, 1));
    [apply example_game_well_formed|reflexivity..].
Defined.

(** ** The player on a game *)

(** A play of the AI on a game: it starts fresh on a field of the game's
    size and is told, for a cell of the field that holds no mine, the
    number the game's [nearby_mines] gives for it. *)
Inductive play (g : t) : MinesweeperAI.t → Prop :=
  | play_start : play g (MinesweeperAI.init (height g) (width g))
  | play_probe st cell fuel st' :
      play g st → inside g cell → is_mine g cell = false →
      MinesweeperAI.add_knowledge fuel st cell (nearby_mines g cell) = Some st' →
      play g st'.

(** Everything the AI has recorded lies inside the field. *)
Definition records_inside (st : MinesweeperAI.t) : Prop :=
  MinesweeperAI.in_grid st ∧
  ∀ c, c ∈ MinesweeperAI.safes st ∪ MinesweeperAI.mines st →
       0 ≤ c.1 < MinesweeperAI.height st ∧ 0 ≤ c.2 < MinesweeperAI.width st.

Lemma records_inside_fixpoint_loop fuel st st' :
  records_inside st → MinesweeperAI.fixpoint_loop fuel st = Some st' →
  records_inside st'.
Proof.
  apply (MinesweeperAI.fixpoint_loop_rule records_inside).
  - intros st1 c s [Hg Hr] Hs Hc _. split.
    + intros s' c' (s0 & -> & Hs0)%list_elem_of_fmap Hc'.
      rewrite Sentence.mark_safe_cells in Hc'. apply (Hg s0 c'); [done|set_solver].
    + intros c'. cbn [MinesweeperAI.mark_safe MinesweeperAI.safes
                      MinesweeperAI.mines MinesweeperAI.height MinesweeperAI.width].
      intros [[->%elem_of_singleton|Hc']%elem_of_union|Hc']%elem_of_union.
      * by apply (Hg s).
      * apply Hr. set_solver.
      * apply Hr. set_solver.
  - intros st1 c s [Hg Hr] Hs Hc _. split.
    + intros s' c' (s0 & -> & Hs0)%list_elem_of_fmap Hc'.
      rewrite Sentence.mark_mine_cells in Hc'. apply (Hg s0 c'); [done|set_solver].
    + intros c'. cbn [MinesweeperAI.mark_mine MinesweeperAI.safes
                      MinesweeperAI.mines MinesweeperAI.height MinesweeperAI.width].
      intros [Hc'|[->%elem_of_singleton|Hc']%elem_of_union]%elem_of_union.
      * apply Hr. set_solver.
      * by apply (Hg s).
      * apply Hr. set_solver.
  - intros st1 [Hg Hr]. split; [|exact Hr].
    intros s c [_ Hs]%list_elem_of_filter Hc. by apply (Hg s c).
  - intros st1 [Hg Hr]. split; [|exact Hr].
    intros s c Hs Hc. cbn in Hs.
    apply elem_of_app in Hs as [Hs|Hs]; [by apply (Hg s c)|].
    apply MinesweeperAI.new_sentences_inv in Hs as (_ & t1 & t2 & _ & Ht2 & _ & ->).
    cbn in Hc. apply (Hg t2 c); [done|set_solver].
Qed.

Lemma records_inside_add_knowledge fuel st cell count st' :
  records_inside st →
  0 ≤ cell.1 < MinesweeperAI.height st → 0 ≤ cell.2 < MinesweeperAI.width st →
  MinesweeperAI.add_knowledge fuel st cell count = Some st' →
  records_inside st'.
Proof.
  intros [Hg Hr] Hi Hj Hadd.
  split; [by eapply MinesweeperAI.in_grid_add_knowledge|].
  revert Hadd. rewrite MinesweeperAI.add_knowledge_unfold. cbv zeta.
  assert (Hplayed : records_inside (MinesweeperAI.played cell st)).
  { split.
    - intros s c (s0 & -> & Hs0)%list_elem_of_fmap Hc.
      rewrite Sentence.mark_safe_cells in Hc. apply (Hg s0 c); [done|set_solver].
    - intros c. cbn.
      intros [[->%elem_of_singleton|Hc]%elem_of_union|Hc]%elem_of_union.
      + done.
      + apply Hr. set_solver.
      + apply Hr. set_solver. }
  case_decide; [intros [= <-]; apply Hplayed|].
  case_decide; [intros [= <-]; apply Hplayed|].
  intros Hloop. eapply records_inside_fixpoint_loop in Hloop; [apply Hloop|].
  destruct Hplayed as [Hg1 Hr1]. split; [|exact Hr1].
  intros s c Hs Hc. cbn [MinesweeperAI.knowledge MinesweeperAI.set_knowledge] in Hs.
  apply elem_of_app in Hs as [Hs|Hs]; [by apply (Hg1 s c)|].
  apply list_elem_of_singleton in Hs as ->. cbn [Sentence.cells] in Hc.
  unfold MinesweeperAI.unknown_neighbors in Hc.
  assert (Hn : c ∈ MinesweeperAI.get_neighbors (MinesweeperAI.played cell st) cell)
    by set_solver.
  apply MinesweeperAI.elem_of_get_neighbors in Hn. tauto.
Qed.

Lemma play_facts g st :
  well_formed g → play g st →
  MinesweeperAI.height st = height g ∧ MinesweeperAI.width st = width g ∧
  MinesweeperAI.truthful (mines g) st ∧ records_inside st.
Proof.
  intros Hwf. induction 1 as [|st cell fuel st' _ (Hh & Hw & Htrue & Hrec)
                                Hin Hmine Hadd].
  - split; [done|]. split; [done|]. split.
    + split; [cbn; set_solver|]. split; [cbn; set_solver|].
      intros s Hs. by apply elem_of_nil in Hs.
    + split; [intros s c Hs; by apply elem_of_nil in Hs|cbn; set_solver].
  - pose proof (MinesweeperAI.add_knowledge_frame _ _ _ _ _ Hadd)
      as (Hh' & Hw' & _).
    split; [congruence|]. split; [congruence|].
    assert (Hcell : cell ∉ mines g).
    { destruct Hwf as (_ & _ & _ & Hiff). intros Hc.
      apply (Hiff cell Hin) in Hc. congruence. }
    split.
    + eapply MinesweeperAI.truthful_add_knowledge; [exact Htrue|exact Hcell| |exact Hadd].
      by apply nearby_mines_count.
    + destruct Hin as [Hi Hj].
      eapply records_inside_add_knowledge; [exact Hrec| | |exact Hadd]; lia.
Qed.

(** X20. While the AI is told the game's own numbers for cells that hold
    no mine, its records agree with the field: every cell in its [mines]
    holds a mine, no cell in its [safes] does, and the count of every
    sentence of its knowledge is the number of mines among that sentence's
    cells. *)
Theorem play_records_true (g : t) (st : MinesweeperAI.t) :
  well_formed g → play g st →
  (∀ c, c ∈ MinesweeperAI.mines st → is_mine g c = true) ∧
  (∀ c, c ∈ MinesweeperAI.safes st → is_mine g c = false) ∧
  (∀ s, s ∈ MinesweeperAI.knowledge st →
        Sentence.count s = Z.of_nat (size (Sentence.cells s ∩ mines g))).
Proof.
  intros Hwf Hplay.
  destruct (play_facts g st Hwf Hplay) as (Hh & Hw & (Hm & Hs & Hk) & _ & Hr).
  destruct Hwf as (_ & _ & Hin & Hiff). split_and!.
  - intros c Hc. apply Hiff; [apply Hin|]; set_solver.
  - intros c Hc. assert (Hinside : inside g c).
    { unfold inside. rewrite <- Hh, <- Hw. apply Hr. set_solver. }
    destruct (is_mine g c) eqn:Hmine; [|done].
    apply (Hiff c Hinside) in Hmine. set_solver.
  - exact Hk.
Qed.

(** X21. While the AI is told the game's own numbers for cells that hold
    no mine, the cell [make_safe_move] returns is a cell of the field that
    holds no mine and has not been played. *)
Theorem safe_move_is_safe (g : t) (st : MinesweeperAI.t) (rnd : nat) (c : Cell) :
  well_formed g → play g st →
  (MinesweeperAI.make_safe_move rnd st).1 = Some c →
  inside g c ∧ is_mine g c = false ∧ (c ∉ MinesweeperAI.moves_made st).
Proof.
  intros Hwf Hplay.
  destruct (play_facts g st Hwf Hplay) as (Hh & Hw & (Hm & Hs & Hk) & _ & Hr).
  destruct Hwf as (_ & _ & Hin & Hiff).
  unfold MinesweeperAI.make_safe_move. cbn [fst].
  case_decide as Hsz; [|done]. unfold MinesweeperAI.choice. intros Hc.
  apply list_elem_of_lookup_2, elem_of_elements, elem_of_difference in Hc
    as [Hsafe Hnew].
  assert (Hinside : inside g c).
  { unfold inside. rewrite <- Hh, <- Hw. apply Hr. set_solver. }
  split; [done|]. split; [|done].
  destruct (is_mine g c) eqn:Hmine; [|done].
  apply (Hiff c Hinside) in Hmine. set_solver.
Qed.

(** The AI after it has probed (0, 0) on [example_game]. *)
Definition example_state : MinesweeperAI.t :=
  default (MinesweeperAI.init 1 3)
    (MinesweeperAI.add_knowledge 5 (MinesweeperAI.init 1 3) (0, 0)
       (nearby_mines example_game (0, 0))).

Lemma example_state_play : play example_game example_state.
Proof.
  apply (play_probe example_game (MinesweeperAI.init 1 3) (0, 0) 5).
  - apply play_start.
  - split; cbn; lia.
  - reflexivity.
  - vm_compute. reflexivity.
Qed.

Lemma play_records_true_witness :
  (∀ c, c ∈ MinesweeperAI.mines example_state → is_mine example_game c = true) ∧
  (∀ c, c ∈ MinesweeperAI.safes example_state → is_mine example_game c = false) ∧
  (∀ s, s ∈ MinesweeperAI.knowledge example_state →
        Sentence.count s = Z.of_nat (size (Sentence.cells s ∩ mines example_game))).
Proof.
  exact (play_records_true example_game example_state
           example_game_well_formed example_state_play).
Defined.

Lemma safe_move_is_safe_witness :
  inside example_game (0, 1) ∧ is_mine example_game (0, 1) = false ∧
  ((0, 1) ∉ MinesweeperAI.moves_made example_state).
Proof.
  assert (Hmove : (MinesweeperAI.make_safe_move 0 example_state).1 = Some (0, 1))
    by (vm_compute; reflexivity).
  exact (safe_move_is_safe example_game example_state 0 (0, 1)
           example_game_well_formed example_state_play Hmove).
Defined.

End Minesweeper.
